(** * IADS adaptive scheduling core: APS (CMAB, CTLC, PRIO) and EM

    A shallow embedding of [modules/aps.py], [modules/em.py] and
    [config.py], with the properties of the scheduling pipeline stated
    and proved over it.

    Conventions of the embedding:
    - Python floats are exact rationals ([Qc], canonical fractions, so
      that equality is Leibniz equality).  Rounding, infinities and NaN
      are outside the model.
    - A division by zero is the [ZeroDivisionError] that Python floats
      raise.  With a [numpy.float64] operand the same division gives
      an infinity or a NaN and the code goes on; that behaviour is, as
      every infinity and NaN, outside the model.
    - Python dicts are [gmap]s; the order in which a dict is iterated is
      the order of [map_to_list] (no property below depends on it).
    - Objects are immutable records and every method takes the object
      and returns the new one.
    - [time.time()] and [numpy.random] are inputs of the functions that
      read them; a call reads the clock once. *)

From Stdlib Require Import QArith Qcanon Lqa.
From stdpp Require Import base option list sorting strings gmap.

Local Open Scope string_scope.
Local Open Scope list_scope.
Local Open Scope Qc_scope.

(** ** Numbers *)

Module Num.

(** [n / d] as a float literal, e.g. [0.1 = frac 1 10]. *)
Definition frac (n : Z) (d : positive) : Qc := Q2Qc (n # d).

Definition ltb (x y : Qc) : bool := bool_decide (x < y).
Definition eqb (x y : Qc) : bool := bool_decide (x = y).

(** Python's two-argument [max(a, b)] and [min(a, b)]: the first
    argument is kept unless the second is strictly better. *)
Definition py_max (a b : Qc) : Qc := if ltb a b then b else a.
Definition py_min (a b : Qc) : Qc := if ltb b a then b else a.

Definition abs (x : Qc) : Qc := if ltb x 0 then - x else x.

End Num.

(** ** config.py *)

Module Config.

Definition RTT := "rtt".
Definition PLR := "plr".
Definition BANDWIDTH := "bandwidth".
Definition LIVENESS := "liveness".

(** [SYSTEM_CONFIG] *)
Definition top_k : Z := 5.
Definition probe_interval_default : Qc := Num.frac 10 1.
Definition probe_interval_min : Qc := Num.frac 1 1.
Definition probe_interval_max : Qc := Num.frac 60 1.
Definition sliding_window : Qc := Num.frac 300 1.

(** [APS_CONFIG] *)
Definition max_uncertainty : Qc := Num.frac 2 1.
Definition max_stability : Qc := Num.frac 5 1.
Definition target_stability : Qc := Num.frac 1 1.
Definition kp : Qc := Num.frac 1 10.

Record Weights := {
  w_eig : Qc;
  w_urgency : Qc;
  w_policy_match : Qc;
  w_event_trig : Qc
}.

Definition priority_weights : Weights :=
  {| w_eig := Num.frac 4 10;
     w_urgency := Num.frac 3 10;
     w_policy_match := Num.frac 2 10;
     w_event_trig := Num.frac 1 10 |}.

(** [CMAB_STRATEGIES] *)
Definition FOCUS_UNCERTAINTY := "focus_uncertainty".
Definition HIGHFREQ_UNSTABLE := "highfreq_unstable".
Definition COVERAGE_BALANCER := "coverage_balancer".
Definition EVENT_TRIGGER := "event_trigger".

(** [list(CMAB_STRATEGIES.values())], in the order of the dict. *)
Definition strategies : list string :=
  [FOCUS_UNCERTAINTY; HIGHFREQ_UNSTABLE; COVERAGE_BALANCER; EVENT_TRIGGER].

(** [EVENT_THRESHOLDS] *)
Definition liveness_threshold : Qc := Num.frac 8 10.
Definition stability_threshold : Qc := Num.frac 3 1.
Definition rtt_spike_factor : Qc := Num.frac 3 1.
Definition max_recent_events : Qc := Num.frac 100 1.

End Config.

(** ** numpy arrays

    Vectors are lists and matrices are lists of rows.  The operations
    below are the numpy calls of [CMAB], on arrays of matching shapes
    ([n_features] entries, [n_features] rows and columns). *)

Module Linalg.

Definition Vec := list Qc.
Definition Matrix := list (list Qc).

(** [np.zeros(n)] *)
Definition zeros (n : nat) : Vec := replicate n 0.

(** [np.eye(n)] *)
Definition eye (n : nat) : Matrix :=
  map (λ i, map (λ j, if Nat.eqb i j then 1 else 0) (seq 0 n)) (seq 0 n).

Fixpoint zip_with_Qc (f : Qc → Qc → Qc) (u v : Vec) : Vec :=
  match u, v with
  | x :: u', y :: v' => f x y :: zip_with_Qc f u' v'
  | _, _ => []
  end.

Definition vadd (u v : Vec) : Vec := zip_with_Qc Qcplus u v.
Definition vscale (a : Qc) (v : Vec) : Vec := map (Qcmult a) v.
Definition vscale_r (v : Vec) (a : Qc) : Vec := map (λ x, x * a) v.

(** [np.dot(u, v)] on two vectors *)
Definition dot (u v : Vec) : Qc := foldr Qcplus 0 (zip_with_Qc Qcmult u v).

(** [np.dot(c, c.T)] for the column [c = context.reshape(-1, 1)] *)
Definition outer (u v : Vec) : Matrix := map (λ x, vscale x v) u.

Fixpoint madd (a b : Matrix) : Matrix :=
  match a, b with
  | r :: a', s :: b' => vadd r s :: madd a' b'
  | _, _ => []
  end.

Definition mscale (x : Qc) (a : Matrix) : Matrix := map (vscale x) a.

(** [np.dot(M, v)] for a matrix and a vector *)
Definition mvmul (a : Matrix) (v : Vec) : Vec := map (λ r, dot r v) a.

(** Gauss-Jordan elimination on the rows [a | I]. *)
Definition row_sub (k : Qc) (pivot row : Vec) : Vec :=
  zip_with_Qc (λ x p, x - k * p) row pivot.

Definition eliminate (j : nat) (pivot : Vec) (row : Vec) : Vec :=
  row_sub (nth j row 0) pivot row.

Fixpoint find_pivot (j : nat) (before rows : list Vec)
  : option (list Vec * Vec * list Vec) :=
  match rows with
  | [] => None
  | r :: rows' =>
    if Num.eqb (nth j r 0) 0 then find_pivot j (before ++ [r]) rows'
    else Some (before, r, rows')
  end.

Fixpoint gauss_jordan (cols : list nat) (done todo : list Vec)
  : option (list Vec) :=
  match cols with
  | [] => Some done
  | j :: cols' =>
    match find_pivot j [] todo with
    | None => None
    | Some (before, r, after) =>
      let pivot := vscale (/ nth j r 0) r in
      gauss_jordan cols'
        (map (eliminate j pivot) done ++ [pivot])
        (map (eliminate j pivot) (before ++ after))
    end
  end.

(** [np.linalg.inv(a)]; [None] is [LinAlgError] (singular matrix). *)
Definition inv (a : Matrix) : option Matrix :=
  let n := length a in
  let augmented := zip_with (λ r e, r ++ e) a (eye n) in
  option_map (map (drop n)) (gauss_jordan (seq 0 n) [] augmented).

End Linalg.

(** ** What a call does

    A method call returns a value and leaves the object in a new state,
    or raises and leaves it in the state reached before the exception. *)

Inductive outcome (S A : Type) : Type :=
| Returned (a : A) (s : S)
| Raised (exn : string) (s : S).
Arguments Returned {S A} a s.
Arguments Raised {S A} exn s.

Definition state_after {S A : Type} (o : outcome S A) : S :=
  match o with Returned _ s => s | Raised _ s => s end.

Definition returned_state {S A : Type} (o : outcome S A) : option S :=
  match o with Returned _ s => Some s | Raised _ _ => None end.

(** ** ESM, as [aps.py] and [em.py] see it

    [modules/esm.py] and [utils/distributions.py] are not among the
    sources.  An entity state carries what the scheduler and the event
    manager read from it: the stability [S] from which
    [get_stability()] is computed, the value returned by
    [get_uncertainty()], the attribute [probe_interval], the time of the
    last probe, and of its distribution the value of [get_confidence()]
    and the attribute [mu] when the distribution has one. *)

Module ESM.

Record Distribution := {
  confidence : Qc;
  mu : option Qc
}.

Record EntityState := {
  distribution : Distribution;
  stability : Qc;
  uncertainty : Qc;
  probe_interval : Qc;
  last_probe_time : Qc
}.

(** Modelled from the spec: [EntityState.get_stability] of
    [modules/esm.py], which is not among the sources.  The state holds
    the stability [S ∈ [0, max_stability]]; [get_stability()] returns
    it normalised, [S / max_stability]: the event rule compares the
    normalised [S] with [3 / max_stability], which [em.py] writes
    [get_stability() > stability_threshold / max_stability], and
    [aps.py] takes the returned value as already normalised. *)
Definition get_stability (state : EntityState) : Qc :=
  stability state / Config.max_stability.

Definition get_uncertainty (state : EntityState) : Qc := uncertainty state.

(** Modelled from the spec: [EntityState.get_urgency] of
    [modules/esm.py], which is not among the sources:
    [urgency = min((now - last_probe_time) / T, 2.0)], for the
    intervals [T > 0] that ESM keeps. *)
Definition get_urgency (state : EntityState) (now : Qc) : Qc :=
  Num.py_min ((now - last_probe_time state) / probe_interval state)
             (Num.frac 2 1).

Record t := {
  state_table : gmap (string * string) EntityState
}.

(** Modelled from the spec: [EntityStateManager.get_state], the state
    of the pair or [None]. *)
Definition get_state (self : t) (entity_id metric : string)
  : option EntityState :=
  state_table self !! (entity_id, metric).

(** Modelled from the spec: [EntityStateManager.set_probe_interval]
    clamps the interval to [probe_interval_min, probe_interval_max]
    and stores it; a pair without a state is ignored. *)
Definition set_probe_interval (self : t) (entity_id metric : string)
  (interval : Qc) : t :=
  match get_state self entity_id metric with
  | None => self
  | Some state =>
    let clamped :=
      Num.py_max Config.probe_interval_min
                 (Num.py_min Config.probe_interval_max interval) in
    {| state_table :=
         <[(entity_id, metric) :=
             {| distribution := distribution state;
                stability := stability state;
                uncertainty := uncertainty state;
                probe_interval := clamped;
                last_probe_time := last_probe_time state |}]>
           (state_table self) |}
  end.

Definition mean (l : list Qc) : Qc :=
  foldr Qcplus 0 l / Qc_of_Z (Z.of_nat (length l)).

(** Modelled from the spec: [EntityStateManager.get_context_vector],
    the population means of normalised uncertainty, normalised
    stability and urgency over all states, and the event rate
    [min(num_recent_events / max_recent_events, 1)]. *)
Definition get_context_vector (self : t) (num_recent_events : nat)
  (now : Qc) : Linalg.Vec :=
  let states := map snd (map_to_list (state_table self)) in
  [ mean (map (λ s, get_uncertainty s / Config.max_uncertainty) states);
    mean (map (λ s, stability s / Config.max_stability) states);
    mean (map (λ s, get_urgency s now) states);
    Num.py_min (Qc_of_Z (Z.of_nat num_recent_events)
                  / Config.max_recent_events) 1 ].

End ESM.

(** ** modules/em.py

    The event manager's reference [self.esm] is the [esm] argument of
    the detection pass. *)

Module EM.

Record Event := {
  entity_id : string;
  metric : string;
  event_type : string;
  severity : Qc;
  timestamp : Qc;
  details : list (string * Qc)
}.

Record Stats := {
  total_events : nat;
  events_by_type : gmap string nat;
  events_by_entity : gmap string nat;
  events_by_metric : gmap string nat
}.

Record t := {
  events : list Event;
  recent_events : list Event;
  event_triggers : gmap (string * string) Qc;
  measurement_history : gmap (string * string) (list Qc);
  stats : Stats;
  core_entities : gset string
}.

(** [EventManager.__init__] *)
Definition init : t :=
  {| events := [];
     recent_events := [];
     event_triggers := ∅;
     measurement_history := ∅;
     stats := {| total_events := 0;
                 events_by_type := ∅;
                 events_by_entity := ∅;
                 events_by_metric := ∅ |};
     core_entities := ∅ |}.

(** [EventManager.add_core_entity] *)
Definition add_core_entity (self : t) (e : string) : t :=
  {| events := events self;
     recent_events := recent_events self;
     event_triggers := event_triggers self;
     measurement_history := measurement_history self;
     stats := stats self;
     core_entities := {[e]} ∪ core_entities self |}.

(** [deque(maxlen=n).append(x)] *)
Definition deque_append {A : Type} (maxlen : nat) (d : list A) (x : A)
  : list A :=
  let d' := d ++ [x] in drop (length d' - maxlen) d'.

(** [deque(maxlen=10000)] and [deque(maxlen=100)] *)
Definition events_maxlen : nat := Z.to_nat 10000.
Definition history_maxlen : nat := 100.

(** [defaultdict(int)[k] += 1] *)
Definition incr (k : string) (m : gmap string nat) : gmap string nat :=
  <[k := S (default 0%nat (m !! k))]> m.

Definition with_recent_events (self : t) (r : list Event) : t :=
  {| events := events self;
     recent_events := r;
     event_triggers := event_triggers self;
     measurement_history := measurement_history self;
     stats := stats self;
     core_entities := core_entities self |}.

Definition with_event_triggers (self : t) (tr : gmap (string * string) Qc)
  : t :=
  {| events := events self;
     recent_events := recent_events self;
     event_triggers := tr;
     measurement_history := measurement_history self;
     stats := stats self;
     core_entities := core_entities self |}.

Definition with_measurement_history (self : t)
  (h : gmap (string * string) (list Qc)) : t :=
  {| events := events self;
     recent_events := recent_events self;
     event_triggers := event_triggers self;
     measurement_history := h;
     stats := stats self;
     core_entities := core_entities self |}.

(** [EventManager._clean_recent_events]: pop from the left while the
    oldest event is older than the sliding window. *)
Fixpoint popleft_older (cutoff_time : Qc) (d : list Event) : list Event :=
  match d with
  | ev :: d' =>
    if Num.ltb (timestamp ev) cutoff_time then popleft_older cutoff_time d'
    else d
  | [] => []
  end.

Definition _clean_recent_events (self : t) (current_time : Qc) : t :=
  let cutoff_time := current_time - Config.sliding_window in
  with_recent_events self (popleft_older cutoff_time (recent_events self)).

(** [EventManager._add_event] *)
Definition _add_event (self : t) (event : Event) : t :=
  {| events := deque_append events_maxlen (events self) event;
     recent_events := recent_events self ++ [event];
     event_triggers := event_triggers self;
     measurement_history := measurement_history self;
     stats :=
       {| total_events := S (total_events (stats self));
          events_by_type :=
            incr (event_type event) (events_by_type (stats self));
          events_by_entity :=
            incr (entity_id event) (events_by_entity (stats self));
          events_by_metric :=
            incr (metric event) (events_by_metric (stats self)) |};
     core_entities := core_entities self |}.

(** [EventManager.get_event_trigger] *)
Definition get_event_trigger (self : t) (e m : string) : Qc :=
  default 0 (event_triggers self !! (e, m)).

Section Detection.

(** [np.mean] and [np.std] of a list of floats. *)
Variables np_mean np_std : list Qc → Qc.

(** [EventManager._detect_anomalies]; the events it builds are
    stamped with the clock [now]. *)
Definition _detect_anomalies (self : t) (e m : string)
  (state : ESM.EntityState) (now : Qc) : t * list Event :=
  if decide (m = Config.LIVENESS) then
    let p_up := ESM.confidence (ESM.distribution state) in
    if Num.ltb p_up Config.liveness_threshold then
      (self,
       [ {| entity_id := e; metric := m; event_type := "liveness_low";
            severity := 1 - p_up; timestamp := now;
            details := [("p_up", p_up)] |} ])
    else (self, [])
  else
    let stability := ESM.get_stability state in
    let events :=
      if Num.ltb (Config.stability_threshold / Config.max_stability)
                 stability
      then [ {| entity_id := e; metric := m;
                event_type := "high_instability";
                severity := Num.py_min stability 1; timestamp := now;
                details := [("stability", stability)] |} ]
      else [] in
    match ESM.mu (ESM.distribution state) with
    | None => (self, events)
    | Some current_value =>
      let history_key := (e, m) in
      let history :=
        deque_append history_maxlen
          (default [] (measurement_history self !! history_key))
          current_value in
      let self :=
        with_measurement_history self
          (<[history_key := history]> (measurement_history self)) in
      if bool_decide (10 ≤ length history)%nat then
        let hist_mean := np_mean (removelast history) in
        let hist_std := np_std (removelast history) in
        if Num.ltb 0 hist_std then
          if decide (m = Config.RTT) then
            let threshold := Config.rtt_spike_factor * hist_std in
            if Num.ltb threshold (Num.abs (current_value - hist_mean))
            then
              (self,
               events ++
               [ {| entity_id := e; metric := m;
                    event_type := "rtt_spike";
                    severity :=
                      Num.py_min
                        (Num.abs (current_value - hist_mean)
                           / (Num.frac 5 1 * hist_std)) 1;
                    timestamp := now;
                    details :=
                      [("current", current_value);
                       ("historical_mean", hist_mean);
                       ("deviation",
                        Num.abs (current_value - hist_mean))] |} ])
            else (self, events)
          else (self, events)
        else (self, events)
      else (self, events)
    end.

(** The body of the loop over the events of one state: record the
    event, raise the trigger of the pair and, for an rtt event of a
    core entity, the triggers of its plr and bandwidth. *)
Definition raise_trigger (self : t) (e m : string) : t :=
  with_event_triggers self (<[(e, m) := 1]> (event_triggers self)).

Definition on_event (e m : string) (self : t) (event : Event) : t :=
  let self := _add_event self event in
  let self := raise_trigger self e m in
  if decide (e ∈ core_entities self ∧ m = Config.RTT) then
    foldl (λ self other_metric, raise_trigger self e other_metric)
          self [Config.PLR; Config.BANDWIDTH]
  else self.

(** The body of the loop over [esm.state_table.items()]. *)
Definition on_state (now : Qc) (self : t)
  (item : string * string * ESM.EntityState) : t :=
  let '((e, m), state) := item in
  let '(self, events) := _detect_anomalies self e m state now in
  foldl (on_event e m) self events.

(** [EventManager.check_and_detect_events], at clock [now]. *)
Definition check_and_detect_events (self : t) (esm : ESM.t) (now : Qc)
  : t :=
  let current_time := now in
  let self := _clean_recent_events self current_time in
  let self := with_event_triggers self ∅ in
  foldl (on_state now) self (map_to_list (ESM.state_table esm)).

End Detection.

End EM.

(** ** CMAB *)

Module CMAB.
Import Linalg.

(** One entry of [self.history]; [scores] and [sampled_theta] keep
    the order in which the arms were scored. *)
Record Selection := {
  context : Vec;
  strategy : string;
  scores : list (string * Qc);
  sampled_theta : list (string * Vec)
}.

Record t := {
  n_features : nat;
  n_arms : nat;
  strategies : list string;
  mu : gmap string Vec;
  Sigma : gmap string Matrix;
  Sigma_inv : gmap string Matrix;
  history : list Selection;
  selected_strategy : option string
}.

(** [CMAB.__init__] *)
Definition init (n_features n_arms : nat) : t :=
  let strategies := Config.strategies in
  {| n_features := n_features;
     n_arms := n_arms;
     strategies := strategies;
     mu := foldl (λ m s, <[s := zeros n_features]> m) ∅ strategies;
     Sigma := foldl (λ m s, <[s := eye n_features]> m) ∅ strategies;
     Sigma_inv := foldl (λ m s, <[s := eye n_features]> m) ∅ strategies;
     history := [];
     selected_strategy := None |}.

(** [max(scores, key=scores.get)]: the first key, in the order of the
    dict, whose score is maximal. *)
Fixpoint max_key_from (best : string * Qc) (l : list (string * Qc))
  : string :=
  match l with
  | [] => best.1
  | (s, v) :: l' =>
    if Num.ltb best.2 v then max_key_from (s, v) l'
    else max_key_from best l'
  end.

Definition max_key (scores : list (string * Qc)) : option string :=
  match scores with
  | [] => None
  | b :: l => Some (max_key_from b l)
  end.

(** One turn of the loop of [select_strategy]: [self.mu[strategy]]
    and [self.Sigma[strategy]] are read, the parameter vector is drawn
    and scored.  [draw s] is the vector that
    [np.random.multivariate_normal(mu[s], Sigma[s])] returns for arm
    [s] in this call.  [None]: an arm without its mean or its
    covariance, the [KeyError] of the dict. *)
Definition sample_arm (self : t) (context : Vec) (draw : string → Vec)
  (strategy : string) : option ((string * Vec) * (string * Qc)) :=
  _ ← mu self !! strategy;
  _ ← Sigma self !! strategy;
  let theta := draw strategy in
  Some ((strategy, theta), (strategy, dot context theta)).

(** [CMAB.select_strategy].  The loop writes nothing to [self]: a
    [KeyError] in it, and the [ValueError] that [max] of an empty dict
    raises, leave the bandit as it was. *)
Definition select_strategy (self : t) (context : Vec) (draw : string → Vec)
  : outcome t string :=
  match mapM (sample_arm self context draw) (strategies self) with
  | None => Raised "KeyError" self
  | Some sampled =>
    let sampled_theta := sampled.*1 in
    let scores := sampled.*2 in
    match max_key scores with
    | None => Raised "ValueError" self
    | Some selected =>
      Returned selected
        {| n_features := n_features self;
           n_arms := n_arms self;
           strategies := strategies self;
           mu := mu self;
           Sigma := Sigma self;
           Sigma_inv := Sigma_inv self;
           history :=
             history self ++
             [ {| context := context;
                  strategy := selected;
                  scores := scores;
                  sampled_theta := sampled_theta |} ];
           selected_strategy := Some selected |}
    end
  end.

Definition with_Sigma_inv (self : t) (m : gmap string Matrix) : t :=
  {| n_features := n_features self; n_arms := n_arms self;
     strategies := strategies self; mu := mu self; Sigma := Sigma self;
     Sigma_inv := m;
     history := history self;
     selected_strategy := selected_strategy self |}.

Definition with_Sigma (self : t) (m : gmap string Matrix) : t :=
  {| n_features := n_features self; n_arms := n_arms self;
     strategies := strategies self; mu := mu self;
     Sigma := m;
     Sigma_inv := Sigma_inv self;
     history := history self;
     selected_strategy := selected_strategy self |}.

Definition with_mu (self : t) (m : gmap string Vec) : t :=
  {| n_features := n_features self; n_arms := n_arms self;
     strategies := strategies self;
     mu := m;
     Sigma := Sigma self; Sigma_inv := Sigma_inv self;
     history := history self;
     selected_strategy := selected_strategy self |}.

(** [CMAB.update], statement by statement.  A missing key, a zero
    [noise_var] and a singular matrix raise, and the assignments made
    before the exception stay. *)
Definition update (self : t) (context : Vec) (reward noise_var : Qc)
  : outcome t unit :=
  match selected_strategy self with
  | None => Returned tt self
  | Some strategy =>
    let c := context in
    match Sigma_inv self !! strategy with
    | None => Raised "KeyError" self
    | Some precision =>
      if Num.eqb noise_var 0 then Raised "ZeroDivisionError" self else
      let self :=
        with_Sigma_inv self
          (<[strategy :=
               madd precision (mscale (1 / noise_var) (outer c c))]>
             (Sigma_inv self)) in
      match Sigma_inv self !! strategy ≫= inv with
      | None => Raised "LinAlgError" self
      | Some covariance =>
        let self :=
          with_Sigma self (<[strategy := covariance]> (Sigma self)) in
        match Sigma self !! strategy, Sigma_inv self !! strategy,
              mu self !! strategy with
        | Some cov, Some prec, Some mean =>
          Returned tt
            (with_mu self
               (<[strategy :=
                    mvmul cov
                      (vadd (mvmul prec mean)
                            (vscale_r (vscale (1 / noise_var) c) reward))]>
                  (mu self)))
        | _, _, _ => Raised "KeyError" self
        end
      end
    end
  end.

End CMAB.

(** ** CTLC *)

Module CTLC.

Record t := {
  kp : Qc;
  target_stability : Qc;
  min_interval : Qc;
  max_interval : Qc
}.

(** [CTLC.__init__] *)
Definition init (kp target_stability : Qc) : t :=
  {| kp := kp;
     target_stability := target_stability;
     min_interval := Config.probe_interval_min;
     max_interval := Config.probe_interval_max |}.

(** [CTLC.adjust_probe_interval].  [None] is the division by a zero
    [target_stability]: the [ZeroDivisionError] of a Python float
    [stability].  (Were [stability] a [numpy.float64], the quotient
    would be an infinity or a NaN and the call would return one of the
    bounds; see the conventions.) *)
Definition adjust_probe_interval (self : t) (current_interval stability : Qc)
  : option Qc :=
  if Num.eqb (target_stability self) 0 then None else
  let adjustment_factor :=
    1 + kp self * (1 - stability / target_stability self) in
  let new_interval := current_interval * adjustment_factor in
  let new_interval :=
    Num.py_max (min_interval self)
               (Num.py_min (max_interval self) new_interval) in
  Some new_interval.

Record Adjustment := {
  entity_id : string;
  metric : string;
  old_interval : Qc;
  new_interval : Qc;
  adj_stability : Qc
}.

(** The body of the loop of [CTLC.batch_adjust].  [state] is the
    object the dict holds for the pair; no earlier iteration has
    touched it, since a dict has one item per key. *)
Definition adjust_item (self : t)
  (acc : outcome ESM.t (list Adjustment))
  (item : string * string * ESM.EntityState)
  : outcome ESM.t (list Adjustment) :=
  match acc with
  | Raised _ _ => acc
  | Returned adjustments esm =>
    let '((entity_id, metric), state) := item in
    let old_interval := ESM.probe_interval state in
    let stability := ESM.get_stability state in
    match adjust_probe_interval self old_interval stability with
    | None => Raised "ZeroDivisionError" esm
    | Some new_interval =>
      if negb (Num.eqb new_interval old_interval) then
        Returned
          (adjustments ++
           [ {| entity_id := entity_id; metric := metric;
                old_interval := old_interval;
                new_interval := new_interval;
                adj_stability := stability |} ])
          (ESM.set_probe_interval esm entity_id metric new_interval)
      else Returned adjustments esm
    end
  end.

(** [CTLC.batch_adjust] *)
Definition batch_adjust (self : t) (esm : ESM.t)
  : outcome ESM.t (list Adjustment) :=
  foldl (adjust_item self) (Returned [] esm)
        (map_to_list (ESM.state_table esm)).

End CTLC.

(** ** PRIO *)

Module PRIO.

(** A task of UQ's pool ([modules/uq.py] is not among the sources):
    the pair it probes and its cached expected information gain. *)
Record Task := {
  entity_id : string;
  metric : string;
  eig : Qc
}.

Record Components := {
  c_eig : Qc;
  c_urgency : Qc;
  c_policy_match : Qc;
  c_event_trig : Qc
}.

(** One entry of the list [select_top_k] returns. *)
Record Scored := {
  task : Task;
  priority : Qc;
  components : Components
}.

Record t := {
  weights : Config.Weights
}.

(** [PRIO.__init__] *)
Definition init (weights : option Config.Weights) : t :=
  {| weights := default Config.priority_weights weights |}.

(** [PRIO.calculate_policy_match] *)
Definition calculate_policy_match (self : t) (task : Task)
  (selected_strategy : string) (esm : ESM.t) (event_triggered : bool)
  : Qc :=
  match ESM.get_state esm (entity_id task) (metric task) with
  | None => 0
  | Some state =>
    if decide (selected_strategy = Config.FOCUS_UNCERTAINTY) then
      let uncertainty := ESM.get_uncertainty state in
      uncertainty / Config.max_uncertainty
    else if decide (selected_strategy = Config.HIGHFREQ_UNSTABLE) then
      let stability := ESM.get_stability state in
      stability
    else if decide (selected_strategy = Config.COVERAGE_BALANCER) then
      1
    else if decide (selected_strategy = Config.EVENT_TRIGGER) then
      if event_triggered then 1 else 0
    else 0
  end.

(** [PRIO.calculate_priority] *)
Definition calculate_priority (self : t) (task : Task)
  (eig urgency policy_match event_trig : Qc) : Qc :=
  Config.w_eig (weights self) * eig
  + Config.w_urgency (weights self) * urgency
  + Config.w_policy_match (weights self) * policy_match
  + Config.w_event_trig (weights self) * event_trig.

(** The body of the loop of [select_top_k]: [None] is [continue]. *)
Definition score_task (self : t) (esm : ESM.t) (em : option EM.t)
  (selected_strategy : string) (now : Qc) (task : Task) : option Scored :=
  let eig := eig task in
  match ESM.get_state esm (entity_id task) (metric task) with
  | None => None
  | Some state =>
    let urgency := ESM.get_urgency state now in
    let event_trig :=
      match em with
      | Some em => EM.get_event_trigger em (entity_id task) (metric task)
      | None => 0
      end in
    let policy_match :=
      calculate_policy_match self task selected_strategy esm
                             (Num.ltb 0 event_trig) in
    let priority :=
      calculate_priority self task eig urgency policy_match event_trig in
    Some {| task := task;
            priority := priority;
            components := {| c_eig := eig;
                             c_urgency := urgency;
                             c_policy_match := policy_match;
                             c_event_trig := event_trig |} |}
  end.

(** [list.sort(key=lambda x: x['priority'], reverse=True)]: a stable
    sort, entries of equal priority keep their order. *)
Fixpoint insert_desc (x : Scored) (l : list Scored) : list Scored :=
  match l with
  | [] => [x]
  | y :: l' =>
    if Num.ltb (priority x) (priority y) then y :: insert_desc x l'
    else x :: l
  end.

Definition sort_desc (l : list Scored) : list Scored :=
  foldr insert_desc [] l.

(** The slice [l[:k]] for an integer [k]. *)
Definition slice_to {A : Type} (l : list A) (k : Z) : list A :=
  if (0 <=? k)%Z then take (Z.to_nat k) l
  else take (Z.to_nat (Z.of_nat (length l) + k)) l.

(** [PRIO.select_top_k], with the clock [now] that [get_urgency]
    reads. *)
Definition select_top_k (self : t) (task_pool : list Task) (esm : ESM.t)
  (em : option EM.t) (selected_strategy : string) (k : Z) (now : Qc)
  : list Scored :=
  let task_priorities :=
    omap (score_task self esm em selected_strategy now) task_pool in
  let task_priorities := sort_desc task_priorities in
  slice_to task_priorities k.

End PRIO.

(** ** ActiveProbingScheduler *)

Module APS.

(** UQ, as the scheduler sees it: its task pool. *)
Record UQ := {
  task_pool : list PRIO.Task
}.

Record Stats := {
  total_rounds : nat;
  total_tasks_selected : nat;
  strategy_history : list string
}.

Record t := {
  esm : ESM.t;
  uq : UQ;
  em : option EM.t;
  cmab : CMAB.t;
  ctlc : CTLC.t;
  prio : PRIO.t;
  stats : Stats
}.

(** [ActiveProbingScheduler.__init__] *)
Definition init (esm : ESM.t) (uq : UQ) (em : option EM.t) : t :=
  {| esm := esm;
     uq := uq;
     em := em;
     cmab := CMAB.init 4 4;
     ctlc := CTLC.init Config.kp Config.target_stability;
     prio := PRIO.init None;
     stats := {| total_rounds := 0;
                 total_tasks_selected := 0;
                 strategy_history := [] |} |}.

(** The dict [select_tasks] returns. *)
Record Selection := {
  tasks : list PRIO.Scored;
  strategy : string;
  context : Linalg.Vec;
  interval_adjustments : list CTLC.Adjustment
}.

Definition with_esm (self : t) (e : ESM.t) : t :=
  {| esm := e; uq := uq self; em := em self; cmab := cmab self;
     ctlc := ctlc self; prio := prio self; stats := stats self |}.

Definition with_cmab (self : t) (c : CMAB.t) : t :=
  {| esm := esm self; uq := uq self; em := em self; cmab := c;
     ctlc := ctlc self; prio := prio self; stats := stats self |}.

Definition with_stats (self : t) (s : Stats) : t :=
  {| esm := esm self; uq := uq self; em := em self; cmab := cmab self;
     ctlc := ctlc self; prio := prio self; stats := s |}.

Section Scheduler.

(** [esm.get_context_vector()], read at a given time of the clock. *)
Variable get_context_vector : ESM.t → Qc → Linalg.Vec.

(** [ActiveProbingScheduler.select_tasks] at clock [now]; [draw] is
    what the random generator gives [CMAB.select_strategy]. *)
Definition select_tasks (self : t) (k : option Z) (now : Qc)
  (draw : string → Linalg.Vec) : outcome t Selection :=
  let k := default Config.top_k k in
  let context := get_context_vector (esm self) now in
  match CMAB.select_strategy (cmab self) context draw with
  | Raised exn cmab' => Raised exn (with_cmab self cmab')
  | Returned selected_strategy cmab' =>
    let self := with_cmab self cmab' in
    match CTLC.batch_adjust (ctlc self) (esm self) with
    | Raised exn esm' => Raised exn (with_esm self esm')
    | Returned adjustments esm' =>
      let self := with_esm self esm' in
      let selected_tasks :=
        PRIO.select_top_k (prio self) (task_pool (uq self)) (esm self)
                          (em self) selected_strategy k now in
      let self :=
        with_stats self
          {| total_rounds := S (total_rounds (stats self));
             total_tasks_selected :=
               (total_tasks_selected (stats self)
                + length selected_tasks)%nat;
             strategy_history :=
               strategy_history (stats self) ++ [selected_strategy] |} in
      Returned {| tasks := selected_tasks;
                  strategy := selected_strategy;
                  context := context;
                  interval_adjustments := adjustments |}
               self
    end
  end.

(** [ActiveProbingScheduler.update_reward] at clock [now]. *)
Definition update_reward (self : t) (reward : Qc) (now : Qc)
  : outcome t unit :=
  let context := get_context_vector (esm self) now in
  match CMAB.update (cmab self) context reward 1 with
  | Returned _ cmab' => Returned tt (with_cmab self cmab')
  | Raised exn cmab' => Raised exn (with_cmab self cmab')
  end.

End Scheduler.

End APS.

(** * Specification-side definitions *)

Module Spec.

(** [clamp(x, lo, hi)] as the specification words it. *)
Definition clamp (x lo hi : Qc) : Qc :=
  if Num.ltb x lo then lo else if Num.ltb hi x then hi else x.

(** [T ∈ [T_min, T_max]] *)
Definition in_range (x : Qc) : Prop :=
  Config.probe_interval_min ≤ x ∧ x ≤ Config.probe_interval_max.

Definition adjustment_ok (a : CTLC.Adjustment) : Prop :=
  in_range (CTLC.new_interval a).

(** The posterior mean as the specification writes it:
    [Sigma_new . (Lambda_old . mu_old + (1/nu) c . r)]. *)
Definition posterior_mean (cov_new prec_old : Linalg.Matrix)
  (mean_old c : Linalg.Vec) (r nu : Qc) : Linalg.Vec :=
  Linalg.mvmul cov_new
    (Linalg.vadd (Linalg.mvmul prec_old mean_old)
                 (Linalg.vscale_r (Linalg.vscale (1 / nu) c) r)).

(** Priorities that never increase along the list. *)
Definition non_increasing (l : list Qc) : Prop :=
  StronglySorted (λ p q, q ≤ p) l.

Definition by_priority (a b : PRIO.Scored) : Prop :=
  PRIO.priority b ≤ PRIO.priority a.

(** The entries of a list that have priority [p], in their order. *)
Definition with_priority (p : Qc) (l : list PRIO.Scored)
  : list PRIO.Scored :=
  filter (λ s, PRIO.priority s = p) l.

(** The ranking as the specification words it: descending priority,
    ties broken by descending EIG, then by [entity_id] in
    lexicographic order ([ascending] or not). *)
Definition ranked_before (ascending : bool) (a b : PRIO.Scored) : bool :=
  let ida := PRIO.entity_id (PRIO.task a) in
  let idb := PRIO.entity_id (PRIO.task b) in
  Num.ltb (PRIO.priority b) (PRIO.priority a)
  || (Num.eqb (PRIO.priority a) (PRIO.priority b)
      && (Num.ltb (PRIO.eig (PRIO.task b)) (PRIO.eig (PRIO.task a))
          || (Num.eqb (PRIO.eig (PRIO.task a)) (PRIO.eig (PRIO.task b))
              && (if ascending then String.leb ida idb
                  else String.leb idb ida)))).

Definition ranked_before_rel (ascending : bool) : relation PRIO.Scored :=
  λ a b, ranked_before ascending a b = true.

Global Instance ranked_before_dec ascending a b :
  Decision (ranked_before_rel ascending a b).
Proof. unfold ranked_before_rel. apply _. Defined.

Definition ranked (ascending : bool) (l : list PRIO.Scored) : Prop :=
  Sorted (ranked_before_rel ascending) l.

Global Instance ranked_dec ascending l : Decision (ranked ascending l).
Proof. unfold ranked. apply _. Defined.

(** The events a detection pass fires: those it appends to
    [recent_events], after the old ones have been cleaned. *)
Definition fired_in_pass (np_mean np_std : list Qc → Qc) (self : EM.t)
  (esm : ESM.t) (now : Qc) : list EM.Event :=
  drop (length (EM.recent_events (EM._clean_recent_events self now)))
       (EM.recent_events
          (EM.check_and_detect_events np_mean np_std self esm now)).

(** An event fired on the pair [(e, m)]. *)
Definition fired_on (fired : list EM.Event) (e m : string) : Prop :=
  ∃ ev, ev ∈ fired ∧ EM.entity_id ev = e ∧ EM.metric ev = m.

(** The pairs whose trigger the specification raises: those an event
    fired on and, for a core entity with an rtt event, its plr and
    bandwidth. *)
Definition raised (core : gset string) (fired : list EM.Event)
  (e m : string) : Prop :=
  fired_on fired e m
  ∨ (e ∈ core ∧ fired_on fired e Config.RTT
     ∧ (m = Config.PLR ∨ m = Config.BANDWIDTH)).

(** What holds of the event manager while a pass runs, [fired] being
    the events fired so far. *)
Definition pass_inv (base : list EM.Event) (core : gset string)
  (fired : list EM.Event) (self : EM.t) : Prop :=
  EM.recent_events self = base ++ fired
  ∧ EM.core_entities self = core
  ∧ (∀ k v, EM.event_triggers self !! k = Some v → v = 1)
  ∧ (∀ e m, is_Some (EM.event_triggers self !! (e, m))
            ↔ raised core fired e m).

(** A scheduler as [ActiveProbingScheduler.__init__] builds it and as
    every later call keeps it: the bandit has arms, every arm has its
    mean and its covariance, and the target stability of the
    controller is not zero. *)
Definition ready (self : APS.t) : Prop :=
  CMAB.strategies (APS.cmab self) ≠ []
  ∧ Forall (λ arm, is_Some (CMAB.mu (APS.cmab self) !! arm)
                   ∧ is_Some (CMAB.Sigma (APS.cmab self) !! arm))
           (CMAB.strategies (APS.cmab self))
  ∧ CTLC.target_stability (APS.ctlc self) ≠ 0.

(** The rational values of a vector. *)
Definition values (v : Linalg.Vec) : list Q := map this v.

End Spec.

(** * Concrete inputs *)

Module Scenario.
Import Linalg.

Definition c : Vec := [1; 0; 0; 0].
Definition draw0 (_ : string) : Vec := zeros 4.

(** A fresh bandit, one selection, two rewards for the same context. *)
Definition two_rewards : option (CMAB.t * CMAB.t * string) :=
  match CMAB.select_strategy (CMAB.init 4 4) c draw0 with
  | Raised _ _ => None
  | Returned arm self0 =>
    self1 ← returned_state (CMAB.update self0 c 1 1);
    self2 ← returned_state (CMAB.update self1 c 1 1);
    Some (self1, self2, arm)
  end.

(** A bandit that has selected an arm. *)
Definition selected : CMAB.t :=
  state_after (CMAB.select_strategy (CMAB.init 4 4) c draw0).

(** A state of stability [s], last probed at time 0, probed every
    10 seconds. *)
Definition state (s : Qc) : ESM.EntityState :=
  {| ESM.distribution :=
       {| ESM.confidence := 1; ESM.mu := Some (Num.frac 10 1) |};
     ESM.stability := s;
     ESM.uncertainty := 1;
     ESM.probe_interval := Num.frac 10 1;
     ESM.last_probe_time := 0 |}.

Definition task (entity_id : string) : PRIO.Task :=
  {| PRIO.entity_id := entity_id;
     PRIO.metric := Config.RTT;
     PRIO.eig := Num.frac 1 2 |}.

(** One link, three links. *)
Definition esm1 (s : Qc) : ESM.t :=
  {| ESM.state_table := {[ ("L1", Config.RTT) := state s ]} |}.

Definition esm3 : ESM.t :=
  {| ESM.state_table :=
       <[("L3", Config.RTT) := state 0]>
         (<[("L1", Config.RTT) := state 0]>
            {[ ("L2", Config.RTT) := state 0 ]}) |}.

Definition pool3 : list PRIO.Task := [task "L2"; task "L1"; task "L3"].

(** Two links of equal priority at time 5: L1 has no information to
    gain and is one interval overdue, L2 has EIG 3/4 and has just been
    probed. *)
Definition probed_at (last : Qc) : ESM.EntityState :=
  {| ESM.distribution :=
       {| ESM.confidence := 1; ESM.mu := Some (Num.frac 10 1) |};
     ESM.stability := 0;
     ESM.uncertainty := 1;
     ESM.probe_interval := Num.frac 10 1;
     ESM.last_probe_time := last |}.

Definition esm_tie : ESM.t :=
  {| ESM.state_table :=
       <[("L1", Config.RTT) := probed_at (Num.frac (-5) 1)]>
         {[ ("L2", Config.RTT) := probed_at (Num.frac 5 1) ]} |}.

Definition pool_tie : list PRIO.Task :=
  [ {| PRIO.entity_id := "L1"; PRIO.metric := Config.RTT; PRIO.eig := 0 |};
    {| PRIO.entity_id := "L2"; PRIO.metric := Config.RTT;
       PRIO.eig := Num.frac 3 4 |} ].

(** A link whose liveness confidence is 1/10. *)
Definition esm_down : ESM.t :=
  {| ESM.state_table :=
       {[ ("L2", Config.LIVENESS) :=
            {| ESM.distribution :=
                 {| ESM.confidence := Num.frac 1 10; ESM.mu := None |};
               ESM.stability := 0;
               ESM.uncertainty := 1;
               ESM.probe_interval := Num.frac 10 1;
               ESM.last_probe_time := 0 |} ]} |}.

Definition no_statistic (_ : list Qc) : Qc := 0.

(** The event a pass at time 5 fires on that link. *)
Definition down_event : EM.Event :=
  {| EM.entity_id := "L2";
     EM.metric := Config.LIVENESS;
     EM.event_type := "liveness_low";
     EM.severity := 1 - Num.frac 1 10;
     EM.timestamp := Num.frac 5 1;
     EM.details := [("p_up", Num.frac 1 10)] |}.

(** The context vector of the specification, with no recent event. *)
Definition context_vector (esm : ESM.t) (now : Qc) : Vec :=
  ESM.get_context_vector esm 0 now.

Definition aps1 : APS.t :=
  APS.init (esm1 0) {| APS.task_pool := [task "L1"] |} None.

Definition aps3 : APS.t :=
  APS.init esm3 {| APS.task_pool := pool3 |} None.

End Scenario.

(** * The rest of [aps.py] and [em.py] *)

(** ** Python lists *)

Module Py.

Section Sorted.

Context {A : Type} (key : A → Qc).

(** [sorted(l, key=key, reverse=True)] and
    [l.sort(key=key, reverse=True)]: a stable sort, largest key
    first. *)
Fixpoint insert_desc (x : A) (l : list A) : list A :=
  match l with
  | [] => [x]
  | y :: l' =>
    if Num.ltb (key x) (key y) then y :: insert_desc x l' else x :: l
  end.

Definition sorted_desc (l : list A) : list A := foldr insert_desc [] l.

End Sorted.

(** The slice [l[-n:]] for a positive [n]. *)
Definition last_n {A : Type} (n : nat) (l : list A) : list A :=
  drop (length l - n) l.

(** [d.get(k, default)] on a dict kept as a list of items. *)
Fixpoint get (k : string) (d : list (string * Qc)) (dflt : Qc) : Qc :=
  match d with
  | [] => dflt
  | (k', v) :: d' => if decide (k' = k) then v else get k d' dflt
  end.

End Py.

(** ** CMAB.get_strategy_stats *)

Module CMABView.

Record Parameters := {
  p_mu : list Qc;
  p_Sigma_diag : list Qc
}.

Record StrategyStats := {
  total_selections : nat;
  strategy_counts : gmap string nat;
  current_parameters : list (string * Parameters)
}.

(** [np.diag(M)] of a square matrix *)
Definition diag (m : Linalg.Matrix) : Linalg.Vec :=
  imap (λ i row, nth i row 0) m.

(** The loop [strategy_counts[record['strategy']] += 1]. *)
Definition count_strategies (history : list CMAB.Selection)
  : gmap string nat :=
  foldl (λ counts record, EM.incr (CMAB.strategy record) counts) ∅ history.

(** [CMAB.get_strategy_stats]; [None] is the [KeyError] of an arm
    without parameters. *)
Definition get_strategy_stats (self : CMAB.t) : option StrategyStats :=
  parameters ←
    mapM (λ strategy,
            mu ← CMAB.mu self !! strategy;
            Sigma ← CMAB.Sigma self !! strategy;
            Some (strategy, {| p_mu := mu; p_Sigma_diag := diag Sigma |}))
         (CMAB.strategies self);
  Some {| total_selections := length (CMAB.history self);
          strategy_counts := count_strategies (CMAB.history self);
          current_parameters := parameters |}.

End CMABView.

(** ** ActiveProbingScheduler.get_statistics *)

Module APSView.

Record Statistics := {
  aps_stats : APS.Stats;
  cmab_stats : CMABView.StrategyStats;
  recent_strategies : list string
}.

(** [ActiveProbingScheduler.get_statistics] *)
Definition get_statistics (self : APS.t) : option Statistics :=
  cmab_stats ← CMABView.get_strategy_stats (APS.cmab self);
  Some {| aps_stats := APS.stats self;
          cmab_stats := cmab_stats;
          recent_strategies :=
            Py.last_n 10 (APS.strategy_history (APS.stats self)) |}.

(** What the collaborators of the scheduler do to the objects it
    holds references to: ESM, UQ's pool and the event manager change
    between two calls. *)
Definition with_env (self : APS.t) (esm : ESM.t) (uq : APS.UQ)
  (em : option EM.t) : APS.t :=
  {| APS.esm := esm; APS.uq := uq; APS.em := em;
     APS.cmab := APS.cmab self; APS.ctlc := APS.ctlc self;
     APS.prio := APS.prio self; APS.stats := APS.stats self |}.

(** The schedulers a program can reach: built by [__init__], then
    driven by [select_tasks] and [update_reward] while its
    collaborators change. *)
Inductive reachable (get_context_vector : ESM.t → Qc → Linalg.Vec)
  : APS.t → Prop :=
| reach_init esm uq em :
    reachable get_context_vector (APS.init esm uq em)
| reach_select self k now draw :
    reachable get_context_vector self →
    reachable get_context_vector
      (state_after (APS.select_tasks get_context_vector self k now draw))
| reach_reward self reward now :
    reachable get_context_vector self →
    reachable get_context_vector
      (state_after (APS.update_reward get_context_vector self reward now))
| reach_env self esm uq em :
    reachable get_context_vector self →
    reachable get_context_vector (with_env self esm uq em).

End APSView.

(** ** The read operations of EventManager *)

Module EMView.

(** [Event.to_dict]: the dict has the attributes of the event as
    items. *)
Definition to_dict (e : EM.Event) : EM.Event := e.

(** [EventManager.get_num_recent_events] *)
Definition get_num_recent_events (self : EM.t) : nat :=
  length (EM.recent_events self).

(** [EventManager.get_num_recent_events_normalized] *)
Definition get_num_recent_events_normalized (self : EM.t) : Qc :=
  Num.py_min
    (Qc_of_Z (Z.of_nat (length (EM.recent_events self)))
       / Config.max_recent_events)
    1.

(** [EventManager.get_recent_events] *)
Definition get_recent_events (self : EM.t) (limit : Z) : list EM.Event :=
  let events := EM.recent_events self in
  let events := Py.sorted_desc EM.timestamp events in
  map to_dict (PRIO.slice_to events limit).

(** [EventManager.get_events_by_entity] *)
Definition get_events_by_entity (self : EM.t) (entity_id : string)
  (limit : Z) : list EM.Event :=
  let entity_events :=
    filter (λ e, EM.entity_id e = entity_id) (EM.events self) in
  let entity_events := Py.sorted_desc EM.timestamp entity_events in
  map to_dict (PRIO.slice_to entity_events limit).

Record Statistics := {
  total_events : nat;
  recent_events_count : nat;
  event_rate : Qc;
  events_by_type : gmap string nat;
  events_by_metric : gmap string nat;
  top_entities : list (string * nat);
  active_triggers : nat
}.

(** [EventManager.get_statistics] at clock [now]. *)
Definition get_statistics (self : EM.t) (now : Qc) : Statistics :=
  let event_rate :=
    match EM.recent_events self with
    | [] => 0
    | first :: _ =>
      let time_span := now - EM.timestamp first in
      if Num.ltb 0 time_span then
        Qc_of_Z (Z.of_nat (length (EM.recent_events self))) / time_span
      else 0
    end in
  let top_entities :=
    PRIO.slice_to
      (Py.sorted_desc (λ x, Qc_of_Z (Z.of_nat x.2))
         (map_to_list (EM.events_by_entity (EM.stats self))))
      10 in
  {| total_events := EM.total_events (EM.stats self);
     recent_events_count := length (EM.recent_events self);
     event_rate := event_rate;
     events_by_type := EM.events_by_type (EM.stats self);
     events_by_metric := EM.events_by_metric (EM.stats self);
     top_entities := top_entities;
     active_triggers :=
       length (filter (λ v, 0 < v)
                 (map snd (map_to_list (EM.event_triggers self)))) |}.

Record LivenessIssue := {
  li_entity : string; li_p_up : Qc; li_time : Qc
}.

Record InstabilityIssue := {
  ii_entity : string; ii_metric : string; ii_stability : Qc; ii_time : Qc
}.

Record ValueSpike := {
  vs_entity : string; vs_metric : string; vs_current : Qc;
  vs_deviation : Qc; vs_time : Qc
}.

Record Summary := {
  liveness_issues : list LivenessIssue;
  instability_issues : list InstabilityIssue;
  value_spikes : list ValueSpike
}.

(** The body of the loop of [get_anomaly_summary]. *)
Definition summarise (summary : Summary) (event : EM.Event) : Summary :=
  if decide (EM.event_type event = "liveness_low") then
    {| liveness_issues :=
         liveness_issues summary ++
         [ {| li_entity := EM.entity_id event;
              li_p_up := Py.get "p_up" (EM.details event) 0;
              li_time := EM.timestamp event |} ];
       instability_issues := instability_issues summary;
       value_spikes := value_spikes summary |}
  else if decide (EM.event_type event = "high_instability") then
    {| liveness_issues := liveness_issues summary;
       instability_issues :=
         instability_issues summary ++
         [ {| ii_entity := EM.entity_id event;
              ii_metric := EM.metric event;
              ii_stability := Py.get "stability" (EM.details event) 0;
              ii_time := EM.timestamp event |} ];
       value_spikes := value_spikes summary |}
  else if decide (EM.event_type event ∈ ["rtt_spike"; "plr_spike"]) then
    {| liveness_issues := liveness_issues summary;
       instability_issues := instability_issues summary;
       value_spikes :=
         value_spikes summary ++
         [ {| vs_entity := EM.entity_id event;
              vs_metric := EM.metric event;
              vs_current := Py.get "current" (EM.details event) 0;
              vs_deviation := Py.get "deviation" (EM.details event) 0;
              vs_time := EM.timestamp event |} ] |}
  else summary.

(** [EventManager.get_anomaly_summary] *)
Definition get_anomaly_summary (self : EM.t) : Summary :=
  foldl summarise
        {| liveness_issues := []; instability_issues := [];
           value_spikes := [] |}
        (EM.recent_events self).

(** The event managers a program can reach: built by [__init__], then
    driven by [add_core_entity] and [check_and_detect_events], over
    whatever ESM holds at each pass and whatever the clock shows. *)
Inductive reachable (np_mean np_std : list Qc → Qc) : EM.t → Prop :=
| reach_init : reachable np_mean np_std EM.init
| reach_core self e :
    reachable np_mean np_std self →
    reachable np_mean np_std (EM.add_core_entity self e)
| reach_pass self esm now :
    reachable np_mean np_std self →
    reachable np_mean np_std
      (EM.check_and_detect_events np_mean np_std self esm now).

End EMView.

(** ** Relations used by the further properties *)

Module Props.

(** Two readings of one pair of a state table that differ at most in
    the probe interval. *)
Definition same_but_interval (st' st : option ESM.EntityState) : Prop :=
  match st', st with
  | Some st', Some st =>
    ESM.distribution st' = ESM.distribution st
    ∧ ESM.stability st' = ESM.stability st
    ∧ ESM.uncertainty st' = ESM.uncertainty st
    ∧ ESM.last_probe_time st' = ESM.last_probe_time st
  | None, None => True
  | _, _ => False
  end.

Definition adjustment_key (a : CTLC.Adjustment) : string * string :=
  (CTLC.entity_id a, CTLC.metric a).

(** An entry of the list a sweep returns tells the truth about the
    sweep from [esm] to [esm']. *)
Definition reported (self : CTLC.t) (esm esm' : ESM.t)
  (a : CTLC.Adjustment) : Prop :=
  ∃ st st',
    ESM.state_table esm !! adjustment_key a = Some st
    ∧ CTLC.old_interval a = ESM.probe_interval st
    ∧ CTLC.adj_stability a = ESM.get_stability st
    ∧ CTLC.adjust_probe_interval self (ESM.probe_interval st)
                                 (ESM.get_stability st)
      = Some (CTLC.new_interval a)
    ∧ CTLC.new_interval a ≠ CTLC.old_interval a
    ∧ ESM.state_table esm' !! adjustment_key a = Some st'
    ∧ ESM.probe_interval st' = CTLC.new_interval a.

(** What every reachable scheduler satisfies. *)
Definition well_formed (self : APS.t) : Prop :=
  CMAB.strategies (APS.cmab self) = Config.strategies
  ∧ (∀ arm, arm ∈ Config.strategies →
       is_Some (CMAB.mu (APS.cmab self) !! arm)
       ∧ is_Some (CMAB.Sigma (APS.cmab self) !! arm)
       ∧ is_Some (CMAB.Sigma_inv (APS.cmab self) !! arm))
  ∧ (∀ arm, CMAB.selected_strategy (APS.cmab self) = Some arm →
            arm ∈ Config.strategies)
  ∧ APS.ctlc self = CTLC.init Config.kp Config.target_stability
  ∧ APS.prio self = PRIO.init None
  ∧ APS.total_rounds (APS.stats self)
    = length (APS.strategy_history (APS.stats self))
  ∧ APS.strategy_history (APS.stats self)
    = CMAB.strategy <$> CMAB.history (APS.cmab self)
  ∧ Forall (λ s, s ∈ Config.strategies)
           (APS.strategy_history (APS.stats self)).

(** [sum(d.values())] of a counter. *)
Definition sum_counts (m : gmap string nat) : nat :=
  map_fold (λ _ v acc, (v + acc)%nat) 0%nat m.

(** The number of events of a list whose attribute [f] is [v]. *)
Definition count_by (f : EM.Event → string) (v : string)
  (l : list EM.Event) : nat :=
  length (filter (λ ev, f ev = v) l).

(** The event types [_detect_anomalies] builds. *)
Definition event_types : list string :=
  ["liveness_low"; "high_instability"; "rtt_spike"].

(** What the counters and the deque of [self] hold after the events
    [fired] have been added to those of [self0]. *)
Definition accounted (self0 self : EM.t) (fired : list EM.Event) : Prop :=
  EM.total_events (EM.stats self)
  = (EM.total_events (EM.stats self0) + length fired)%nat
  ∧ (∀ v, default 0%nat (EM.events_by_type (EM.stats self) !! v)
          = (default 0%nat (EM.events_by_type (EM.stats self0) !! v)
             + count_by EM.event_type v fired)%nat)
  ∧ (∀ v, default 0%nat (EM.events_by_entity (EM.stats self) !! v)
          = (default 0%nat (EM.events_by_entity (EM.stats self0) !! v)
             + count_by EM.entity_id v fired)%nat)
  ∧ (∀ v, default 0%nat (EM.events_by_metric (EM.stats self) !! v)
          = (default 0%nat (EM.events_by_metric (EM.stats self0) !! v)
             + count_by EM.metric v fired)%nat)
  ∧ EM.events self
    = foldl (EM.deque_append EM.events_maxlen) (EM.events self0) fired.

(** What every reachable event manager satisfies. *)
Definition em_consistent (self : EM.t) : Prop :=
  EM.total_events (EM.stats self)
  = sum_counts (EM.events_by_type (EM.stats self))
  ∧ EM.total_events (EM.stats self)
    = sum_counts (EM.events_by_entity (EM.stats self))
  ∧ EM.total_events (EM.stats self)
    = sum_counts (EM.events_by_metric (EM.stats self))
  ∧ length (EM.events self)
    = (EM.total_events (EM.stats self) `min` EM.events_maxlen)%nat
  ∧ (∀ k h, EM.measurement_history self !! k = Some h →
            (1 ≤ length h ≤ EM.history_maxlen)%nat)
  ∧ (∀ k v, EM.event_triggers self !! k = Some v → v = 1)
  ∧ Forall (λ ev, EM.event_type ev ∈ event_types
                  ∧ Num.frac 1 5 < EM.severity ev)
           (EM.events self ++ EM.recent_events self).

End Props.

(** ** Runs used to exercise the properties *)

Module Runs.

(** The event manager after one pass, at time 5, over a link whose
    liveness confidence is 1/10. *)
Definition em_down : EM.t :=
  EM.check_and_detect_events Scenario.no_statistic Scenario.no_statistic
    EM.init Scenario.esm_down (Num.frac 5 1).

End Runs.
(** * Properties *)

(** ** Arithmetic on [Qc] through [lra] on [Q] *)

Ltac qc_cases :=
  unfold Num.py_max, Num.py_min, Num.abs, Spec.clamp in *;
  unfold Num.ltb, Num.eqb in *;
  repeat case_bool_decide.

Ltac qc_lra :=
  unfold Spec.in_range in *;
  unfold Config.probe_interval_min, Config.probe_interval_max,
    Config.max_stability, Config.max_uncertainty, Config.kp,
    Config.target_stability, Num.frac in *;
  unfold Qclt, Qcle in *;
  repeat match goal with
  | H : @eq Qc ?a ?b |- _ =>
      assert (this a == this b)%Q by (by rewrite H); clear H
  | H : ¬ @eq Qc ?a ?b |- _ =>
      assert (¬ (this a == this b)%Q)
        by (intros ?; apply H; by apply Qc_is_canon);
      clear H
  | |- @eq Qc _ _ => apply Qc_is_canon
  end;
  simpl in *;
  repeat match goal with
  | H : context [Qred _] |- _ => rewrite Qred_correct in H
  end;
  rewrite ?Qred_correct;
  lra.

Lemma py_clamp_spec (lo hi x : Qc) :
  lo ≤ hi → Num.py_max lo (Num.py_min hi x) = Spec.clamp x lo hi.
Proof. intros Hle. qc_cases; try reflexivity; qc_lra. Qed.

Lemma py_clamp_in_range (x : Qc) :
  Spec.in_range
    (Num.py_max Config.probe_interval_min
                (Num.py_min Config.probe_interval_max x)).
Proof. unfold Spec.in_range. split; qc_cases; qc_lra. Qed.

(** ** CTLC *)

Section CTLCSweep.

Variable c : CTLC.t.
Hypothesis c_target : CTLC.target_stability c ≠ 0.
Hypothesis c_min : CTLC.min_interval c = Config.probe_interval_min.
Hypothesis c_max : CTLC.max_interval c = Config.probe_interval_max.

Lemma adjust_returns (T S : Qc) :
  ∃ T', CTLC.adjust_probe_interval c T S = Some T' ∧ Spec.in_range T'.
Proof.
  unfold CTLC.adjust_probe_interval, Num.eqb.
  rewrite bool_decide_eq_false_2 by done.
  eexists; split; [reflexivity|].
  rewrite c_min, c_max. apply py_clamp_in_range.
Qed.

Lemma set_probe_interval_lookup esm e m T st :
  ESM.state_table esm !! (e, m) = Some st →
  ∃ st', ESM.state_table (ESM.set_probe_interval esm e m T) !! (e, m)
           = Some st'
         ∧ Spec.in_range (ESM.probe_interval st').
Proof.
  intros Hst. unfold ESM.set_probe_interval, ESM.get_state. rewrite Hst.
  simpl. rewrite lookup_insert_eq. eexists; split; [reflexivity|].
  simpl. apply py_clamp_in_range.
Qed.

Lemma set_probe_interval_other esm e m T k :
  k ≠ (e, m) →
  ESM.state_table (ESM.set_probe_interval esm e m T) !! k
  = ESM.state_table esm !! k.
Proof.
  intros Hk. unfold ESM.set_probe_interval.
  destruct (ESM.get_state esm e m); [|done].
  simpl. by rewrite lookup_insert_ne.
Qed.

Lemma sweep_items (l : list (string * string * ESM.EntityState)) :
  ∀ esm adjs,
    NoDup l.*1 →
    (∀ k st, (k, st) ∈ l → ESM.state_table esm !! k = Some st) →
    Forall Spec.adjustment_ok adjs →
    ∃ adjs' esm',
      foldl (CTLC.adjust_item c) (Returned adjs esm) l
      = Returned adjs' esm'
      ∧ Forall Spec.adjustment_ok adjs'
      ∧ (∀ k, k ∈ l.*1 →
           ∃ st, ESM.state_table esm' !! k = Some st
                 ∧ Spec.in_range (ESM.probe_interval st))
      ∧ (∀ k, k ∉ l.*1 →
           ESM.state_table esm' !! k = ESM.state_table esm !! k).
Proof.
  induction l as [|[[e m] st] l IH]; intros esm adjs Hnd Hl Hadjs.
  - exists adjs, esm. simpl. split_and!; [done|done| |done].
    intros k Hk. by apply elem_of_nil in Hk.
  - simpl in Hnd. apply NoDup_cons in Hnd as [Hfresh Hnd].
    assert (Hst : ESM.state_table esm !! (e, m) = Some st)
      by (apply Hl; left).
    destruct (adjust_returns (ESM.probe_interval st) (ESM.get_stability st))
      as (T' & HT' & Hin).
    cbn [foldl CTLC.adjust_item]. rewrite HT'.
    destruct (Num.eqb T' (ESM.probe_interval st)) eqn:Heq; simpl.
    + (* the interval does not change: nothing is stored *)
      apply bool_decide_eq_true_1 in Heq.
      destruct (IH esm adjs Hnd) as (adjs' & esm' & Hrun & Ha & Hk & Hnk).
      { intros k st' Hel. apply Hl. by right. }
      { done. }
      exists adjs', esm'. split_and!; [done|done| |].
      * intros k [->|Hel]%elem_of_cons; [|by apply Hk].
        exists st. rewrite Hnk by done. split; [done|]. by rewrite <- Heq.
      * intros k Hk'. apply Hnk. intros Hel. apply Hk'. by right.
    + destruct (IH (ESM.set_probe_interval esm e m T')
                   (adjs ++ [ {| CTLC.entity_id := e; CTLC.metric := m;
                                 CTLC.old_interval := ESM.probe_interval st;
                                 CTLC.new_interval := T';
                                 CTLC.adj_stability := ESM.get_stability st |} ])
                   Hnd)
        as (adjs' & esm' & Hrun & Ha & Hk & Hnk).
      { intros k st' Hel. rewrite set_probe_interval_other.
        - apply Hl. by right.
        - intros ->. apply Hfresh. apply list_elem_of_fmap.
          by exists ((e, m), st'). }
      { apply Forall_app. split; [done|]. by constructor. }
      exists adjs', esm'. split_and!; [done|done| |].
      * intros k [->|Hel]%elem_of_cons; [|by apply Hk].
        rewrite Hnk by done. by eapply set_probe_interval_lookup.
      * intros k Hk'. rewrite Hnk.
        -- apply set_probe_interval_other. intros ->. apply Hk'. by left.
        -- intros Hel. apply Hk'. by right.
Qed.

Lemma sweep_in_range (esm : ESM.t) :
  ∃ adjs esm',
    CTLC.batch_adjust c esm = Returned adjs esm'
    ∧ Forall Spec.adjustment_ok adjs
    ∧ ∀ k st, ESM.state_table esm' !! k = Some st →
              Spec.in_range (ESM.probe_interval st).
Proof.
  destruct (sweep_items (map_to_list (ESM.state_table esm)) esm [])
    as (adjs & esm' & Hrun & Ha & Hk & Hnk).
  - apply NoDup_fst_map_to_list.
  - intros k st Hel. by apply elem_of_map_to_list.
  - constructor.
  - exists adjs, esm'. split_and!; [done|done|].
    intros k st Hst.
    destruct (decide (k ∈ (map_to_list (ESM.state_table esm)).*1)) as [Hel|Hel].
    + destruct (Hk k Hel) as (st' & Hst' & Hin). congruence.
    + rewrite Hnk in Hst by done. exfalso. apply Hel.
      apply list_elem_of_fmap. exists (k, st). split; [done|].
      by apply elem_of_map_to_list.
Qed.

End CTLCSweep.

(** C6.  With the configured gains ([Kp = 0.1], [S_target = 1.0],
    [T_min = 1], [T_max = 60]) [CTLC.adjust_probe_interval] returns
    [clamp(T_old * (1 + Kp * (1 - S / S_target)), T_min, T_max)] for
    every interval and stability; a sweep ([CTLC.batch_adjust]) returns,
    every interval it reports as adjusted and every interval held by the
    state table after it lies in [[T_min, T_max]]. *)
Theorem ctlc_adjust_is_clamped_proportional (T_old S : Qc) (esm : ESM.t) :
  let ctlc := CTLC.init Config.kp Config.target_stability in
  CTLC.adjust_probe_interval ctlc T_old S
  = Some (Spec.clamp
            (T_old * (1 + Num.frac 1 10 * (1 - S / Num.frac 1 1)))
            (Num.frac 1 1) (Num.frac 60 1))
  ∧ ∃ adjustments esm',
      CTLC.batch_adjust ctlc esm = Returned adjustments esm'
      ∧ Forall (λ a, Num.frac 1 1 ≤ CTLC.new_interval a
                     ∧ CTLC.new_interval a ≤ Num.frac 60 1) adjustments
      ∧ ∀ k st, ESM.state_table esm' !! k = Some st →
                Num.frac 1 1 ≤ ESM.probe_interval st
                ∧ ESM.probe_interval st ≤ Num.frac 60 1.
Proof.
  intros ctlc. split.
  - unfold CTLC.adjust_probe_interval.
    replace (Num.eqb (CTLC.target_stability ctlc) 0) with false
      by (symmetry; by apply bool_decide_eq_false_2).
    f_equal. apply py_clamp_spec. by vm_compute.
  - apply (sweep_in_range ctlc); [by vm_compute|done|done].
Qed.

(** ** CMAB *)

Lemma with_Sigma_inv_frame (self : CMAB.t) (a arm : string) (m : Linalg.Matrix) :
  a ≠ arm →
  let self' := CMAB.with_Sigma_inv self (<[a := m]> (CMAB.Sigma_inv self)) in
  CMAB.mu self' !! arm = CMAB.mu self !! arm
  ∧ CMAB.Sigma self' !! arm = CMAB.Sigma self !! arm
  ∧ CMAB.Sigma_inv self' !! arm = CMAB.Sigma_inv self !! arm.
Proof. intros Hne. simpl. by rewrite lookup_insert_ne. Qed.

Lemma with_Sigma_frame (self : CMAB.t) (a arm : string) (m : Linalg.Matrix) :
  a ≠ arm →
  let self' := CMAB.with_Sigma self (<[a := m]> (CMAB.Sigma self)) in
  CMAB.mu self' !! arm = CMAB.mu self !! arm
  ∧ CMAB.Sigma self' !! arm = CMAB.Sigma self !! arm
  ∧ CMAB.Sigma_inv self' !! arm = CMAB.Sigma_inv self !! arm.
Proof. intros Hne. simpl. by rewrite lookup_insert_ne. Qed.

Lemma with_mu_frame (self : CMAB.t) (a arm : string) (v : Linalg.Vec) :
  a ≠ arm →
  let self' := CMAB.with_mu self (<[a := v]> (CMAB.mu self)) in
  CMAB.mu self' !! arm = CMAB.mu self !! arm
  ∧ CMAB.Sigma self' !! arm = CMAB.Sigma self !! arm
  ∧ CMAB.Sigma_inv self' !! arm = CMAB.Sigma_inv self !! arm.
Proof. intros Hne. simpl. by rewrite lookup_insert_ne. Qed.

Lemma cmab_update_arm_frame (self : CMAB.t) (context : Linalg.Vec)
  (reward noise_var : Qc) (arm : string) :
  CMAB.selected_strategy self ≠ Some arm →
  let self' := state_after (CMAB.update self context reward noise_var) in
  CMAB.mu self' !! arm = CMAB.mu self !! arm
  ∧ CMAB.Sigma self' !! arm = CMAB.Sigma self !! arm
  ∧ CMAB.Sigma_inv self' !! arm = CMAB.Sigma_inv self !! arm.
Proof.
  intros Hsel. unfold CMAB.update.
  destruct (CMAB.selected_strategy self) as [a|] eqn:Ha; [|done].
  assert (Hne : a ≠ arm) by congruence.
  destruct (CMAB.Sigma_inv self !! a) as [precision|]; [|done].
  destruct (Num.eqb noise_var 0); [done|].
  set (self1 := CMAB.with_Sigma_inv self _).
  destruct (with_Sigma_inv_frame self a arm
              (Linalg.madd precision
                 (Linalg.mscale (1 / noise_var) (Linalg.outer context context)))
              Hne) as (Hm1 & Hs1 & Hp1).
  fold self1 in Hm1, Hs1, Hp1.
  destruct (CMAB.Sigma_inv self1 !! a ≫= Linalg.inv) as [covariance|];
    [|cbn [state_after]; by split_and!].
  set (self2 := CMAB.with_Sigma self1 _).
  destruct (with_Sigma_frame self1 a arm covariance Hne) as (Hm2 & Hs2 & Hp2).
  fold self2 in Hm2, Hs2, Hp2.
  assert (Hm : CMAB.mu self2 !! arm = CMAB.mu self !! arm) by congruence.
  assert (Hs : CMAB.Sigma self2 !! arm = CMAB.Sigma self !! arm)
    by congruence.
  assert (Hp : CMAB.Sigma_inv self2 !! arm = CMAB.Sigma_inv self !! arm)
    by congruence.
  destruct (CMAB.Sigma self2 !! a) as [cov|]; [|done].
  destruct (CMAB.Sigma_inv self2 !! a) as [prec|]; [|done].
  destruct (CMAB.mu self2 !! a) as [mean|]; [|done].
  cbn [state_after].
  match goal with
  | |- context [CMAB.with_mu self2 (<[a := ?v]> _)] =>
      destruct (with_mu_frame self2 a arm v Hne) as (Hm3 & Hs3 & Hp3)
  end.
  split_and!; congruence.
Qed.

Lemma cmab_update_rest (self : CMAB.t) (context : Linalg.Vec)
  (reward noise_var : Qc) :
  let self' := state_after (CMAB.update self context reward noise_var) in
  CMAB.history self' = CMAB.history self
  ∧ CMAB.selected_strategy self' = CMAB.selected_strategy self
  ∧ CMAB.strategies self' = CMAB.strategies self
  ∧ CMAB.n_features self' = CMAB.n_features self
  ∧ CMAB.n_arms self' = CMAB.n_arms self.
Proof.
  unfold CMAB.update.
  repeat (case_match; try done).
Qed.

(** C8.  [CMAB.update] changes nothing but the mean, the covariance
    and the precision of the selected arm: the history, the selected
    strategy and the list of arms stay, and the mean, covariance and
    precision of every other arm are as they were, whether the call
    returns or raises. *)
Theorem cmab_update_frame (self : CMAB.t) (context : Linalg.Vec)
  (reward noise_var : Qc) :
  let self' := state_after (CMAB.update self context reward noise_var) in
  (CMAB.history self' = CMAB.history self
   ∧ CMAB.selected_strategy self' = CMAB.selected_strategy self
   ∧ CMAB.strategies self' = CMAB.strategies self
   ∧ CMAB.n_features self' = CMAB.n_features self
   ∧ CMAB.n_arms self' = CMAB.n_arms self)
  ∧ ∀ arm,
      CMAB.selected_strategy self ≠ Some arm →
      CMAB.mu self' !! arm = CMAB.mu self !! arm
      ∧ CMAB.Sigma self' !! arm = CMAB.Sigma self !! arm
      ∧ CMAB.Sigma_inv self' !! arm = CMAB.Sigma_inv self !! arm.
Proof.
  intros self'. split.
  - apply cmab_update_rest.
  - intros arm Hsel. by apply cmab_update_arm_frame.
Qed.

Lemma cmab_update_frame_witness :
  let self := Scenario.selected in
  CMAB.selected_strategy self = Some Config.FOCUS_UNCERTAINTY
  ∧ CMAB.mu (state_after (CMAB.update self Scenario.c 1 1))
      !! Config.EVENT_TRIGGER
    = CMAB.mu self !! Config.EVENT_TRIGGER.
Proof.
  intros self. split; [vm_compute; reflexivity|].
  apply (cmab_update_frame self Scenario.c 1 1).
  vm_compute. discriminate.
Defined.

(** C9.  While no arm has been selected ([selected_strategy] is
    [None], as it is from [CMAB.__init__] until the first
    [select_strategy]), [CMAB.update] returns at once and changes
    nothing: the object, and with it the mean, covariance and precision
    of every arm, is the same after the call, whatever the context, the
    reward and the noise variance. *)
Theorem cmab_update_without_selection (self : CMAB.t) (context : Linalg.Vec)
  (reward noise_var : Qc) :
  CMAB.selected_strategy self = None →
  CMAB.update self context reward noise_var = Returned tt self
  ∧ ∀ arm,
      let self' := state_after (CMAB.update self context reward noise_var) in
      CMAB.mu self' !! arm = CMAB.mu self !! arm
      ∧ CMAB.Sigma self' !! arm = CMAB.Sigma self !! arm
      ∧ CMAB.Sigma_inv self' !! arm = CMAB.Sigma_inv self !! arm.
Proof.
  intros Hnone. unfold CMAB.update. rewrite Hnone. by split.
Qed.

Lemma cmab_update_without_selection_witness :
  CMAB.update (CMAB.init 4 4) [1; 0; 0; 0] 1 0
  = Returned tt (CMAB.init 4 4).
Proof.
  apply (cmab_update_without_selection (CMAB.init 4 4) [1; 0; 0; 0] 1 0).
  reflexivity.
Defined.

(** What [CMAB.update] does to the selected arm when nothing raises:
    the precision gains [(1/nu) c c^T], the covariance is the inverse
    of the new precision, and the mean is the covariance applied to
    the NEW precision times the old mean, plus [(1/nu) c r]. *)
Lemma cmab_update_selected_arm (self : CMAB.t) (c : Linalg.Vec)
  (r nu : Qc) (arm : string) (prec_old : Linalg.Matrix)
  (mean_old : Linalg.Vec) (cov_new : Linalg.Matrix) :
  CMAB.selected_strategy self = Some arm →
  CMAB.Sigma_inv self !! arm = Some prec_old →
  CMAB.mu self !! arm = Some mean_old →
  nu ≠ 0 →
  let prec_new :=
    Linalg.madd prec_old (Linalg.mscale (1 / nu) (Linalg.outer c c)) in
  Linalg.inv prec_new = Some cov_new →
  ∃ self',
    CMAB.update self c r nu = Returned tt self'
    ∧ CMAB.Sigma_inv self' !! arm = Some prec_new
    ∧ CMAB.Sigma self' !! arm = Some cov_new
    ∧ CMAB.mu self' !! arm
      = Some (Spec.posterior_mean cov_new prec_new mean_old c r nu).
Proof.
  intros Hsel Hprec Hmean Hnu prec_new Hinv.
  unfold CMAB.update. rewrite Hsel, Hprec.
  unfold Num.eqb. rewrite bool_decide_eq_false_2 by done.
  fold prec_new.
  unfold CMAB.with_Sigma_inv, CMAB.with_Sigma, CMAB.with_mu.
  cbn [CMAB.Sigma_inv CMAB.Sigma CMAB.mu].
  rewrite !lookup_insert_eq. cbn [mbind option_bind]. rewrite Hinv.
  cbn [CMAB.Sigma_inv CMAB.Sigma CMAB.mu].
  rewrite !lookup_insert_eq, Hmean.
  eexists. split; [reflexivity|].
  cbn [CMAB.Sigma_inv CMAB.Sigma CMAB.mu].
  by rewrite !lookup_insert_eq.
Qed.

(** C1 at a second reward.  A fresh bandit selects an arm for the
    context [(1, 0, 0, 0)] and is rewarded twice with [r = 1],
    [nu = 1].  At the second update the new precision is the old one
    plus [c c^T] and the new covariance is its inverse, but the new
    mean is [(5/6, 0, 0, 0)], where the update rule
    [Sigma_new (Lambda_old mu_old + c r)] gives [(2/3, 0, 0, 0)]: the
    code multiplies [mu_old] by the precision it has just updated. *)
Theorem cmab_update_mean_uses_new_precision :
  match Scenario.two_rewards with
  | None => False
  | Some (self1, self2, arm) =>
    match CMAB.Sigma_inv self1 !! arm, CMAB.mu self1 !! arm,
          CMAB.Sigma_inv self2 !! arm, CMAB.Sigma self2 !! arm,
          CMAB.mu self2 !! arm with
    | Some prec_old, Some mean_old, Some prec_new, Some cov_new,
      Some mean_new =>
      prec_new
      = Linalg.madd prec_old
          (Linalg.mscale (1 / 1) (Linalg.outer Scenario.c Scenario.c))
      ∧ Linalg.inv prec_new = Some cov_new
      ∧ Spec.values mean_old = [1 # 2; 0; 0; 0]%Q
      ∧ Spec.values mean_new = [5 # 6; 0; 0; 0]%Q
      ∧ Spec.values
          (Spec.posterior_mean cov_new prec_old mean_old Scenario.c 1 1)
        = [2 # 3; 0; 0; 0]%Q
      ∧ mean_new
        = Spec.posterior_mean cov_new prec_new mean_old Scenario.c 1 1
      ∧ mean_new
        ≠ Spec.posterior_mean cov_new prec_old mean_old Scenario.c 1 1
    | _, _, _, _, _ => False
    end
  end.
Proof.
  vm_compute. split_and!; try reflexivity. discriminate.
Qed.

(** ** CMAB: what [select_strategy] does, case by case *)

Lemma sample_arms_Some (self : CMAB.t) (context : Linalg.Vec)
  (draw : string → Linalg.Vec) (arms : list string) :
  Forall (λ arm, is_Some (CMAB.mu self !! arm)
                 ∧ is_Some (CMAB.Sigma self !! arm)) arms →
  mapM (CMAB.sample_arm self context draw) arms
  = Some (map (λ s, ((s, draw s), (s, Linalg.dot context (draw s)))) arms).
Proof.
  intros Harms. apply mapM_Some_2.
  induction Harms as [|arm arms [[mean Hmu] [cov HSigma]] _ IH];
    constructor; [|done].
  unfold CMAB.sample_arm. rewrite Hmu. simpl. by rewrite HSigma.
Qed.

Lemma sample_arms_None (self : CMAB.t) (context : Linalg.Vec)
  (draw : string → Linalg.Vec) (arms : list string) :
  ¬ Forall (λ arm, is_Some (CMAB.mu self !! arm)
                   ∧ is_Some (CMAB.Sigma self !! arm)) arms →
  mapM (CMAB.sample_arm self context draw) arms = None.
Proof.
  intros Hmissing. apply eq_None_not_Some. intros Hsome.
  apply Hmissing. apply mapM_is_Some_1 in Hsome.
  eapply Forall_impl; [exact Hsome|].
  intros arm [x Hx]. unfold CMAB.sample_arm in Hx.
  apply bind_Some in Hx as (mean & Hmu & Hx).
  apply bind_Some in Hx as (cov & HSigma & _).
  split; by eexists.
Qed.

Lemma select_strategy_cases (self : CMAB.t) (context : Linalg.Vec)
  (draw : string → Linalg.Vec) :
  CMAB.select_strategy self context draw
  = if decide (Forall (λ arm, is_Some (CMAB.mu self !! arm)
                              ∧ is_Some (CMAB.Sigma self !! arm))
                      (CMAB.strategies self))
    then
      match CMAB.max_key
              (map (λ s, (s, Linalg.dot context (draw s)))
                   (CMAB.strategies self)) with
      | None => Raised "ValueError" self
      | Some selected =>
        Returned selected
          {| CMAB.n_features := CMAB.n_features self;
             CMAB.n_arms := CMAB.n_arms self;
             CMAB.strategies := CMAB.strategies self;
             CMAB.mu := CMAB.mu self;
             CMAB.Sigma := CMAB.Sigma self;
             CMAB.Sigma_inv := CMAB.Sigma_inv self;
             CMAB.history :=
               CMAB.history self ++
               [ {| CMAB.context := context;
                    CMAB.strategy := selected;
                    CMAB.scores :=
                      map (λ s, (s, Linalg.dot context (draw s)))
                          (CMAB.strategies self);
                    CMAB.sampled_theta :=
                      map (λ s, (s, draw s)) (CMAB.strategies self) |} ];
             CMAB.selected_strategy := Some selected |}
      end
    else Raised "KeyError" self.
Proof.
  unfold CMAB.select_strategy.
  destruct (decide _) as [Hall|Hmissing].
  - rewrite (sample_arms_Some self context draw _ Hall).
    rewrite <- !list_fmap_compose. reflexivity.
  - by rewrite sample_arms_None.
Qed.

Lemma select_strategy_frame (self : CMAB.t) (context : Linalg.Vec)
  (draw : string → Linalg.Vec) :
  let self' := state_after (CMAB.select_strategy self context draw) in
  CMAB.strategies self' = CMAB.strategies self
  ∧ CMAB.mu self' = CMAB.mu self
  ∧ CMAB.Sigma self' = CMAB.Sigma self
  ∧ CMAB.Sigma_inv self' = CMAB.Sigma_inv self.
Proof.
  rewrite select_strategy_cases.
  destruct (decide _); [|done]. by destruct (CMAB.max_key _).
Qed.

Lemma select_strategy_returned (self : CMAB.t) (context : Linalg.Vec)
  (draw : string → Linalg.Vec) (arm : string) (self' : CMAB.t) :
  CMAB.select_strategy self context draw = Returned arm self' →
  CMAB.max_key (map (λ s, (s, Linalg.dot context (draw s)))
                    (CMAB.strategies self)) = Some arm
  ∧ CMAB.selected_strategy self' = Some arm
  ∧ CMAB.history self'
    = CMAB.history self ++
      [ {| CMAB.context := context; CMAB.strategy := arm;
           CMAB.scores :=
             map (λ s, (s, Linalg.dot context (draw s)))
                 (CMAB.strategies self);
           CMAB.sampled_theta :=
             map (λ s, (s, draw s)) (CMAB.strategies self) |} ].
Proof.
  rewrite select_strategy_cases.
  destruct (decide _); [|done].
  destruct (CMAB.max_key _) as [selected|]; [|done].
  by intros [= <- <-].
Qed.

Lemma cmab_update_keeps_keys (self : CMAB.t) (c : Linalg.Vec) (r nu : Qc)
  (arm : string) :
  let self' := state_after (CMAB.update self c r nu) in
  (is_Some (CMAB.mu self !! arm) → is_Some (CMAB.mu self' !! arm))
  ∧ (is_Some (CMAB.Sigma self !! arm) → is_Some (CMAB.Sigma self' !! arm))
  ∧ (is_Some (CMAB.Sigma_inv self !! arm) →
     is_Some (CMAB.Sigma_inv self' !! arm)).
Proof.
  intros self'. unfold self'.
  destruct (decide (CMAB.selected_strategy self = Some arm)) as [Hsel|Hsel].
  - unfold CMAB.update. rewrite Hsel.
    repeat (case_match; try done); simpl;
      rewrite ?lookup_insert_eq; split_and!; by eauto.
  - destruct (cmab_update_arm_frame self c r nu arm Hsel) as (H1 & H2 & H3).
    by rewrite H1, H2, H3.
Qed.


(** ** PRIO: the sort and the slice *)

Section Ranking.

Implicit Types (x : PRIO.Scored) (l : list PRIO.Scored).

Lemma insert_desc_perm x l : PRIO.insert_desc x l ≡ₚ x :: l.
Proof.
  induction l as [|y l IH]; simpl; [done|].
  destruct (Num.ltb _ _); [|done].
  rewrite IH. apply Permutation_swap.
Qed.

Lemma sort_desc_perm l : PRIO.sort_desc l ≡ₚ l.
Proof.
  induction l as [|x l IH]; simpl; [done|].
  by rewrite insert_desc_perm, IH.
Qed.

Lemma insert_desc_sorted x l :
  StronglySorted Spec.by_priority l →
  StronglySorted Spec.by_priority (PRIO.insert_desc x l).
Proof.
  induction 1 as [|y l Hl IH Hy]; simpl.
  - repeat constructor.
  - unfold Num.ltb. case_bool_decide as Hlt.
    + constructor; [done|].
      rewrite insert_desc_perm. constructor; [|done].
      unfold Spec.by_priority. by apply Qclt_le_weak.
    + apply Qcnot_lt_le in Hlt.
      constructor; [by constructor|].
      constructor; [done|].
      eapply Forall_impl; [exact Hy|].
      intros z Hz. unfold Spec.by_priority in *. by etrans.
Qed.

Lemma sort_desc_sorted l : StronglySorted Spec.by_priority (PRIO.sort_desc l).
Proof.
  induction l as [|x l IH]; simpl; [constructor|].
  by apply insert_desc_sorted.
Qed.

(** Stability: inserting [x] puts it in front of the entries of its
    own priority. *)
Lemma insert_desc_stable p x l :
  Spec.with_priority p (PRIO.insert_desc x l)
  = Spec.with_priority p (x :: l).
Proof.
  unfold Spec.with_priority.
  induction l as [|y l IH]; simpl; [done|].
  unfold Num.ltb. case_bool_decide as Hlt; [|done].
  rewrite !filter_cons in *.
  destruct (decide (PRIO.priority y = p)) as [Hy|Hy].
  - destruct (decide (PRIO.priority x = p)) as [Hx|Hx].
    + exfalso. rewrite Hx, Hy in Hlt. by apply Qclt_not_eq in Hlt.
    + by rewrite IH.
  - by rewrite IH.
Qed.

Lemma sort_desc_stable p l :
  Spec.with_priority p (PRIO.sort_desc l) = Spec.with_priority p l.
Proof.
  induction l as [|x l IH]; simpl; [done|].
  rewrite insert_desc_stable. unfold Spec.with_priority in *.
  by rewrite !filter_cons, IH.
Qed.

Lemma slice_to_prefix {A : Type} (l : list A) (k : Z) :
  PRIO.slice_to l k `prefix_of` l.
Proof. unfold PRIO.slice_to. destruct (0 <=? k)%Z; apply prefix_take. Qed.

Lemma slice_to_length {A : Type} (l : list A) (k : Z) :
  (0 ≤ k)%Z → (length (PRIO.slice_to l k) ≤ Z.to_nat k)%nat.
Proof.
  intros Hk. unfold PRIO.slice_to.
  rewrite (proj2 (Z.leb_le 0 k)) by done. rewrite length_take. lia.
Qed.

Lemma score_task_task self esm em strategy now t s :
  PRIO.score_task self esm em strategy now t = Some s →
  PRIO.task s = t
  ∧ is_Some (ESM.get_state esm (PRIO.entity_id t) (PRIO.metric t)).
Proof.
  unfold PRIO.score_task.
  destruct (ESM.get_state esm _ _) as [state|]; [|done].
  intros [= <-]. by split.
Qed.

Lemma select_top_k_elem self pool esm em strategy k now s :
  s ∈ PRIO.select_top_k self pool esm em strategy k now →
  ∃ t, t ∈ pool ∧ PRIO.score_task self esm em strategy now t = Some s.
Proof.
  unfold PRIO.select_top_k. intros Hs.
  eapply elem_of_prefix in Hs; [|apply slice_to_prefix].
  rewrite sort_desc_perm in Hs.
  by apply list_elem_of_omap in Hs.
Qed.

End Ranking.

(** C10.  A task of the pool whose pair has no state in ESM is skipped
    by [PRIO.select_top_k]: it is the task of no returned entry, for
    every strategy, every [k] and every event manager. *)
Theorem select_top_k_skips_stateless (self : PRIO.t)
  (pool : list PRIO.Task) (esm : ESM.t) (em : option EM.t)
  (strategy : string) (k : Z) (now : Qc) (t : PRIO.Task) :
  t ∈ pool →
  ESM.get_state esm (PRIO.entity_id t) (PRIO.metric t) = None →
  t ∉ PRIO.task <$> PRIO.select_top_k self pool esm em strategy k now.
Proof.
  intros _ Hnone (s & -> & Hs)%list_elem_of_fmap.
  apply select_top_k_elem in Hs as (t & _ & Hscore).
  apply score_task_task in Hscore as [<- Hsome].
  rewrite Hnone in Hsome. by apply is_Some_None in Hsome.
Qed.

Lemma select_top_k_skips_stateless_witness :
  Scenario.task "L9"
  ∉ PRIO.task <$>
      PRIO.select_top_k (PRIO.init None)
        (Scenario.task "L9" :: Scenario.pool3) Scenario.esm3 None
        Config.COVERAGE_BALANCER 5 (Num.frac 5 1).
Proof.
  apply select_top_k_skips_stateless.
  - left.
  - vm_compute. reflexivity.
Defined.

(** What [select_top_k] returns, for every pool: at most [k] entries
    when [k] is not negative, each the score of a task of the pool, in
    an order of priorities that never increases. *)
Lemma select_top_k_bounds self pool esm em strategy k now :
  let result := PRIO.select_top_k self pool esm em strategy k now in
  ((0 ≤ k)%Z → (length result ≤ Z.to_nat k)%nat)
  ∧ (∀ s, s ∈ result → PRIO.task s ∈ pool)
  ∧ Spec.non_increasing (PRIO.priority <$> result).
Proof.
  intros result. split_and!.
  - intros Hk. by apply slice_to_length.
  - intros s Hs. apply select_top_k_elem in Hs as (t & Ht & Hscore).
    by apply score_task_task in Hscore as [-> _].
  - unfold Spec.non_increasing.
    apply (StronglySorted_fmap _ Spec.by_priority); [by intros ??|].
    destruct (slice_to_prefix
                (PRIO.sort_desc
                   (omap (PRIO.score_task self esm em strategy now) pool)) k)
      as [rest Hrest].
    eapply StronglySorted_app_1_l. unfold result, PRIO.select_top_k.
    rewrite <- Hrest. apply sort_desc_sorted.
Qed.

Lemma batch_adjust_returns (c : CTLC.t) (esm : ESM.t) :
  CTLC.target_stability c ≠ 0 →
  ∃ adjustments esm', CTLC.batch_adjust c esm = Returned adjustments esm'.
Proof.
  intros Hc. unfold CTLC.batch_adjust.
  generalize (@nil CTLC.Adjustment) as adjs.
  generalize esm at 1 as acc.
  induction (map_to_list (ESM.state_table esm)) as [|[[e m] st] l IH];
    intros acc adjs; simpl; [by eauto|].
  unfold CTLC.adjust_probe_interval, Num.eqb at 1.
  rewrite bool_decide_eq_false_2 by done.
  destruct (negb _); apply IH.
Qed.

(** C4.  [APS.select_tasks(k)] with [k ≥ 0] ([k] given, or the
    configured [top_k] when it is [None]), on a scheduler whose bandit
    has arms, each with its mean and its covariance, and whose
    controller has a non-zero target stability (as
    [ActiveProbingScheduler.__init__] builds it and every call keeps
    it), returns a selection of at most [k] entries, every one of them a task of UQ's pool (which the call
    leaves as it was), with priorities that never increase along the
    list. *)
Theorem select_tasks_top_k (get_context_vector : ESM.t → Qc → Linalg.Vec)
  (self : APS.t) (k : option Z) (now : Qc) (draw : string → Linalg.Vec) :
  (0 ≤ default Config.top_k k)%Z →
  Spec.ready self →
  ∃ selection self',
    APS.select_tasks get_context_vector self k now draw
    = Returned selection self'
    ∧ APS.uq self' = APS.uq self
    ∧ (length (APS.tasks selection) ≤ Z.to_nat (default Config.top_k k))%nat
    ∧ (∀ s, s ∈ APS.tasks selection →
            PRIO.task s ∈ APS.task_pool (APS.uq self))
    ∧ Spec.non_increasing (PRIO.priority <$> APS.tasks selection).
Proof.
  intros Hk (Harms & Hparams & Htarget). unfold APS.select_tasks.
  rewrite select_strategy_cases, decide_True by done.
  destruct (CMAB.strategies (APS.cmab self)) as [|arm arms] eqn:Hs; [done|].
  cbn [map CMAB.max_key].
  destruct (batch_adjust_returns (APS.ctlc self) (APS.esm self) Htarget)
    as (adjs & esm' & Hsweep).
  cbn [APS.with_cmab APS.ctlc APS.esm]. rewrite Hsweep.
  eexists _, _. split; [reflexivity|].
  cbn [APS.tasks APS.uq APS.with_stats APS.with_esm APS.prio APS.em APS.esm].
  split; [done|].
  match goal with
  | |- context [PRIO.select_top_k ?p ?pool ?e ?m ?s ?k' ?n] =>
      destruct (select_top_k_bounds p pool e m s k' n) as (Hlen & Hin & Hmono)
  end.
  split_and!; [by apply Hlen|exact Hin|exact Hmono].
Qed.

Lemma select_tasks_top_k_witness :
  ∃ selection self',
    APS.select_tasks Scenario.context_vector Scenario.aps3 (Some 2%Z)
                     (Num.frac 5 1) Scenario.draw0
    = Returned selection self'
    ∧ (length (APS.tasks selection) ≤ 2)%nat.
Proof.
  destruct (select_tasks_top_k Scenario.context_vector Scenario.aps3
              (Some 2%Z) (Num.frac 5 1) Scenario.draw0)
    as (selection & self' & Hrun & _ & Hlen & _).
  - simpl. lia.
  - split_and!.
    + vm_compute. discriminate.
    + repeat constructor; vm_compute; by eexists.
    + vm_compute. discriminate.
  - exists selection, self'. split; [exact Hrun|exact Hlen].
Defined.

(** C5, as the code has it.  The list [select_top_k] returns is the
    [l[:k]] slice of the ranking of the scored tasks: a permutation of
    them in which priorities never increase and in which the entries of
    one priority keep the order they have in the pool (the sort is
    stable; neither EIG nor [entity_id] is looked at). *)
Theorem select_top_k_order (self : PRIO.t) (pool : list PRIO.Task)
  (esm : ESM.t) (em : option EM.t) (strategy : string) (k : Z) (now : Qc) :
  let scored := omap (PRIO.score_task self esm em strategy now) pool in
  let result := PRIO.select_top_k self pool esm em strategy k now in
  ∃ ranking,
    ranking ≡ₚ scored
    ∧ StronglySorted Spec.by_priority ranking
    ∧ (∀ p, Spec.with_priority p ranking = Spec.with_priority p scored)
    ∧ result = PRIO.slice_to ranking k
    ∧ result `prefix_of` ranking.
Proof.
  intros scored result. exists (PRIO.sort_desc scored).
  split_and!.
  - apply sort_desc_perm.
  - apply sort_desc_sorted.
  - intros p. apply sort_desc_stable.
  - reflexivity.
  - apply slice_to_prefix.
Qed.

(** C5, as the specification words it, fails.  Three tasks of equal
    priority and equal EIG come back in the order of the pool, which is
    not the lexicographic order of their [entity_id], ascending or
    descending; and two tasks of equal priority come back in the order
    of the pool with the smaller EIG first. *)
Lemma select_top_k_ties_in_pool_order :
  let by_id :=
    PRIO.select_top_k (PRIO.init None) Scenario.pool3 Scenario.esm3 None
                      Config.COVERAGE_BALANCER 5 (Num.frac 5 1) in
  let by_eig :=
    PRIO.select_top_k (PRIO.init None) Scenario.pool_tie Scenario.esm_tie
                      None Config.COVERAGE_BALANCER 5 (Num.frac 5 1) in
  ((λ s, PRIO.entity_id (PRIO.task s)) <$> by_id = ["L2"; "L1"; "L3"]
   ∧ ¬ Spec.ranked true by_id
   ∧ ¬ Spec.ranked false by_id)
  ∧ ((λ s, (this (PRIO.priority s), this (PRIO.eig (PRIO.task s))))
       <$> by_eig
     = [((1 # 2)%Q, 0%Q); ((1 # 2)%Q, (3 # 4)%Q)]
     ∧ ¬ Spec.ranked true by_eig
     ∧ ¬ Spec.ranked false by_eig).
Proof.
  intros by_id by_eig. split_and!.
  - vm_compute. reflexivity.
  - apply (bool_decide_eq_false_1 (Spec.ranked true by_id)).
    vm_compute. reflexivity.
  - apply (bool_decide_eq_false_1 (Spec.ranked false by_id)).
    vm_compute. reflexivity.
  - vm_compute. reflexivity.
  - apply (bool_decide_eq_false_1 (Spec.ranked true by_eig)).
    vm_compute. reflexivity.
  - apply (bool_decide_eq_false_1 (Spec.ranked false by_eig)).
    vm_compute. reflexivity.
Qed.



(** ** The reward loop *)

Lemma select_strategy_records (self : CMAB.t) (context : Linalg.Vec)
  (draw : string → Linalg.Vec) (self' : CMAB.t) (arm : string) :
  CMAB.select_strategy self context draw = Returned arm self' →
  CMAB.selected_strategy self' = Some arm
  ∧ ∃ record,
      last (CMAB.history self') = Some record
      ∧ CMAB.context record = context
      ∧ CMAB.strategy record = arm.
Proof.
  intros (_ & Hsel & Hhistory)%select_strategy_returned.
  split; [done|]. rewrite Hhistory.
  eexists. rewrite last_snoc. by split_and!.
Qed.

(** C2, as the code has it.  A round selects tasks at time [now1] and
    is rewarded at time [now2], when ESM has become [esm2].  The
    selection records the context vector read at [now1].  The reward
    update does not use that record: it reads the context vector of
    ESM again, as it is at [now2], and passes that one to
    [CMAB.update].  The two agree when ESM's context vector has not
    moved. *)
Theorem update_reward_reads_context_again
  (get_context_vector : ESM.t → Qc → Linalg.Vec) (self : APS.t)
  (k : option Z) (now1 : Qc) (draw : string → Linalg.Vec)
  (selection : APS.Selection) (self1 : APS.t) (esm2 : ESM.t)
  (reward now2 : Qc) :
  APS.select_tasks get_context_vector self k now1 draw
  = Returned selection self1 →
  let self2 := APS.with_esm self1 esm2 in
  (∃ record,
     last (CMAB.history (APS.cmab self2)) = Some record
     ∧ CMAB.context record = get_context_vector (APS.esm self) now1
     ∧ CMAB.context record = APS.context selection
     ∧ CMAB.strategy record = APS.strategy selection
     ∧ CMAB.selected_strategy (APS.cmab self2)
       = Some (APS.strategy selection))
  ∧ APS.cmab
      (state_after (APS.update_reward get_context_vector self2 reward now2))
    = state_after
        (CMAB.update (APS.cmab self2) (get_context_vector esm2 now2)
                     reward 1).
Proof.
  intros Hsel self2. split.
  - unfold APS.select_tasks in Hsel.
    destruct (CMAB.select_strategy _ _ _) as [arm cmab'|] eqn:Harm;
      [|done].
    apply select_strategy_records in Harm as (Hsel' & record & Hlast & Hc & Hs).
    destruct (CTLC.batch_adjust _ _) as [adjs esm'|]; [|done].
    injection Hsel as <- <-. simpl.
    exists record. by split_and!.
  - unfold APS.update_reward. cbn [self2 APS.with_esm APS.esm APS.cmab].
    by destruct (CMAB.update _ _ _ _).
Qed.

Lemma update_reward_reads_context_again_witness :
  ∃ selection self1,
    APS.select_tasks Scenario.context_vector Scenario.aps1 (Some 5%Z)
                     (Num.frac 5 1) Scenario.draw0
    = Returned selection self1
    ∧ APS.cmab
        (state_after
           (APS.update_reward Scenario.context_vector
              (APS.with_esm self1 (Scenario.esm1 1)) 1 (Num.frac 6 1)))
      = state_after
          (CMAB.update (APS.cmab self1)
             (Scenario.context_vector (Scenario.esm1 1) (Num.frac 6 1))
             1 1).
Proof.
  destruct (APS.select_tasks Scenario.context_vector Scenario.aps1
              (Some 5%Z) (Num.frac 5 1) Scenario.draw0)
    as [selection self1|] eqn:Hrun; [|by vm_compute in Hrun].
  exists selection, self1. split; [reflexivity|].
  apply (update_reward_reads_context_again Scenario.context_vector
           Scenario.aps1 (Some 5%Z) (Num.frac 5 1) Scenario.draw0
           selection self1 (Scenario.esm1 1) 1 (Num.frac 6 1) Hrun).
Defined.

(** C2, as the specification words it, fails.  One link, probed every
    10 s and last probed at time 0.  The round selects at time 5 and
    records the context [(1/2, 0, 1/2, 0)]; the CTLC sweep of the same
    call stretches the interval to 11 s.  At time 6 the reward update
    passes [(1/2, 0, 6/11, 0)], and the bandit it leaves differs from
    the one an update with the recorded context leaves. *)
Lemma update_reward_context_differs :
  match APS.select_tasks Scenario.context_vector Scenario.aps1 (Some 5%Z)
                         (Num.frac 5 1) Scenario.draw0 with
  | Raised _ _ => False
  | Returned selection self1 =>
    match last (CMAB.history (APS.cmab self1)) with
    | None => False
    | Some record =>
      let recorded := CMAB.context record in
      let passed := Scenario.context_vector (APS.esm self1) (Num.frac 6 1) in
      let by_code :=
        APS.cmab
          (state_after
             (APS.update_reward Scenario.context_vector self1 1
                                (Num.frac 6 1))) in
      let by_claim :=
        state_after (CMAB.update (APS.cmab self1) recorded 1 1) in
      Spec.values recorded = [1 # 2; 0; 1 # 2; 0]%Q
      ∧ Spec.values passed = [1 # 2; 0; 6 # 11; 0]%Q
      ∧ passed ≠ recorded
      ∧ CMAB.mu by_code !! APS.strategy selection
        ≠ CMAB.mu by_claim !! APS.strategy selection
    end
  end.
Proof.
  vm_compute. split_and!; [reflexivity|reflexivity| |]; discriminate.
Qed.

(** ** Schedulers the program builds *)

Lemma init_ready (esm : ESM.t) (uq : APS.UQ) (em : option EM.t) :
  Spec.ready (APS.init esm uq em).
Proof.
  split_and!; [by vm_compute| |by vm_compute].
  repeat constructor; vm_compute; by eexists.
Qed.

Lemma select_tasks_ready (get_context_vector : ESM.t → Qc → Linalg.Vec)
  (self : APS.t) (k : option Z) (now : Qc) (draw : string → Linalg.Vec) :
  Spec.ready self →
  Spec.ready
    (state_after (APS.select_tasks get_context_vector self k now draw)).
Proof.
  intros Hready. unfold APS.select_tasks.
  destruct (select_strategy_frame (APS.cmab self)
              (get_context_vector (APS.esm self) now) draw)
    as (Hs & Hmu & HSigma & _).
  destruct (CMAB.select_strategy _ _ _) as [arm cmab'|exn cmab'];
    [destruct (CTLC.batch_adjust _ _)|];
    unfold Spec.ready in *; simpl in *; by rewrite Hs, Hmu, HSigma.
Qed.

Lemma update_reward_ready (get_context_vector : ESM.t → Qc → Linalg.Vec)
  (self : APS.t) (reward now : Qc) :
  Spec.ready self →
  Spec.ready
    (state_after (APS.update_reward get_context_vector self reward now)).
Proof.
  intros (Harms & Hparams & Htarget). unfold APS.update_reward.
  destruct (cmab_update_rest (APS.cmab self)
              (get_context_vector (APS.esm self) now) reward 1)
    as (_ & _ & Hs & _).
  assert (Hkeys := cmab_update_keeps_keys (APS.cmab self)
                     (get_context_vector (APS.esm self) now) reward 1).
  destruct (CMAB.update _ _ _ _); unfold Spec.ready; simpl in *;
    rewrite Hs; (split_and!; [done| |done]);
    (eapply Forall_impl; [exact Hparams|]);
    intros arm [Hmu HSigma]; destruct (Hkeys arm) as (? & ? & _); auto.
Qed.

(** ** EM: the triggers of a detection pass *)

Section Triggers.

Variables np_mean np_std : list Qc → Qc.

Lemma detect_anomalies_frame self e m state now :
  let r := EM._detect_anomalies np_mean np_std self e m state now in
  EM.recent_events r.1 = EM.recent_events self
  ∧ EM.event_triggers r.1 = EM.event_triggers self
  ∧ EM.core_entities r.1 = EM.core_entities self
  ∧ Forall (λ ev, EM.entity_id ev = e ∧ EM.metric ev = m) r.2.
Proof.
  unfold EM._detect_anomalies.
  repeat (case_decide || case_match); simpl;
    split_and!; try done; by repeat constructor.
Qed.

Lemma fired_on_snoc fired ev e m :
  Spec.fired_on (fired ++ [ev]) e m
  ↔ Spec.fired_on fired e m ∨ (EM.entity_id ev = e ∧ EM.metric ev = m).
Proof.
  unfold Spec.fired_on. split.
  - intros (ev' & [Hin | ->%list_elem_of_singleton]%elem_of_app & He & Hm).
    + left. eauto.
    + by right.
  - intros [(ev' & Hin & He & Hm) | [He Hm]].
    + exists ev'. split; [apply elem_of_app; by left|done].
    + exists ev. split; [apply elem_of_app; right; by left|done].
Qed.

Lemma on_event_recent e m self ev :
  EM.recent_events (EM.on_event e m self ev) = EM.recent_events self ++ [ev].
Proof. unfold EM.on_event. by case_decide. Qed.

Lemma on_event_core e m self ev :
  EM.core_entities (EM.on_event e m self ev) = EM.core_entities self.
Proof. unfold EM.on_event. by case_decide. Qed.

Lemma on_event_triggers e m self ev :
  EM.event_triggers (EM.on_event e m self ev)
  = if decide (e ∈ EM.core_entities self ∧ m = Config.RTT) then
      <[(e, Config.BANDWIDTH) := 1]>
        (<[(e, Config.PLR) := 1]>
           (<[(e, m) := 1]> (EM.event_triggers self)))
    else <[(e, m) := 1]> (EM.event_triggers self).
Proof. unfold EM.on_event. simpl. by case_decide. Qed.

Lemma on_event_inv base core fired self ev :
  Spec.pass_inv base core fired self →
  Spec.pass_inv base core (fired ++ [ev])
    (EM.on_event (EM.entity_id ev) (EM.metric ev) self ev).
Proof.
  intros (Hrecent & Hcore & Hone & Hraised).
  unfold Spec.pass_inv.
  rewrite on_event_recent, on_event_core, on_event_triggers, Hcore.
  set (e := EM.entity_id ev). set (m := EM.metric ev).
  split_and!.
  - by rewrite Hrecent, (assoc_L (++)).
  - done.
  - intros k v.
    destruct (decide _); rewrite !lookup_insert_Some;
      intuition (eauto; congruence).
  - intros e' m'.
    unfold Spec.raised. rewrite !fired_on_snoc. fold e m.
    specialize (Hraised e' m'). unfold Spec.raised in Hraised.
    destruct (decide _) as [[He Hm]|Hesc];
      rewrite !lookup_insert_is_Some', Hraised.
    + split.
      * intros [[= <- <-]|[[= <- <-]|[[= <- <-]|H]]]; tauto.
      * intros [[H|[<- <-]]|(Hc & [H|[<- _]] & Hm')].
        -- tauto.
        -- tauto.
        -- tauto.
        -- destruct Hm' as [-> | ->]; tauto.
    + split.
      * intros [[= <- <-]|H]; tauto.
      * intros [[H|[<- <-]]|(Hc & [H|[<- Hm]] & Hm')]; tauto.
Qed.

Lemma on_events_inv base core e m events :
  Forall (λ ev, EM.entity_id ev = e ∧ EM.metric ev = m) events →
  ∀ fired self,
    Spec.pass_inv base core fired self →
    Spec.pass_inv base core (fired ++ events)
                  (foldl (EM.on_event e m) self events).
Proof.
  induction 1 as [|ev events [<- <-] _ IH]; intros fired self Hinv; simpl.
  - by rewrite (right_id_L [] (++)).
  - rewrite (cons_middle ev), (assoc_L (++)).
    apply IH. by apply on_event_inv.
Qed.

Lemma on_state_inv base core now fired self item :
  Spec.pass_inv base core fired self →
  ∃ events,
    Spec.pass_inv base core (fired ++ events)
                  (EM.on_state np_mean np_std now self item).
Proof.
  intros (Hrecent & Hcore & Hone & Hraised).
  destruct item as [[e m] state]. unfold EM.on_state.
  destruct (detect_anomalies_frame self e m state now)
    as (Hr & Ht & Hc & Hev).
  destruct (EM._detect_anomalies np_mean np_std self e m state now)
    as [self' events].
  simpl in Hr, Ht, Hc, Hev.
  exists events. apply on_events_inv; [done|].
  unfold Spec.pass_inv. by rewrite Hr, Ht, Hc.
Qed.

Lemma on_states_inv base core now items :
  ∀ fired self,
    Spec.pass_inv base core fired self →
    ∃ events,
      Spec.pass_inv base core (fired ++ events)
                    (foldl (EM.on_state np_mean np_std now) self items).
Proof.
  induction items as [|item items IH]; intros fired self Hinv; simpl.
  - exists []. by rewrite (right_id_L [] (++)).
  - destruct (on_state_inv base core now fired self item Hinv)
      as (events & Hinv').
    destruct (IH _ _ Hinv') as (events' & Hinv'').
    exists (events ++ events'). by rewrite (assoc_L (++)).
Qed.

Lemma pass_inv_start self now :
  Spec.pass_inv (EM.recent_events (EM._clean_recent_events self now))
    (EM.core_entities self) []
    (EM.with_event_triggers (EM._clean_recent_events self now) ∅).
Proof.
  unfold Spec.pass_inv. simpl. split_and!.
  - by rewrite (right_id_L [] (++)).
  - done.
  - intros k v. by rewrite lookup_empty.
  - intros e m. rewrite lookup_empty. split.
    + by intros ?%is_Some_None.
    + intros [(ev & Hin & _) | (_ & (ev & Hin & _) & _)];
        by apply elem_of_nil in Hin.
Qed.

Lemma check_and_detect_events_inv self esm now :
  Spec.pass_inv (EM.recent_events (EM._clean_recent_events self now))
    (EM.core_entities self)
    (Spec.fired_in_pass np_mean np_std self esm now)
    (EM.check_and_detect_events np_mean np_std self esm now).
Proof.
  destruct (on_states_inv _ _ now (map_to_list (ESM.state_table esm)) _ _
              (pass_inv_start self now)) as (events & Hinv).
  unfold Spec.fired_in_pass.
  fold (EM.check_and_detect_events np_mean np_std self esm now) in Hinv.
  destruct Hinv as (Hrecent & Hrest).
  rewrite Hrecent, drop_app_length. by split.
Qed.

End Triggers.

(** C7.  After a detection pass, [get_event_trigger(e, m)] is 1.0 for
    the pairs on which the pass fired an event and for the plr and
    bandwidth of every core entity on which it fired an rtt event, and
    0.0 for every other pair, whatever triggers the event manager held
    before the pass. *)
Theorem event_triggers_after_pass (np_mean np_std : list Qc → Qc)
  (self : EM.t) (esm : ESM.t) (now : Qc) (e m : string) :
  let self' := EM.check_and_detect_events np_mean np_std self esm now in
  let fired := Spec.fired_in_pass np_mean np_std self esm now in
  (Spec.raised (EM.core_entities self) fired e m →
   EM.get_event_trigger self' e m = 1)
  ∧ (¬ Spec.raised (EM.core_entities self) fired e m →
     EM.get_event_trigger self' e m = 0).
Proof.
  intros self' fired.
  destruct (check_and_detect_events_inv np_mean np_std self esm now)
    as (_ & _ & Hone & Hraised).
  fold self' fired in Hone, Hraised. unfold EM.get_event_trigger.
  split; intros H.
  - apply Hraised in H as [v Hv]. rewrite Hv. simpl. by eapply Hone.
  - destruct (EM.event_triggers self' !! (e, m)) as [v|] eqn:Hv; [|done].
    exfalso. apply H, Hraised. by eexists.
Qed.

Lemma event_triggers_after_pass_witness :
  let self' :=
    EM.check_and_detect_events Scenario.no_statistic Scenario.no_statistic
      EM.init Scenario.esm_down (Num.frac 5 1) in
  EM.get_event_trigger self' "L2" Config.LIVENESS = 1
  ∧ EM.get_event_trigger self' "L2" Config.RTT = 0.
Proof.
  intros self'.
  assert (Hfired :
    Spec.fired_in_pass Scenario.no_statistic Scenario.no_statistic
      EM.init Scenario.esm_down (Num.frac 5 1)
    = [Scenario.down_event]) by (vm_compute; reflexivity).
  split.
  - apply (event_triggers_after_pass Scenario.no_statistic
             Scenario.no_statistic EM.init Scenario.esm_down (Num.frac 5 1)
             "L2" Config.LIVENESS).
    left. exists Scenario.down_event. rewrite Hfired.
    split; [left|by split].
  - apply (event_triggers_after_pass Scenario.no_statistic
             Scenario.no_statistic EM.init Scenario.esm_down (Num.frac 5 1)
             "L2" Config.RTT).
    rewrite Hfired.
    intros [(ev & ->%list_elem_of_singleton & _ & Hm)
           | (_ & (ev & ->%list_elem_of_singleton & _ & Hm) & _)];
      discriminate Hm.
Defined.

(** ** tests/test_modules.py, replayed on the embedding *)

(** [test_ctlc]: stability below the target lengthens the interval,
    stability above it shortens it. *)
Example test_ctlc :
  let ctlc := CTLC.init (Num.frac 1 10) (Num.frac 1 1) in
  this <$> CTLC.adjust_probe_interval ctlc (Num.frac 10 1) (Num.frac 1 2)
  = Some (21 # 2)%Q
  ∧ this <$> CTLC.adjust_probe_interval ctlc (Num.frac 10 1) (Num.frac 2 1)
    = Some (9 # 1)%Q.
Proof. split; vm_compute; reflexivity. Qed.

(** [test_prio]: [0.4 * 0.5 + 0.3 * 1.0 + 0.2 * 0.8 + 0.1 * 0.0]. *)
Example test_prio :
  this (PRIO.calculate_priority (PRIO.init None) (Scenario.task "L1")
          (Num.frac 1 2) 1 (Num.frac 8 10) 0)
  = (33 # 50)%Q.
Proof. vm_compute. reflexivity. Qed.

(** [test_cmab]: one selection, one update, one history entry. *)
Example test_cmab :
  let context :=
    [Num.frac 5 10; Num.frac 2 10; Num.frac 3 10; Num.frac 1 10] in
  match CMAB.select_strategy (CMAB.init 4 4) context Scenario.draw0 with
  | Raised _ _ => False
  | Returned strategy cmab =>
    strategy ∈ Config.strategies
    ∧ length
        (CMAB.history
           (state_after (CMAB.update cmab context (Num.frac 1 2) 1)))
      = 1%nat
  end.
Proof.
  vm_compute. split; [left|reflexivity].
Qed.

(** [test_event_detection]: a liveness confidence of 1/11 raises the
    trigger of the pair. *)
Example test_event_detection :
  let esm :=
    {| ESM.state_table :=
         {[ ("link1", Config.LIVENESS) :=
              {| ESM.distribution :=
                   {| ESM.confidence := Num.frac 1 11; ESM.mu := None |};
                 ESM.stability := 0;
                 ESM.uncertainty := 1;
                 ESM.probe_interval := Config.probe_interval_default;
                 ESM.last_probe_time := 0 |} ]} |} in
  this
    (EM.get_event_trigger
       (EM.check_and_detect_events Scenario.no_statistic
          Scenario.no_statistic EM.init esm (Num.frac 5 1))
       "link1" Config.LIVENESS)
  = 1%Q.
Proof. vm_compute. reflexivity. Qed.

(** Escalation: an unstable rtt on a core link (stability 4 of 5)
    raises the triggers of its plr and bandwidth as well, and no
    other. *)
Example core_entity_escalation :
  let em := EM.add_core_entity EM.init "L1" in
  let em' :=
    EM.check_and_detect_events Scenario.no_statistic Scenario.no_statistic
      em (Scenario.esm1 (Num.frac 4 1)) (Num.frac 5 1) in
  (λ m, this (EM.get_event_trigger em' "L1" m))
    <$> [Config.RTT; Config.PLR; Config.BANDWIDTH; Config.LIVENESS]
  = [1; 1; 1; 0]%Q.
Proof. vm_compute. reflexivity. Qed.

(** * Further properties *)

(** ** CMAB: selection *)

Lemma max_key_from_split (best : string * Qc) (l : list (string * Qc)) :
  ∃ l1 x l2,
    best :: l = l1 ++ x :: l2
    ∧ CMAB.max_key_from best l = x.1
    ∧ Forall (λ y, y.2 < x.2) l1
    ∧ Forall (λ y, y.2 ≤ x.2) l2.
Proof.
  revert best. induction l as [|[s v] l IH]; intros best.
  - exists [], best, []. by split_and!.
  - simpl. unfold Num.ltb. case_bool_decide as Hlt.
    + destruct (IH (s, v)) as (l1 & x & l2 & Heq & Hmax & H1 & H2).
      exists (best :: l1), x, l2. split_and!; [by rewrite Heq|done| |done].
      constructor; [|done].
      destruct l1 as [|y l1]; simplify_eq/=; [done|].
      apply Forall_cons in H1 as [Hy _]. simpl in Hy. by etrans.
    + apply Qcnot_lt_le in Hlt.
      destruct (IH best) as (l1 & x & l2 & Heq & Hmax & H1 & H2).
      destruct l1 as [|y l1]; simplify_eq/=.
      * exists [], x, ((s, v) :: l2). split_and!; [done|done|done|].
        by constructor.
      * exists (y :: (s, v) :: l1), x, l2.
        split_and!; [done|done| |done].
        apply Forall_cons in H1 as [Hy H1].
        constructor; [done|]. constructor; [|done].
        simpl. by eapply Qcle_lt_trans.
Qed.

(** X1.  [select_strategy] raises in two cases only, and leaves the
    bandit as it was when it does: [KeyError] exactly when an arm of
    [self.strategies] lacks its mean or its covariance, [ValueError]
    exactly when there is no arm.  Otherwise it returns an arm of
    [self.strategies] whose score [context . draw] is the largest, and
    of the arms with that score the first one: every arm listed before
    it scores strictly less, every arm listed after it scores no
    more. *)
Theorem select_strategy_argmax (self : CMAB.t) (context : Linalg.Vec)
  (draw : string → Linalg.Vec) :
  let score := λ s, Linalg.dot context (draw s) in
  let complete :=
    Forall (λ arm, is_Some (CMAB.mu self !! arm)
                   ∧ is_Some (CMAB.Sigma self !! arm))
           (CMAB.strategies self) in
  (CMAB.select_strategy self context draw = Raised "KeyError" self
   ↔ ¬ complete)
  ∧ (CMAB.select_strategy self context draw = Raised "ValueError" self
     ↔ CMAB.strategies self = [])
  ∧ (∀ exn self',
       CMAB.select_strategy self context draw = Raised exn self' →
       self' = self ∧ (exn = "KeyError" ∨ exn = "ValueError"))
  ∧ ∀ arm self',
      CMAB.select_strategy self context draw = Returned arm self' →
      complete
      ∧ ∃ before after,
          CMAB.strategies self = before ++ arm :: after
          ∧ Forall (λ s, score s < score arm) before
          ∧ Forall (λ s, score s ≤ score arm) after.
Proof.
  intros score complete. rewrite select_strategy_cases.
  fold complete. fold score.
  destruct (decide complete) as [Hall|Hmissing].
  2:{ split_and!.
      - done.
      - split; [done|]. intros Hs. exfalso. apply Hmissing.
        unfold complete. rewrite Hs. constructor.
      - intros exn self' [= <- <-]. split; [done|by left].
      - done. }
  unfold CMAB.max_key.
  destruct (CMAB.strategies self) as [|s0 l] eqn:Hs; simpl.
  - split_and!.
    + split; [done|]. intros H. by destruct H.
    + done.
    + intros exn self' [= <- <-]. split; [done|by right].
    + done.
  - split_and!.
    + split; [done|]. intros H. by destruct H.
    + split; intros [=].
    + done.
    + intros arm self' [= Harm _]. split; [done|].
      destruct (max_key_from_split (s0, score s0)
                  ((λ s, (s, score s)) <$> l))
        as (l1 & x & l2 & Heq & Hmax & H1 & H2).
      assert (arm = x.1) as -> by (rewrite <- Harm; exact Hmax).
      change ((s0, score s0) :: ((λ s, (s, score s)) <$> l))
        with ((λ s, (s, score s)) <$> (s0 :: l)) in Heq.
      apply fmap_app_inv in Heq as (before & rest & -> & Hrest & ->).
      symmetry in Hrest.
      apply fmap_cons_inv in Hrest as (arm & after & -> & -> & ->).
      exists before, after. simpl. split_and!; [done| |].
      * rewrite Forall_fmap in H1. exact H1.
      * rewrite Forall_fmap in H2. exact H2.
Qed.

Lemma select_strategy_argmax_witness :
  ∃ self',
    CMAB.select_strategy (CMAB.init 4 4) Scenario.c
      (λ s, if decide (s = Config.COVERAGE_BALANCER)
            then [1; 0; 0; 0] else Scenario.draw0 s)
    = Returned Config.COVERAGE_BALANCER self'
    ∧ ∃ before after,
        CMAB.strategies (CMAB.init 4 4)
        = before ++ Config.COVERAGE_BALANCER :: after.
Proof.
  eexists. split; [vm_compute; reflexivity|].
  set (draw := λ s, if decide (s = Config.COVERAGE_BALANCER)
                    then [1; 0; 0; 0] else Scenario.draw0 s).
  destruct (select_strategy_argmax (CMAB.init 4 4) Scenario.c draw)
    as (_ & _ & _ & Hmax).
  edestruct Hmax as (_ & before & after & Heq & _);
    [vm_compute; reflexivity|].
  by exists before, after.
Defined.

(** ** CMAB: what an exception of [update] leaves behind *)

Lemma cmab_update_raised_cases (self : CMAB.t) (c : Linalg.Vec) (r nu : Qc)
  (exn : string) (self' : CMAB.t) :
  CMAB.update self c r nu = Raised exn self' →
  ∃ arm,
    CMAB.selected_strategy self = Some arm
    ∧ ((exn = "KeyError" ∧ CMAB.Sigma_inv self !! arm = None ∧ self' = self)
       ∨ (exn = "ZeroDivisionError" ∧ nu = 0 ∧ self' = self)
       ∨ ∃ prec_old,
           let prec_new :=
             Linalg.madd prec_old
               (Linalg.mscale (1 / nu) (Linalg.outer c c)) in
           CMAB.Sigma_inv self !! arm = Some prec_old
           ∧ nu ≠ 0
           ∧ CMAB.Sigma_inv self' = <[arm := prec_new]> (CMAB.Sigma_inv self)
           ∧ CMAB.mu self' = CMAB.mu self
           ∧ ((exn = "LinAlgError"
               ∧ Linalg.inv prec_new = None
               ∧ CMAB.Sigma self' = CMAB.Sigma self)
              ∨ (exn = "KeyError"
                 ∧ CMAB.mu self !! arm = None
                 ∧ ∃ cov,
                     Linalg.inv prec_new = Some cov
                     ∧ CMAB.Sigma self'
                       = <[arm := cov]> (CMAB.Sigma self)))).
Proof.
  unfold CMAB.update.
  destruct (CMAB.selected_strategy self) as [arm|]; [|done].
  intros Hraise. exists arm. split; [done|].
  destruct (CMAB.Sigma_inv self !! arm) as [prec_old|] eqn:Hprec.
  2:{ injection Hraise as <- <-. by left. }
  unfold Num.eqb in Hraise. case_bool_decide as Hnu.
  { injection Hraise as <- <-. right. by left. }
  right. right. exists prec_old. simpl.
  unfold CMAB.with_Sigma_inv in Hraise at 1.
  cbn [CMAB.Sigma_inv] in Hraise. rewrite lookup_insert_eq in Hraise.
  cbn [mbind option_bind] in Hraise.
  destruct (Linalg.inv _) as [cov|] eqn:Hinv.
  2:{ injection Hraise as <- <-. split_and!; try done. left. by split_and!. }
  unfold CMAB.with_Sigma, CMAB.with_Sigma_inv in Hraise.
  cbn [CMAB.Sigma_inv CMAB.Sigma CMAB.mu] in Hraise.
  rewrite !lookup_insert_eq in Hraise.
  destruct (CMAB.mu self !! arm) as [mean|] eqn:Hmean; [done|].
  injection Hraise as <- <-. split_and!; try done.
  right. split_and!; try done. by exists cov.
Qed.


(** X2.  When [CMAB.update] raises, an arm is selected and one of
    three things happened.  The precision of the arm is missing, or
    [noise_var] is zero: nothing has been written.  Or the precision
    of the arm has already been overwritten with
    [Lambda + (1/nu) c c^T] and then either that matrix is singular
    ([LinAlgError]) and covariance and mean are the old ones, or the
    mean of the arm is missing ([KeyError]) and the covariance has
    been overwritten too. *)
Theorem cmab_update_raises (self : CMAB.t) (c : Linalg.Vec) (r nu : Qc)
  (exn : string) (self' : CMAB.t) :
  CMAB.update self c r nu = Raised exn self' →
  ∃ arm,
    CMAB.selected_strategy self = Some arm
    ∧ ((exn = "KeyError" ∧ CMAB.Sigma_inv self !! arm = None ∧ self' = self)
       ∨ (exn = "ZeroDivisionError" ∧ nu = 0 ∧ self' = self)
       ∨ ∃ prec_old,
           let prec_new :=
             Linalg.madd prec_old
               (Linalg.mscale (1 / nu) (Linalg.outer c c)) in
           CMAB.Sigma_inv self !! arm = Some prec_old
           ∧ nu ≠ 0
           ∧ CMAB.Sigma_inv self' = <[arm := prec_new]> (CMAB.Sigma_inv self)
           ∧ CMAB.mu self' = CMAB.mu self
           ∧ ((exn = "LinAlgError"
               ∧ Linalg.inv prec_new = None
               ∧ CMAB.Sigma self' = CMAB.Sigma self)
              ∨ (exn = "KeyError"
                 ∧ CMAB.mu self !! arm = None
                 ∧ ∃ cov,
                     Linalg.inv prec_new = Some cov
                     ∧ CMAB.Sigma self'
                       = <[arm := cov]> (CMAB.Sigma self)))).
Proof. apply cmab_update_raised_cases. Qed.

Lemma cmab_update_raises_witness :
  CMAB.update Scenario.selected Scenario.c 1 (- 1)
  = Raised "LinAlgError"
      (state_after (CMAB.update Scenario.selected Scenario.c 1 (- 1)))
  ∧ ∃ arm, CMAB.selected_strategy Scenario.selected = Some arm.
Proof.
  assert (Hrun :
    CMAB.update Scenario.selected Scenario.c 1 (- 1)
    = Raised "LinAlgError"
        (state_after (CMAB.update Scenario.selected Scenario.c 1 (- 1))))
    by (vm_compute; reflexivity).
  split; [exact Hrun|].
  destruct (cmab_update_raises _ _ _ _ _ _ Hrun) as (arm & Harm & _).
  by exists arm.
Defined.

(** ** CMAB.get_strategy_stats *)

Lemma incr_lookup (k k' : string) (m : gmap string nat) :
  default 0%nat (EM.incr k m !! k')
  = ((if decide (k = k') then 1 else 0) + default 0 (m !! k'))%nat.
Proof.
  unfold EM.incr. destruct (decide (k = k')) as [->|Hne].
  - by rewrite lookup_insert_eq.
  - by rewrite lookup_insert_ne.
Qed.

Lemma count_strategies_snoc history record :
  CMABView.count_strategies (history ++ [record])
  = EM.incr (CMAB.strategy record) (CMABView.count_strategies history).
Proof. unfold CMABView.count_strategies. by rewrite foldl_snoc. Qed.

Lemma count_strategies_lookup history arm :
  default 0%nat (CMABView.count_strategies history !! arm)
  = length (filter (λ record, CMAB.strategy record = arm) history).
Proof.
  induction history as [|record history IH] using rev_ind.
  - done.
  - rewrite count_strategies_snoc, incr_lookup, filter_app, length_app, IH.
    rewrite filter_cons, filter_nil.
    destruct (decide (CMAB.strategy record = arm)); simpl; lia.
Qed.

(** X3.  In the dict [get_strategy_stats] returns,
    [total_selections] is the length of the history and
    [strategy_counts] holds, for every arm, the number of history
    entries that selected it (an arm never selected counts as 0).
    One more [select_strategy] adds one to [total_selections] and to
    the count of the arm it returns, and changes no other count and
    none of the reported parameters. *)
Theorem strategy_stats_count_selections (self : CMAB.t)
  (stats : CMABView.StrategyStats) :
  CMABView.get_strategy_stats self = Some stats →
  CMABView.total_selections stats = length (CMAB.history self)
  ∧ (∀ arm,
       default 0%nat (CMABView.strategy_counts stats !! arm)
       = length (filter (λ record, CMAB.strategy record = arm)
                        (CMAB.history self)))
  ∧ ∀ context draw self' arm,
      CMAB.select_strategy self context draw = Returned arm self' →
      ∃ stats',
        CMABView.get_strategy_stats self' = Some stats'
        ∧ CMABView.total_selections stats'
          = S (CMABView.total_selections stats)
        ∧ (∀ arm',
             default 0%nat (CMABView.strategy_counts stats' !! arm')
             = ((if decide (arm = arm') then 1%nat else 0%nat)
                + default 0%nat (CMABView.strategy_counts stats !! arm'))%nat)
        ∧ CMABView.current_parameters stats'
          = CMABView.current_parameters stats.
Proof.
  unfold CMABView.get_strategy_stats.
  destruct (mapM _ (CMAB.strategies self)) as [parameters|] eqn:Hpar;
    [|done].
  intros [= <-]. simpl. split_and!; [done|apply count_strategies_lookup|].
  intros context draw self' arm Hsel.
  pose proof (select_strategy_frame self context draw) as Hframe.
  rewrite Hsel in Hframe. destruct Hframe as (Hs & Hmu & HSigma & _).
  apply select_strategy_returned in Hsel as (_ & _ & Hhistory).
  simpl in Hs, Hmu, HSigma.
  rewrite Hs, Hmu, HSigma, Hpar, Hhistory. simpl.
  eexists. split; [reflexivity|]. simpl. split_and!.
  - rewrite length_app. simpl. lia.
  - intros arm'. by rewrite count_strategies_snoc, incr_lookup.
  - done.
Qed.

Lemma strategy_stats_count_selections_witness :
  ∃ stats,
    CMABView.get_strategy_stats Scenario.selected = Some stats
    ∧ CMABView.total_selections stats
      = length (CMAB.history Scenario.selected).
Proof.
  destruct (CMABView.get_strategy_stats Scenario.selected) as [stats|] eqn:H;
    [|by vm_compute in H].
  exists stats. split; [done|].
  by apply (strategy_stats_count_selections Scenario.selected stats H).
Defined.

(** ** CTLC: the direction of an adjustment *)

Lemma Qc_div_le_1 (s t : Qc) : 0 < t → s ≤ t → s / t ≤ 1.
Proof.
  intros Ht Hst. apply (Qcmult_le_mono_pos_r _ _ t Ht).
  replace (s / t * t) with s by (field; by apply Qclt_not_eq in Ht).
  by rewrite Qcmult_1_l.
Qed.

Lemma Qc_div_ge_1 (s t : Qc) : 0 < t → t ≤ s → 1 ≤ s / t.
Proof.
  intros Ht Hst. apply (Qcmult_le_mono_pos_r _ _ t Ht).
  replace (s / t * t) with s by (field; by apply Qclt_not_eq in Ht).
  by rewrite Qcmult_1_l.
Qed.

Lemma Qc_scale_up (T f : Qc) : 0 ≤ T → 1 ≤ f → T ≤ T * f.
Proof.
  intros HT Hf. rewrite <- (Qcmult_1_r T) at 1.
  by apply Qcmult_le_mono_nonneg_l.
Qed.

Lemma Qc_scale_down (T f : Qc) : 0 ≤ T → f ≤ 1 → T * f ≤ T.
Proof.
  intros HT Hf. rewrite <- (Qcmult_1_r T) at 2.
  by apply Qcmult_le_mono_nonneg_l.
Qed.

Lemma py_clamp_mono_up (lo hi T x : Qc) :
  T ≤ hi → T ≤ x → T ≤ Num.py_max lo (Num.py_min hi x).
Proof. intros. qc_cases; qc_lra. Qed.

Lemma py_clamp_mono_down (lo hi T x : Qc) :
  lo ≤ T → x ≤ T → Num.py_max lo (Num.py_min hi x) ≤ T.
Proof. intros. qc_cases; qc_lra. Qed.

(** X4.  For a controller with a gain [kp ≥ 0] and a target
    stability [> 0], and an interval [T ≥ 0] inside
    [[min_interval, max_interval]]: a stability at or below the target
    never shortens the interval, a stability at or above the target
    never lengthens it, and a stability equal to the target leaves it
    as it is. *)
Theorem adjust_probe_interval_direction (self : CTLC.t) (T S : Qc) :
  0 ≤ CTLC.kp self →
  0 < CTLC.target_stability self →
  0 ≤ T →
  CTLC.min_interval self ≤ T →
  T ≤ CTLC.max_interval self →
  ∃ T',
    CTLC.adjust_probe_interval self T S = Some T'
    ∧ (S ≤ CTLC.target_stability self → T ≤ T')
    ∧ (CTLC.target_stability self ≤ S → T' ≤ T)
    ∧ (S = CTLC.target_stability self → T' = T).
Proof.
  intros Hkp Htarget HT Hmin Hmax.
  unfold CTLC.adjust_probe_interval, Num.eqb.
  rewrite bool_decide_eq_false_2
    by (intros Heq; rewrite Heq in Htarget; by apply Qclt_not_eq in Htarget).
  eexists. split; [reflexivity|].
  set (f := 1 + CTLC.kp self * (1 - S / CTLC.target_stability self)).
  assert (Hup : S ≤ CTLC.target_stability self → 1 ≤ f).
  { intros HS. apply (Qc_div_le_1 _ _ Htarget) in HS.
    assert (0 ≤ CTLC.kp self * (1 - S / CTLC.target_stability self)).
    { apply Qcmult_nonneg_nonneg; [done|]. by apply Qcle_minus_iff in HS. }
    unfold f. rewrite <- (Qcplus_0_r 1) at 1. by apply Qcplus_le_mono_l. }
  assert (Hdown : CTLC.target_stability self ≤ S → f ≤ 1).
  { intros HS. apply (Qc_div_ge_1 _ _ Htarget) in HS.
    assert (0 ≤ CTLC.kp self * (S / CTLC.target_stability self - 1)).
    { apply Qcmult_nonneg_nonneg; [done|]. by apply Qcle_minus_iff in HS. }
    apply Qcle_minus_iff. unfold f.
    replace (1 + - (1 + CTLC.kp self * (1 - S / CTLC.target_stability self)))
      with (CTLC.kp self * (S / CTLC.target_stability self - 1)) by ring.
    done. }
  assert (H1 : S ≤ CTLC.target_stability self →
               T ≤ Num.py_max (CTLC.min_interval self)
                     (Num.py_min (CTLC.max_interval self) (T * f))).
  { intros HS. apply py_clamp_mono_up; [done|].
    apply Qc_scale_up; auto. }
  assert (H2 : CTLC.target_stability self ≤ S →
               Num.py_max (CTLC.min_interval self)
                 (Num.py_min (CTLC.max_interval self) (T * f)) ≤ T).
  { intros HS. apply py_clamp_mono_down; [done|].
    apply Qc_scale_down; auto. }
  split_and!; [done|done|].
  intros ->. apply Qcle_antisym; [apply H2|apply H1]; apply Qcle_refl.
Qed.

Lemma adjust_probe_interval_direction_witness :
  ∃ T',
    CTLC.adjust_probe_interval
      (CTLC.init Config.kp Config.target_stability)
      (Num.frac 10 1) (Num.frac 1 2)
    = Some T'
    ∧ Num.frac 10 1 ≤ T'.
Proof.
  destruct (adjust_probe_interval_direction
              (CTLC.init Config.kp Config.target_stability)
              (Num.frac 10 1) (Num.frac 1 2))
    as (T' & HT' & Hup & _); try (by vm_compute).
  exists T'. split; [done|]. apply Hup. by vm_compute.
Defined.

(** ** CTLC: what a sweep touches, and what it reports *)

Lemma same_but_interval_refl st : Props.same_but_interval st st.
Proof. by destruct st. Qed.

Lemma same_but_interval_trans a b c :
  Props.same_but_interval a b → Props.same_but_interval b c →
  Props.same_but_interval a c.
Proof.
  destruct a, b, c; simpl; try done.
  intros (-> & -> & -> & ->) (-> & -> & -> & ->). done.
Qed.

Lemma set_probe_interval_fields esm e m T k :
  Props.same_but_interval
    (ESM.state_table (ESM.set_probe_interval esm e m T) !! k)
    (ESM.state_table esm !! k).
Proof.
  unfold ESM.set_probe_interval, ESM.get_state.
  destruct (ESM.state_table esm !! (e, m)) as [st0|] eqn:Hst0.
  - simpl. destruct (decide (k = (e, m))) as [->|Hne].
    + by rewrite lookup_insert_eq, Hst0.
    + rewrite lookup_insert_ne by done. apply same_but_interval_refl.
  - apply same_but_interval_refl.
Qed.

Lemma adjust_item_raised self items exn (s : ESM.t) :
  foldl (CTLC.adjust_item self) (Raised exn s) items = Raised exn s.
Proof. induction items as [|i items IH]; simpl; [done|apply IH]. Qed.

Lemma adjust_items_only_intervals self k start items :
  ∀ acc,
    Props.same_but_interval (ESM.state_table (state_after acc) !! k) start →
    Props.same_but_interval
      (ESM.state_table
         (state_after (foldl (CTLC.adjust_item self) acc items)) !! k)
      start.
Proof.
  induction items as [|[[e m] st] items IH]; intros acc Hacc; simpl; [done|].
  apply IH. destruct acc as [adjs cur|]; [|done]. simpl.
  destruct (CTLC.adjust_probe_interval self _ _) as [T'|]; [|done].
  destruct (negb _); [|done]. simpl.
  eapply same_but_interval_trans; [apply set_probe_interval_fields|done].
Qed.

(** X5.  A sweep, whether it returns or raises, writes nothing but
    probe intervals: the state table has the same pairs after it, and
    the distribution, stability, uncertainty and time of last probe of
    every state are the ones it had. *)
Theorem batch_adjust_only_intervals (self : CTLC.t) (esm : ESM.t)
  (k : string * string) :
  let esm' := state_after (CTLC.batch_adjust self esm) in
  match ESM.state_table esm' !! k, ESM.state_table esm !! k with
  | Some st', Some st =>
    ESM.distribution st' = ESM.distribution st
    ∧ ESM.stability st' = ESM.stability st
    ∧ ESM.uncertainty st' = ESM.uncertainty st
    ∧ ESM.last_probe_time st' = ESM.last_probe_time st
  | None, None => True
  | _, _ => False
  end.
Proof.
  apply (adjust_items_only_intervals self k (ESM.state_table esm !! k)).
  apply same_but_interval_refl.
Qed.

Lemma py_clamp_fixed (x : Qc) :
  Spec.in_range x →
  Num.py_max Config.probe_interval_min
             (Num.py_min Config.probe_interval_max x) = x.
Proof. intros [H1 H2]. qc_cases; try reflexivity; qc_lra. Qed.

Section SweepReport.

Variable c : CTLC.t.
Hypothesis c_min : CTLC.min_interval c = Config.probe_interval_min.
Hypothesis c_max : CTLC.max_interval c = Config.probe_interval_max.

Lemma adjust_in_range T S T' :
  CTLC.adjust_probe_interval c T S = Some T' → Spec.in_range T'.
Proof.
  unfold CTLC.adjust_probe_interval.
  destruct (Num.eqb _ _); [done|]. intros [= <-].
  rewrite c_min, c_max. apply py_clamp_in_range.
Qed.

Lemma set_probe_interval_stores esm e m T st :
  ESM.state_table esm !! (e, m) = Some st →
  Spec.in_range T →
  ∃ st', ESM.state_table (ESM.set_probe_interval esm e m T) !! (e, m)
           = Some st'
         ∧ ESM.probe_interval st' = T.
Proof.
  intros Hst HT. unfold ESM.set_probe_interval, ESM.get_state.
  rewrite Hst. simpl. rewrite lookup_insert_eq.
  eexists. split; [reflexivity|]. simpl. by apply py_clamp_fixed.
Qed.

Lemma sweep_report (l : list (string * string * ESM.EntityState)) :
  ∀ cur adjs0 adjs' esm',
    NoDup l.*1 →
    (∀ k st, (k, st) ∈ l → ESM.state_table cur !! k = Some st) →
    foldl (CTLC.adjust_item c) (Returned adjs0 cur) l = Returned adjs' esm' →
    ∃ new,
      adjs' = adjs0 ++ new
      ∧ Forall (Props.reported c cur esm') new
      ∧ (Props.adjustment_key <$> new) `sublist_of` l.*1
      ∧ ∀ k, k ∉ Props.adjustment_key <$> new →
             ESM.state_table esm' !! k = ESM.state_table cur !! k.
Proof.
  induction l as [|[[e m] st] l IH]; intros cur adjs0 adjs' esm' Hnd Hl Hrun.
  - simpl in Hrun. injection Hrun as <- <-.
    exists []. rewrite (right_id_L [] (++)). by split_and!.
  - simpl in Hnd. apply NoDup_cons in Hnd as [Hfresh Hnd].
    assert (Hst : ESM.state_table cur !! (e, m) = Some st)
      by (apply Hl; left).
    cbn [foldl CTLC.adjust_item] in Hrun.
    destruct (CTLC.adjust_probe_interval c _ _) as [T'|] eqn:HT'.
    2:{ by rewrite adjust_item_raised in Hrun. }
    destruct (Num.eqb T' (ESM.probe_interval st)) eqn:Heq; simpl in Hrun.
    + destruct (IH cur adjs0 adjs' esm' Hnd) as (new & -> & Hrep & Hsub & Hfr).
      { intros k st' Hel. apply Hl. by right. }
      { done. }
      exists new. split_and!; [done|done| |done].
      by apply sublist_cons.
    + apply bool_decide_eq_false_1 in Heq.
      set (a := {| CTLC.entity_id := e; CTLC.metric := m;
                   CTLC.old_interval := ESM.probe_interval st;
                   CTLC.new_interval := T';
                   CTLC.adj_stability := ESM.get_stability st |}) in *.
      destruct (IH (ESM.set_probe_interval cur e m T') (adjs0 ++ [a])
                   adjs' esm' Hnd)
        as (new & -> & Hrep & Hsub & Hfr).
      { intros k st' Hel. rewrite set_probe_interval_other.
        - apply Hl. by right.
        - intros ->. apply Hfresh. apply list_elem_of_fmap.
          by exists ((e, m), st'). }
      { done. }
      assert (Hk : (e, m) ∉ Props.adjustment_key <$> new).
      { intros Hel. apply Hfresh. by apply (sublist_subseteq _ _ Hsub). }
      exists (a :: new). split_and!.
      * by rewrite <- (assoc_L (++)).
      * constructor.
        -- destruct (set_probe_interval_stores cur e m T' st Hst)
             as (st' & Hst' & HT); [by eapply adjust_in_range|].
           exists st, st'. unfold Props.adjustment_key. simpl.
           split_and!; try done. by rewrite Hfr.
        -- apply Forall_forall. intros b Hb.
           rewrite Forall_forall in Hrep.
           destruct (Hrep b Hb)
             as (st1 & st1' & H1 & H2 & H3 & H4 & H5 & H6 & H7).
           exists st1, st1'. split_and!; try done.
           rewrite <- H1. symmetry. apply set_probe_interval_other.
           intros Hkey. apply Hk. rewrite <- Hkey.
           apply list_elem_of_fmap. by exists b.
      * simpl. by apply sublist_skip.
      * intros k Hnot. rewrite fmap_cons, not_elem_of_cons in Hnot.
        destruct Hnot as [Hne Hnot]. rewrite Hfr by done.
        by apply set_probe_interval_other.
Qed.

End SweepReport.

(** X6.  The list a sweep returns is a truthful and complete report
    (for a controller with the configured bounds).  Every entry names
    a pair of the state table, the interval and stability the state
    had, and a new interval, different from the old one, that
    [adjust_probe_interval] computes from them and that the state
    holds after the sweep; no pair is reported twice; and a state
    whose pair is not in the list is after the sweep exactly what it
    was. *)
Theorem batch_adjust_report (self : CTLC.t) (esm : ESM.t)
  (adjustments : list CTLC.Adjustment) (esm' : ESM.t) :
  CTLC.min_interval self = Config.probe_interval_min →
  CTLC.max_interval self = Config.probe_interval_max →
  CTLC.batch_adjust self esm = Returned adjustments esm' →
  Forall (Props.reported self esm esm') adjustments
  ∧ NoDup (Props.adjustment_key <$> adjustments)
  ∧ ∀ k, k ∉ Props.adjustment_key <$> adjustments →
         ESM.state_table esm' !! k = ESM.state_table esm !! k.
Proof.
  intros Hmin Hmax Hrun.
  destruct (sweep_report self Hmin Hmax (map_to_list (ESM.state_table esm))
              esm [] adjustments esm')
    as (new & -> & Hrep & Hsub & Hfr).
  - apply NoDup_fst_map_to_list.
  - intros k st Hel. by apply elem_of_map_to_list.
  - exact Hrun.
  - simpl. split_and!; [done| |done].
    eapply sublist_NoDup; [|exact Hsub]. apply NoDup_fst_map_to_list.
Qed.

Lemma batch_adjust_report_witness :
  ∃ adjustments esm',
    CTLC.batch_adjust (CTLC.init Config.kp Config.target_stability)
                      Scenario.esm3
    = Returned adjustments esm'
    ∧ NoDup (Props.adjustment_key <$> adjustments).
Proof.
  destruct (CTLC.batch_adjust (CTLC.init Config.kp Config.target_stability)
                              Scenario.esm3)
    as [adjustments esm'|] eqn:Hrun; [|by vm_compute in Hrun].
  exists adjustments, esm'. split; [done|].
  by destruct (batch_adjust_report
                 (CTLC.init Config.kp Config.target_stability) Scenario.esm3
                 adjustments esm' eq_refl eq_refl Hrun) as (_ & ? & _).
Defined.

(** ** PRIO: the entries of a selection *)

Lemma select_top_k_entry (self : PRIO.t) (pool : list PRIO.Task)
  (esm : ESM.t) (em : option EM.t) (strategy : string) (k : Z) (now : Qc)
  (s : PRIO.Scored) :
  s ∈ PRIO.select_top_k self pool esm em strategy k now →
  let t := PRIO.task s in
  let c := PRIO.components s in
  let trigger :=
    match em with
    | Some em => EM.get_event_trigger em (PRIO.entity_id t) (PRIO.metric t)
    | None => 0
    end in
  t ∈ pool
  ∧ (∃ state,
       ESM.get_state esm (PRIO.entity_id t) (PRIO.metric t) = Some state
       ∧ PRIO.c_urgency c = ESM.get_urgency state now)
  ∧ PRIO.c_eig c = PRIO.eig t
  ∧ PRIO.c_event_trig c = trigger
  ∧ PRIO.c_policy_match c
    = PRIO.calculate_policy_match self t strategy esm (Num.ltb 0 trigger)
  ∧ PRIO.priority s
    = Config.w_eig (PRIO.weights self) * PRIO.c_eig c
      + Config.w_urgency (PRIO.weights self) * PRIO.c_urgency c
      + Config.w_policy_match (PRIO.weights self) * PRIO.c_policy_match c
      + Config.w_event_trig (PRIO.weights self) * PRIO.c_event_trig c.
Proof.
  intros Hs. apply select_top_k_elem in Hs as (t0 & Ht0 & Hscore).
  unfold PRIO.score_task in Hscore.
  destruct (ESM.get_state esm _ _) as [state|] eqn:Hstate; [|done].
  injection Hscore as <-. simpl. split_and!; try done.
  by exists state.
Qed.


(** X8.  Every entry [select_top_k] returns is consistent: its task
    has a state in ESM, the components it carries are the EIG cached
    in the task, the urgency of that state at the time of the call,
    the trigger the event manager holds for the pair (0.0 without an
    event manager) and the policy match computed from that trigger,
    and its priority is the weighted sum of exactly these four
    components. *)
Theorem select_top_k_components (self : PRIO.t) (pool : list PRIO.Task)
  (esm : ESM.t) (em : option EM.t) (strategy : string) (k : Z) (now : Qc)
  (s : PRIO.Scored) :
  s ∈ PRIO.select_top_k self pool esm em strategy k now →
  let t := PRIO.task s in
  let c := PRIO.components s in
  let trigger :=
    match em with
    | Some em => EM.get_event_trigger em (PRIO.entity_id t) (PRIO.metric t)
    | None => 0
    end in
  t ∈ pool
  ∧ (∃ state,
       ESM.get_state esm (PRIO.entity_id t) (PRIO.metric t) = Some state
       ∧ PRIO.c_urgency c = ESM.get_urgency state now)
  ∧ PRIO.c_eig c = PRIO.eig t
  ∧ PRIO.c_event_trig c = trigger
  ∧ PRIO.c_policy_match c
    = PRIO.calculate_policy_match self t strategy esm (Num.ltb 0 trigger)
  ∧ PRIO.priority s
    = Config.w_eig (PRIO.weights self) * PRIO.c_eig c
      + Config.w_urgency (PRIO.weights self) * PRIO.c_urgency c
      + Config.w_policy_match (PRIO.weights self) * PRIO.c_policy_match c
      + Config.w_event_trig (PRIO.weights self) * PRIO.c_event_trig c.
Proof. apply select_top_k_entry. Qed.

Lemma select_top_k_components_witness :
  ∃ s,
    s ∈ PRIO.select_top_k (PRIO.init None) Scenario.pool3 Scenario.esm3
          None Config.COVERAGE_BALANCER 2 (Num.frac 5 1)
    ∧ PRIO.c_event_trig (PRIO.components s) = 0.
Proof.
  destruct (PRIO.select_top_k (PRIO.init None) Scenario.pool3 Scenario.esm3
              None Config.COVERAGE_BALANCER 2 (Num.frac 5 1))
    as [|s rest] eqn:Hrun; [by vm_compute in Hrun|].
  assert (Hs : s ∈ PRIO.select_top_k (PRIO.init None) Scenario.pool3
                     Scenario.esm3 None Config.COVERAGE_BALANCER 2
                     (Num.frac 5 1)) by (rewrite Hrun; left).
  exists s. split; [by rewrite <- Hrun|].
  by destruct (select_top_k_components _ _ _ _ _ _ _ s Hs)
    as (_ & _ & _ & ? & _).
Defined.

Lemma omap_score_length self esm em strategy now pool :
  length (omap (PRIO.score_task self esm em strategy now) pool)
  = length
      (filter (λ t, is_Some (ESM.get_state esm (PRIO.entity_id t)
                                           (PRIO.metric t))) pool).
Proof.
  induction pool as [|t pool IH]; [done|].
  rewrite filter_cons. csimpl.
  destruct (ESM.get_state esm (PRIO.entity_id t) (PRIO.metric t))
    as [state|] eqn:Hst.
  - rewrite decide_True by (by eexists).
    destruct (PRIO.score_task self esm em strategy now t) as [s|] eqn:Hscore.
    + simpl. by rewrite IH.
    + unfold PRIO.score_task in Hscore. by rewrite Hst in Hscore.
  - rewrite decide_False by (by intros [??]).
    destruct (PRIO.score_task self esm em strategy now t) as [s|] eqn:Hscore.
    + unfold PRIO.score_task in Hscore. by rewrite Hst in Hscore.
    + done.
Qed.

(** X9.  [select_top_k] returns the best: a scored task of the pool
    that is not in the returned list has a priority no larger than
    that of every returned entry.  With [n] the number of pool tasks
    that have a state, the list has [min(k, n)] entries for [k ≥ 0];
    for a negative [k] the slice [[:k]] drops the [|k|] entries of
    lowest priority instead, leaving [max(n + k, 0)]. *)
Theorem select_top_k_best (self : PRIO.t) (pool : list PRIO.Task)
  (esm : ESM.t) (em : option EM.t) (strategy : string) (k : Z) (now : Qc) :
  let scored := omap (PRIO.score_task self esm em strategy now) pool in
  let result := PRIO.select_top_k self pool esm em strategy k now in
  let n :=
    length
      (filter (λ t, is_Some (ESM.get_state esm (PRIO.entity_id t)
                                           (PRIO.metric t))) pool) in
  (∀ s r, s ∈ scored → r ∈ result →
          s ∈ result ∨ PRIO.priority s ≤ PRIO.priority r)
  ∧ length result
    = if decide (0 ≤ k)%Z then Z.to_nat k `min` n
      else Z.to_nat (Z.of_nat n + k).
Proof.
  intros scored result n. split.
  - intros s r Hs Hr.
    pose proof (sort_desc_sorted scored) as Hsorted.
    rewrite <- (sort_desc_perm scored) in Hs.
    unfold result, PRIO.select_top_k in *. fold scored in Hr |- *.
    revert Hr. unfold PRIO.slice_to.
    set (m := if (0 <=? k)%Z then Z.to_nat k
              else Z.to_nat (Z.of_nat (length (PRIO.sort_desc scored)) + k)).
    replace (if (0 <=? k)%Z then take (Z.to_nat k) (PRIO.sort_desc scored)
             else take (Z.to_nat (Z.of_nat (length (PRIO.sort_desc scored))
                                  + k)) (PRIO.sort_desc scored))
      with (take m (PRIO.sort_desc scored))
      by (unfold m; by destruct (0 <=? k)%Z).
    intros Hr.
    rewrite <- (take_drop m (PRIO.sort_desc scored)) in Hs, Hsorted.
    apply elem_of_app in Hs as [Hs|Hs]; [by left|right].
    by apply (StronglySorted_app_1_elem_of _ _ _ r s Hsorted).
  - unfold result, PRIO.select_top_k, PRIO.slice_to. fold scored.
    assert (Hn : length (PRIO.sort_desc scored) = n).
    { rewrite (sort_desc_perm scored). apply omap_score_length. }
    destruct (decide (0 ≤ k)%Z) as [Hk|Hk].
    + rewrite (proj2 (Z.leb_le 0 k)) by done. by rewrite length_take, Hn.
    + rewrite (proj2 (Z.leb_gt 0 k)) by lia. rewrite length_take, Hn. lia.
Qed.

(** ** PRIO: the size of a priority *)

Lemma get_urgency_nonneg (state : ESM.EntityState) (now : Qc) :
  0 < ESM.probe_interval state →
  ESM.last_probe_time state ≤ now →
  0 ≤ ESM.get_urgency state now.
Proof.
  intros HT Hlast. unfold ESM.get_urgency.
  assert (0 ≤ (now - ESM.last_probe_time state) / ESM.probe_interval state).
  { apply Qcmult_nonneg_nonneg.
    - by apply Qcle_minus_iff in Hlast.
    - apply Qclt_le_weak. by apply Qcinv_pos. }
  qc_cases; qc_lra.
Qed.

Lemma policy_match_nonneg (self : PRIO.t) (t : PRIO.Task) (strategy : string)
  (esm : ESM.t) (event_triggered : bool) :
  (∀ state,
     ESM.get_state esm (PRIO.entity_id t) (PRIO.metric t) = Some state →
     0 ≤ ESM.stability state ∧ 0 ≤ ESM.uncertainty state) →
  0 ≤ PRIO.calculate_policy_match self t strategy esm event_triggered.
Proof.
  intros Hstate. unfold PRIO.calculate_policy_match.
  destruct (ESM.get_state esm _ _) as [state|]; [|done].
  destruct (Hstate state eq_refl) as [HS HU].
  repeat case_decide; try done.
  - apply Qcmult_nonneg_nonneg; [done|]. by vm_compute.
  - apply Qcmult_nonneg_nonneg; [done|]. by vm_compute.
  - by destruct event_triggered.
Qed.

(** X10.  With the configured weights, the priorities
    [select_top_k] returns are not negative, provided no input is:
    the EIG of every pool task, the stability and uncertainty of
    every state, the triggers of the event manager, and the time
    since the last probe of every state (whose interval is
    positive). *)
Theorem select_top_k_priority_nonneg (pool : list PRIO.Task) (esm : ESM.t)
  (em : option EM.t) (strategy : string) (k : Z) (now : Qc) :
  (∀ t, t ∈ pool → 0 ≤ PRIO.eig t) →
  (∀ key state,
     ESM.state_table esm !! key = Some state →
     0 ≤ ESM.stability state ∧ 0 ≤ ESM.uncertainty state
     ∧ 0 < ESM.probe_interval state ∧ ESM.last_probe_time state ≤ now) →
  (∀ em' e m, em = Some em' → 0 ≤ EM.get_event_trigger em' e m) →
  ∀ s,
    s ∈ PRIO.select_top_k (PRIO.init None) pool esm em strategy k now →
    0 ≤ PRIO.priority s.
Proof.
  intros Heig Hesm Hem s Hs.
  destruct (select_top_k_entry _ _ _ _ _ _ _ s Hs)
    as (Hpool & (state & Hstate & Hurg) & Hceig & Htrig & Hpm & ->).
  destruct (Hesm _ _ Hstate) as (HS & HU & HT & Hlast).
  assert (H1 : 0 ≤ PRIO.c_eig (PRIO.components s))
    by (rewrite Hceig; by apply Heig).
  assert (H2 : 0 ≤ PRIO.c_urgency (PRIO.components s))
    by (rewrite Hurg; by apply get_urgency_nonneg).
  assert (H3 : 0 ≤ PRIO.c_policy_match (PRIO.components s)).
  { rewrite Hpm. apply policy_match_nonneg. intros st Hst.
    destruct (Hesm _ _ Hst) as (? & ? & _). done. }
  assert (H4 : 0 ≤ PRIO.c_event_trig (PRIO.components s)).
  { rewrite Htrig. destruct em as [em'|]; [by eapply Hem|done]. }
  simpl.
  repeat apply Qcplus_nonneg_nonneg;
    (apply Qcmult_nonneg_nonneg; [by vm_compute|done]).
Qed.

Lemma select_top_k_priority_nonneg_witness :
  ∃ s,
    s ∈ PRIO.select_top_k (PRIO.init None) Scenario.pool3 Scenario.esm3
          None Config.COVERAGE_BALANCER 5 (Num.frac 5 1)
    ∧ 0 ≤ PRIO.priority s.
Proof.
  destruct (PRIO.select_top_k (PRIO.init None) Scenario.pool3 Scenario.esm3
              None Config.COVERAGE_BALANCER 5 (Num.frac 5 1))
    as [|s rest] eqn:Hrun; [by vm_compute in Hrun|].
  assert (Hs : s ∈ PRIO.select_top_k (PRIO.init None) Scenario.pool3
                     Scenario.esm3 None Config.COVERAGE_BALANCER 5
                     (Num.frac 5 1)) by (rewrite Hrun; left).
  clear Hrun. exists s. split; [left|]. revert s Hs.
  apply (select_top_k_priority_nonneg Scenario.pool3 Scenario.esm3 None
           Config.COVERAGE_BALANCER 5 (Num.frac 5 1)).
  - intros t Ht. repeat (apply elem_of_cons in Ht as [->|Ht]);
      [by vm_compute..|by apply elem_of_nil in Ht].
  - intros key state Hstate.
    assert (state = Scenario.state 0) as ->.
    { unfold Scenario.esm3 in Hstate. simpl in Hstate.
      repeat (apply lookup_insert_Some in Hstate as [[_ <-]|[_ Hstate]];
              [done|]).
      by apply lookup_singleton_Some in Hstate as [_ <-]. }
    split_and!; by vm_compute.
  - intros em' e m [=].
Defined.

(** X11.  What a raised trigger is worth (configured weights): a task
    whose pair holds the trigger 1.0 has, under the EVENT_TRIGGER
    strategy, a priority 0.3 above the one it has without an event
    manager, and 0.1 above it under the three other strategies. *)
Theorem event_trigger_bonus (t : PRIO.Task) (esm : ESM.t) (em : EM.t)
  (strategy : string) (now : Qc) (s0 : PRIO.Scored) :
  strategy ∈ Config.strategies →
  EM.get_event_trigger em (PRIO.entity_id t) (PRIO.metric t) = 1 →
  PRIO.score_task (PRIO.init None) esm None strategy now t = Some s0 →
  ∃ s1,
    PRIO.score_task (PRIO.init None) esm (Some em) strategy now t = Some s1
    ∧ PRIO.priority s1
      = PRIO.priority s0
        + (if decide (strategy = Config.EVENT_TRIGGER)
           then Num.frac 3 10 else Num.frac 1 10).
Proof.
  intros Hstrategy Htrigger. unfold PRIO.score_task. rewrite Htrigger.
  destruct (ESM.get_state esm _ _) as [state|] eqn:Hstate; [|done].
  intros [= <-]. eexists. split; [reflexivity|]. simpl.
  unfold PRIO.calculate_priority, PRIO.calculate_policy_match.
  rewrite Hstate. simpl.
  generalize (ESM.get_urgency state now) as u.
  generalize (ESM.get_uncertainty state / Config.max_uncertainty) as fu.
  generalize (ESM.get_stability state) as st.
  generalize (PRIO.eig t) as e.
  intros e st fu u.
  unfold Config.strategies in Hstrategy.
  repeat (apply elem_of_cons in Hstrategy as [->|Hstrategy]);
    [..|by apply elem_of_nil in Hstrategy];
    repeat (case_decide; try done); qc_lra.
Qed.

Lemma event_trigger_bonus_witness :
  ∃ s0 s1,
    PRIO.score_task (PRIO.init None) (Scenario.esm1 1) None
      Config.EVENT_TRIGGER (Num.frac 5 1) (Scenario.task "L1") = Some s0
    ∧ PRIO.score_task (PRIO.init None) (Scenario.esm1 1)
        (Some (EM.raise_trigger EM.init "L1" Config.RTT))
        Config.EVENT_TRIGGER (Num.frac 5 1) (Scenario.task "L1") = Some s1
    ∧ PRIO.priority s1 = PRIO.priority s0 + Num.frac 3 10.
Proof.
  destruct (PRIO.score_task (PRIO.init None) (Scenario.esm1 1) None
              Config.EVENT_TRIGGER (Num.frac 5 1) (Scenario.task "L1"))
    as [s0|] eqn:Hs0; [|by vm_compute in Hs0].
  destruct (event_trigger_bonus (Scenario.task "L1") (Scenario.esm1 1)
              (EM.raise_trigger EM.init "L1" Config.RTT)
              Config.EVENT_TRIGGER (Num.frac 5 1) s0)
    as (s1 & Hs1 & Hp).
  - unfold Config.strategies. do 3 right. left.
  - vm_compute. reflexivity.
  - exact Hs0.
  - exists s0, s1. split_and!; [done|done|].
    by rewrite decide_True in Hp.
Defined.

(** ** The scheduler over a run *)

Lemma select_strategy_returns (self : CMAB.t) (context : Linalg.Vec)
  (draw : string → Linalg.Vec) :
  CMAB.strategies self ≠ [] →
  Forall (λ arm, is_Some (CMAB.mu self !! arm)
                 ∧ is_Some (CMAB.Sigma self !! arm))
         (CMAB.strategies self) →
  ∃ self' arm,
    CMAB.select_strategy self context draw = Returned arm self'
    ∧ arm ∈ CMAB.strategies self
    ∧ CMAB.strategies self' = CMAB.strategies self
    ∧ CMAB.mu self' = CMAB.mu self
    ∧ CMAB.Sigma self' = CMAB.Sigma self
    ∧ CMAB.Sigma_inv self' = CMAB.Sigma_inv self
    ∧ CMAB.selected_strategy self' = Some arm
    ∧ CMAB.history self'
      = CMAB.history self ++
        [ {| CMAB.context := context; CMAB.strategy := arm;
             CMAB.scores :=
               map (λ s, (s, Linalg.dot context (draw s)))
                   (CMAB.strategies self);
             CMAB.sampled_theta :=
               map (λ s, (s, draw s)) (CMAB.strategies self) |} ].
Proof.
  intros Harms Hparams.
  rewrite select_strategy_cases, decide_True by done.
  unfold CMAB.max_key.
  destruct (CMAB.strategies self) as [|s0 l] eqn:Hs; [done|]. simpl.
  eexists _, _. split; [reflexivity|]. simpl. split_and!; try done.
  destruct (max_key_from_split (s0, Linalg.dot context (draw s0))
              (map (λ s, (s, Linalg.dot context (draw s))) l))
    as (l1 & x & l2 & Heq & -> & _).
  assert (Hx : x ∈ (λ s, (s, Linalg.dot context (draw s))) <$> (s0 :: l)).
  { change ((λ s, (s, Linalg.dot context (draw s))) <$> (s0 :: l))
      with ((s0, Linalg.dot context (draw s0))
            :: map (λ s, (s, Linalg.dot context (draw s))) l).
    rewrite Heq. apply elem_of_app. right. left. }
  apply list_elem_of_fmap in Hx as (s & -> & Hs'). done.
Qed.

Lemma select_tasks_run (get_context_vector : ESM.t → Qc → Linalg.Vec)
  (self : APS.t) (k : option Z) (now : Qc) (draw : string → Linalg.Vec) :
  Spec.ready self →
  ∃ cmab' arm adjustments esm',
    CMAB.select_strategy (APS.cmab self)
      (get_context_vector (APS.esm self) now) draw = Returned arm cmab'
    ∧ CTLC.batch_adjust (APS.ctlc self) (APS.esm self)
      = Returned adjustments esm'
    ∧ APS.select_tasks get_context_vector self k now draw
      = Returned
          {| APS.tasks :=
               PRIO.select_top_k (APS.prio self) (APS.task_pool (APS.uq self))
                 esm' (APS.em self) arm (default Config.top_k k) now;
             APS.strategy := arm;
             APS.context := get_context_vector (APS.esm self) now;
             APS.interval_adjustments := adjustments |}
          {| APS.esm := esm'; APS.uq := APS.uq self; APS.em := APS.em self;
             APS.cmab := cmab'; APS.ctlc := APS.ctlc self;
             APS.prio := APS.prio self;
             APS.stats :=
               {| APS.total_rounds := S (APS.total_rounds (APS.stats self));
                  APS.total_tasks_selected :=
                    (APS.total_tasks_selected (APS.stats self)
                     + length
                         (PRIO.select_top_k (APS.prio self)
                            (APS.task_pool (APS.uq self)) esm' (APS.em self)
                            arm (default Config.top_k k) now))%nat;
                  APS.strategy_history :=
                    APS.strategy_history (APS.stats self) ++ [arm] |} |}.
Proof.
  intros (Harms & Hparams & Htarget).
  destruct (select_strategy_returns (APS.cmab self)
              (get_context_vector (APS.esm self) now) draw Harms Hparams)
    as (cmab' & arm & Hsel & _).
  destruct (batch_adjust_returns (APS.ctlc self) (APS.esm self) Htarget)
    as (adjustments & esm' & Hsweep).
  exists cmab', arm, adjustments, esm'. split_and!; [done|done|].
  unfold APS.select_tasks. rewrite Hsel.
  cbn [APS.with_cmab APS.ctlc APS.esm]. by rewrite Hsweep.
Qed.

Lemma well_formed_ready (self : APS.t) :
  Props.well_formed self → Spec.ready self.
Proof.
  intros (Hs & Hkeys & _ & Hc & _). split_and!.
  - by rewrite Hs.
  - rewrite Hs. apply Forall_forall. intros arm Harm.
    by destruct (Hkeys arm Harm) as (? & ? & _).
  - rewrite Hc. by vm_compute.
Qed.

Lemma init_well_formed (esm : ESM.t) (uq : APS.UQ) (em : option EM.t) :
  Props.well_formed (APS.init esm uq em).
Proof.
  unfold Props.well_formed. simpl. split_and!; try done.
  intros arm Harm. unfold Config.strategies in Harm.
  repeat (apply elem_of_cons in Harm as [->|Harm]);
    [..|by apply elem_of_nil in Harm];
    split_and!; (vm_compute; by eexists).
Qed.

Lemma reachable_well_formed (get_context_vector : ESM.t → Qc → Linalg.Vec)
  (self : APS.t) :
  APSView.reachable get_context_vector self → Props.well_formed self.
Proof.
  induction 1 as [esm uq em|self k now draw _ IH|self reward now _ IH
                 |self esm uq em _ IH].
  - apply init_well_formed.
  - destruct (select_tasks_run get_context_vector self k now draw
                (well_formed_ready self IH))
      as (cmab' & arm & adjustments & esm' & Hsel & _ & ->).
    destruct (well_formed_ready self IH) as (Harms & Hparams & _).
    destruct IH as (Hs & Hkeys & Hsome & Hc & Hp & Hrounds & Hhist & Hall).
    destruct (select_strategy_returns (APS.cmab self)
                (get_context_vector (APS.esm self) now) draw Harms Hparams)
      as (cmab'' & arm' & Hsel' & Harm & Hs' & Hmu & HSigma & HSigma_inv
          & Hselected & Hhistory).
    rewrite Hsel in Hsel'. injection Hsel' as <- <-.
    unfold Props.well_formed. simpl. rewrite Hs in Harm. split_and!.
    + by rewrite Hs'.
    + intros a Ha. rewrite Hmu, HSigma, HSigma_inv. by apply Hkeys.
    + intros a. rewrite Hselected. by intros [= <-].
    + done.
    + done.
    + rewrite length_app. simpl. lia.
    + by rewrite Hhistory, fmap_app, Hhist.
    + apply Forall_app. split; [done|]. by constructor.
  - destruct IH as (Hs & Hkeys & Hsome & Hc & Hp & Hrounds & Hhist & Hall).
    unfold APS.update_reward.
    destruct (cmab_update_rest (APS.cmab self)
                (get_context_vector (APS.esm self) now) reward 1)
      as (Hh & Hsel & Hstr & _).
    assert (Hk := cmab_update_keeps_keys (APS.cmab self)
                    (get_context_vector (APS.esm self) now) reward 1).
    destruct (CMAB.update _ _ _ _) as [u cmab'|exn cmab'];
      unfold Props.well_formed; simpl in *; rewrite Hh, Hsel, Hstr;
      (split_and!; try done; intros a Ha;
       destruct (Hkeys a Ha) as (? & ? & ?);
       destruct (Hk a) as (? & ? & ?); split_and!; auto).
  - exact IH.
Qed.

(** X12.  One call of [select_tasks] on a scheduler whose bandit
    has arms, each with its mean and its covariance, and whose
    controller has a non-zero target stability returns, and its
    bookkeeping is exact: one more round, as many more selected tasks as the
    selection holds, the returned strategy appended to the history and
    recorded as the selected arm of the bandit.  The strategy is one
    of the arms.  The call does not learn (mean, covariance and
    precision of every arm are untouched) and leaves UQ, the event
    manager, the controller and the ranker as they were. *)
Theorem select_tasks_bookkeeping
  (get_context_vector : ESM.t → Qc → Linalg.Vec) (self : APS.t)
  (k : option Z) (now : Qc) (draw : string → Linalg.Vec) :
  Spec.ready self →
  ∃ selection self',
    APS.select_tasks get_context_vector self k now draw
    = Returned selection self'
    ∧ APS.total_rounds (APS.stats self')
      = S (APS.total_rounds (APS.stats self))
    ∧ APS.total_tasks_selected (APS.stats self')
      = (APS.total_tasks_selected (APS.stats self)
         + length (APS.tasks selection))%nat
    ∧ APS.strategy_history (APS.stats self')
      = APS.strategy_history (APS.stats self) ++ [APS.strategy selection]
    ∧ APS.strategy selection ∈ CMAB.strategies (APS.cmab self)
    ∧ CMAB.selected_strategy (APS.cmab self')
      = Some (APS.strategy selection)
    ∧ APS.context selection = get_context_vector (APS.esm self) now
    ∧ CMAB.mu (APS.cmab self') = CMAB.mu (APS.cmab self)
    ∧ CMAB.Sigma (APS.cmab self') = CMAB.Sigma (APS.cmab self)
    ∧ CMAB.Sigma_inv (APS.cmab self') = CMAB.Sigma_inv (APS.cmab self)
    ∧ APS.uq self' = APS.uq self
    ∧ APS.em self' = APS.em self
    ∧ APS.ctlc self' = APS.ctlc self
    ∧ APS.prio self' = APS.prio self.
Proof.
  intros Hready.
  destruct (select_tasks_run get_context_vector self k now draw Hready)
    as (cmab' & arm & adjustments & esm' & Hsel & _ & ->).
  destruct Hready as (Harms & Hparams & _).
  destruct (select_strategy_returns (APS.cmab self)
              (get_context_vector (APS.esm self) now) draw Harms Hparams)
    as (cmab'' & arm' & Hsel' & Harm & Hs' & Hmu & HSigma & HSigma_inv
        & Hselected & Hhistory).
  rewrite Hsel in Hsel'. injection Hsel' as <- <-.
  eexists _, _. split; [reflexivity|]. simpl. by split_and!.
Qed.

Lemma select_tasks_bookkeeping_witness :
  ∃ selection self',
    APS.select_tasks Scenario.context_vector Scenario.aps3 None
                     (Num.frac 5 1) Scenario.draw0
    = Returned selection self'
    ∧ APS.total_rounds (APS.stats self') = 1%nat.
Proof.
  destruct (select_tasks_bookkeeping Scenario.context_vector Scenario.aps3
              None (Num.frac 5 1) Scenario.draw0)
    as (selection & self' & Hrun & Hrounds & _).
  - split_and!.
    + vm_compute. discriminate.
    + repeat constructor; vm_compute; by eexists.
    + vm_compute. discriminate.
  - exists selection, self'. split; [exact Hrun|].
    rewrite Hrounds. reflexivity.
Defined.

Lemma with_cmab_same (self : APS.t) : APS.with_cmab self (APS.cmab self) = self.
Proof. by destruct self. Qed.

(** X27.  [select_tasks] on a scheduler whose bandit is not complete
    raises before anything is written: [KeyError] when an arm lacks
    its mean or its covariance, [ValueError] when the bandit has no
    arm; no interval has been adjusted, no counter has moved and the
    bandit has recorded nothing. *)
Theorem select_tasks_incomplete_bandit
  (get_context_vector : ESM.t → Qc → Linalg.Vec) (self : APS.t)
  (k : option Z) (now : Qc) (draw : string → Linalg.Vec) :
  (¬ Forall (λ arm, is_Some (CMAB.mu (APS.cmab self) !! arm)
                    ∧ is_Some (CMAB.Sigma (APS.cmab self) !! arm))
            (CMAB.strategies (APS.cmab self)) →
   APS.select_tasks get_context_vector self k now draw
   = Raised "KeyError" self)
  ∧ (CMAB.strategies (APS.cmab self) = [] →
     APS.select_tasks get_context_vector self k now draw
     = Raised "ValueError" self).
Proof.
  unfold APS.select_tasks. rewrite select_strategy_cases. split.
  - intros Hmissing. rewrite decide_False by done.
    by rewrite with_cmab_same.
  - intros Hempty. rewrite Hempty.
    rewrite decide_True by constructor. simpl.
    by rewrite with_cmab_same.
Qed.

(** X13.  After [select_tasks] on a scheduler whose bandit has arms,
    each with its mean and its covariance, and whose controller is the
    configured one, every probe interval of ESM lies in
    [[probe_interval_min, probe_interval_max]], every reported
    adjustment too, and the urgency of every returned entry is the
    urgency of the state as the sweep left it: the intervals are
    adjusted first, the tasks ranked after. *)
Theorem select_tasks_ranks_after_sweep
  (get_context_vector : ESM.t → Qc → Linalg.Vec) (self : APS.t)
  (k : option Z) (now : Qc) (draw : string → Linalg.Vec) :
  Spec.ready self →
  APS.ctlc self = CTLC.init Config.kp Config.target_stability →
  ∃ selection self',
    APS.select_tasks get_context_vector self k now draw
    = Returned selection self'
    ∧ (∀ key state,
         ESM.state_table (APS.esm self') !! key = Some state →
         Spec.in_range (ESM.probe_interval state))
    ∧ Forall (λ a, Spec.in_range (CTLC.new_interval a))
             (APS.interval_adjustments selection)
    ∧ ∀ s, s ∈ APS.tasks selection →
           ∃ state,
             ESM.get_state (APS.esm self') (PRIO.entity_id (PRIO.task s))
                           (PRIO.metric (PRIO.task s)) = Some state
             ∧ Spec.in_range (ESM.probe_interval state)
             ∧ PRIO.c_urgency (PRIO.components s)
               = ESM.get_urgency state now.
Proof.
  intros Hready Hctlc.
  destruct (select_tasks_run get_context_vector self k now draw Hready)
    as (cmab' & arm & adjustments & esm' & _ & Hsweep & ->).
  destruct (sweep_in_range (APS.ctlc self)) with (esm := APS.esm self)
    as (adjs & esm'' & Hsweep' & Hadjs & Hrange);
    [by rewrite Hctlc; vm_compute|by rewrite Hctlc|by rewrite Hctlc|].
  rewrite Hsweep in Hsweep'. injection Hsweep' as <- <-.
  eexists _, _. split; [reflexivity|]. simpl. split_and!; [done|done|].
  intros s Hs. apply select_top_k_entry in Hs as (_ & (state & Hst & Hu) & _).
  exists state. split_and!; [done| |done].
  by apply (Hrange _ _ Hst).
Qed.

Lemma select_tasks_ranks_after_sweep_witness :
  ∃ selection self',
    APS.select_tasks Scenario.context_vector Scenario.aps3 None
                     (Num.frac 5 1) Scenario.draw0
    = Returned selection self'
    ∧ Forall (λ a, Spec.in_range (CTLC.new_interval a))
             (APS.interval_adjustments selection).
Proof.
  destruct (select_tasks_ranks_after_sweep Scenario.context_vector
              Scenario.aps3 None (Num.frac 5 1) Scenario.draw0)
    as (selection & self' & Hrun & _ & Hadjs & _).
  - split_and!.
    + vm_compute. discriminate.
    + repeat constructor; vm_compute; by eexists.
    + vm_compute. discriminate.
  - reflexivity.
  - exists selection, self'. split; [exact Hrun|exact Hadjs].
Defined.

(** X14.  [update_reward], whether it returns or raises, touches
    nothing but the bandit: ESM, UQ, the event manager, the
    controller, the ranker and the counters of the scheduler are as
    they were, and so are the bandit's history and selected arm.
    Before the first selection it returns and changes nothing at
    all. *)
Theorem update_reward_frame (get_context_vector : ESM.t → Qc → Linalg.Vec)
  (self : APS.t) (reward now : Qc) :
  let self' :=
    state_after (APS.update_reward get_context_vector self reward now) in
  APS.esm self' = APS.esm self
  ∧ APS.uq self' = APS.uq self
  ∧ APS.em self' = APS.em self
  ∧ APS.ctlc self' = APS.ctlc self
  ∧ APS.prio self' = APS.prio self
  ∧ APS.stats self' = APS.stats self
  ∧ CMAB.history (APS.cmab self') = CMAB.history (APS.cmab self)
  ∧ CMAB.selected_strategy (APS.cmab self')
    = CMAB.selected_strategy (APS.cmab self)
  ∧ (CMAB.selected_strategy (APS.cmab self) = None →
     APS.update_reward get_context_vector self reward now
     = Returned tt self).
Proof.
  intros self'. unfold self', APS.update_reward.
  destruct (cmab_update_rest (APS.cmab self)
              (get_context_vector (APS.esm self) now) reward 1)
    as (Hh & Hsel & _).
  split_and!.
  1-6: by destruct (CMAB.update _ _ _ _).
  - by destruct (CMAB.update _ _ _ _).
  - by destruct (CMAB.update _ _ _ _).
  - intros Hnone. unfold CMAB.update. rewrite Hnone.
    by rewrite with_cmab_same.
Qed.

(** X15.  A scheduler built by [__init__] and driven by
    [select_tasks] and [update_reward], whatever its collaborators do
    to ESM, the task pool and the event manager in between, never
    raises from [select_tasks], and raises from [update_reward] only
    the [LinAlgError] of a precision matrix that cannot be inverted:
    the [KeyError]s, the [ZeroDivisionError]s and the [ValueError] of
    an empty [max] the methods contain are out of reach. *)
Theorem reachable_exceptions (get_context_vector : ESM.t → Qc → Linalg.Vec)
  (self : APS.t) :
  APSView.reachable get_context_vector self →
  (∀ k now draw,
     ∃ selection self',
       APS.select_tasks get_context_vector self k now draw
       = Returned selection self')
  ∧ ∀ reward now exn self',
      APS.update_reward get_context_vector self reward now
      = Raised exn self' →
      exn = "LinAlgError".
Proof.
  intros Hreach. apply reachable_well_formed in Hreach as Hwf. split.
  - intros k now draw.
    destruct (select_tasks_run get_context_vector self k now draw
                (well_formed_ready self Hwf))
      as (cmab' & arm & adjustments & esm' & _ & _ & ->).
    by eexists _, _.
  - intros reward now exn self'. unfold APS.update_reward.
    destruct (CMAB.update _ _ _ _) as [u cmab'|exn' cmab'] eqn:Hupd; [done|].
    intros [= -> _].
    destruct Hwf as (_ & Hkeys & Hsel & _).
    apply cmab_update_raised_cases in Hupd
      as (arm & Harm & [(_ & Hnone & _)|[(_ & Hzero & _)|Hrest]]).
    + destruct (Hkeys arm (Hsel arm Harm)) as (_ & _ & [? Hsome]).
      congruence.
    + done.
    + destruct Hrest as (prec_old & _ & _ & _ & _
                         & [(-> & _)|(_ & Hnone & _)]); [done|].
      destruct (Hkeys arm (Hsel arm Harm)) as ([? Hsome] & _).
      congruence.
Qed.

Lemma reachable_exceptions_witness :
  ∃ selection self',
    APS.select_tasks Scenario.context_vector
      (APS.init Scenario.esm3 {| APS.task_pool := Scenario.pool3 |} None)
      (Some 2%Z) (Num.frac 5 1) Scenario.draw0
    = Returned selection self'.
Proof.
  apply (reachable_exceptions Scenario.context_vector
           (APS.init Scenario.esm3 {| APS.task_pool := Scenario.pool3 |} None)).
  apply APSView.reach_init.
Defined.

Lemma last_n_suffix {A : Type} (n : nat) (l : list A) :
  Py.last_n n l `suffix_of` l.
Proof. apply suffix_drop. Qed.

Lemma last_n_length {A : Type} (n : nat) (l : list A) :
  length (Py.last_n n l) = (length l `min` n)%nat.
Proof. unfold Py.last_n. rewrite length_drop. lia. Qed.

Lemma filter_fmap_length {A B : Type} (f : A → B) (P : B → Prop)
  `{!∀ x, Decision (P x)} (l : list A) :
  length (filter P (f <$> l)) = length (filter (λ x, P (f x)) l).
Proof.
  induction l as [|x l IH]; [done|]. csimpl.
  rewrite !filter_cons. destruct (decide (P (f x))); simpl; by rewrite IH.
Qed.

(** X16.  On such a scheduler [get_statistics] returns (no arm lacks
    its parameters), and what it reports agrees: the bandit's
    [total_selections] is the scheduler's [total_rounds]; the count of
    an arm in [strategy_counts] is the number of rounds of
    [strategy_history] that chose it; [recent_strategies] is the last
    ten rounds (all of them while fewer), each one a configured
    strategy; the parameters reported are those of the four configured
    strategies, in their order. *)
Theorem reachable_statistics (get_context_vector : ESM.t → Qc → Linalg.Vec)
  (self : APS.t) :
  APSView.reachable get_context_vector self →
  ∃ stats,
    APSView.get_statistics self = Some stats
    ∧ APSView.aps_stats stats = APS.stats self
    ∧ CMABView.total_selections (APSView.cmab_stats stats)
      = APS.total_rounds (APS.stats self)
    ∧ (∀ arm,
         default 0%nat
           (CMABView.strategy_counts (APSView.cmab_stats stats) !! arm)
         = length (filter (λ s, s = arm)
                          (APS.strategy_history (APS.stats self))))
    ∧ APSView.recent_strategies stats
      `suffix_of` APS.strategy_history (APS.stats self)
    ∧ length (APSView.recent_strategies stats)
      = (APS.total_rounds (APS.stats self) `min` 10)%nat
    ∧ Forall (λ s, s ∈ Config.strategies) (APSView.recent_strategies stats)
    ∧ (CMABView.current_parameters (APSView.cmab_stats stats)).*1
      = Config.strategies.
Proof.
  intros Hreach. apply reachable_well_formed in Hreach
    as (Hs & Hkeys & _ & _ & _ & Hrounds & Hhist & Hall).
  unfold APSView.get_statistics, CMABView.get_strategy_stats.
  destruct (mapM _ (CMAB.strategies (APS.cmab self)))
    as [parameters|] eqn:Hpar.
  2:{ exfalso. apply eq_None_not_Some in Hpar. apply Hpar, mapM_is_Some.
      rewrite Hs. apply Forall_forall. intros arm Harm.
      destruct (Hkeys arm Harm) as ([mu Hmu] & [Sigma HSigma] & _).
      unfold compose, Linalg.Matrix, Linalg.Vec in *.
      rewrite Hmu. simpl. rewrite HSigma. by eexists. }
  eexists. split; [reflexivity|]. simpl. split_and!.
  - done.
  - by rewrite Hrounds, Hhist, length_fmap.
  - intros arm. rewrite count_strategies_lookup, Hhist.
    by rewrite filter_fmap_length.
  - apply last_n_suffix.
  - by rewrite last_n_length, Hrounds.
  - apply Forall_forall. intros s Hin.
    apply (proj1 (Forall_forall _ _) Hall).
    eapply elem_of_suffix; [exact Hin|apply last_n_suffix].
  - rewrite <- Hs. apply mapM_Some_1 in Hpar. clear -Hpar.
    induction Hpar as [|arm [arm' p] l k Hhd _ IH]; [done|].
    csimpl. rewrite IH. f_equal.
    apply bind_Some in Hhd as (mu & _ & Hhd).
    by apply bind_Some in Hhd as (Sigma & _ & [= <- _]).
Qed.

Lemma reachable_statistics_witness :
  ∃ stats,
    APSView.get_statistics
      (state_after
         (APS.select_tasks Scenario.context_vector
            (APS.init Scenario.esm3 {| APS.task_pool := Scenario.pool3 |}
                      None)
            None (Num.frac 5 1) Scenario.draw0))
    = Some stats
    ∧ CMABView.total_selections (APSView.cmab_stats stats) = 1%nat.
Proof.
  destruct (reachable_statistics Scenario.context_vector
              (state_after
                 (APS.select_tasks Scenario.context_vector
                    (APS.init Scenario.esm3
                       {| APS.task_pool := Scenario.pool3 |} None)
                    None (Num.frac 5 1) Scenario.draw0)))
    as (stats & Hrun & _ & Htotal & _).
  - apply APSView.reach_select, APSView.reach_init.
  - exists stats. split; [exact Hrun|]. rewrite Htotal.
    vm_compute. reflexivity.
Defined.

(** ** EM: the sliding window *)

Lemma popleft_older_suffix (cutoff : Qc) (d : list EM.Event) :
  EM.popleft_older cutoff d `suffix_of` d.
Proof.
  induction d as [|ev d IH]; simpl; [done|].
  destruct (Num.ltb _ _); [by apply suffix_cons_r|done].
Qed.

Lemma popleft_older_head (cutoff : Qc) (d : list EM.Event) (ev : EM.Event) :
  head (EM.popleft_older cutoff d) = Some ev → cutoff ≤ EM.timestamp ev.
Proof.
  induction d as [|ev' d IH]; simpl; [done|].
  unfold Num.ltb. case_bool_decide as Hlt; [done|].
  simpl. intros [= <-]. by apply Qcnot_lt_le.
Qed.

Lemma filter_all {A : Type} (P : A → Prop) `{!∀ x, Decision (P x)}
  (l : list A) :
  Forall P l → filter P l = l.
Proof.
  induction 1 as [|x l Hx _ IH]; [done|].
  by rewrite filter_cons_True, IH.
Qed.

Lemma popleft_older_sorted (cutoff : Qc) (d : list EM.Event) :
  StronglySorted (λ a b, EM.timestamp a ≤ EM.timestamp b) d →
  EM.popleft_older cutoff d
  = filter (λ ev, cutoff ≤ EM.timestamp ev) d.
Proof.
  induction 1 as [|ev d Hd IH Hev]; simpl; [done|].
  rewrite filter_cons. unfold Num.ltb.
  case_bool_decide as Hlt.
  - rewrite decide_False by (by apply Qclt_not_le). done.
  - apply Qcnot_lt_le in Hlt. rewrite decide_True by done. f_equal.
    symmetry. apply filter_all, Forall_forall.
    intros ev' Hin. trans (EM.timestamp ev); [done|].
    by apply (proj1 (Forall_forall _ _) Hev).
Qed.

(** X17.  [_clean_recent_events] drops a prefix of [recent_events]
    and nothing else: what is left is a suffix whose oldest (first)
    event is not older than the window.  Events behind that first one
    are not looked at; when the timestamps never decrease along the
    deque, what is left is exactly the events of the window. *)
Theorem clean_recent_events_window (self : EM.t) (current_time : Qc) :
  let self' := EM._clean_recent_events self current_time in
  let cutoff_time := current_time - Config.sliding_window in
  EM.recent_events self' `suffix_of` EM.recent_events self
  ∧ (∀ ev, head (EM.recent_events self') = Some ev →
           cutoff_time ≤ EM.timestamp ev)
  ∧ (StronglySorted (λ a b, EM.timestamp a ≤ EM.timestamp b)
                    (EM.recent_events self) →
     EM.recent_events self'
     = filter (λ ev, cutoff_time ≤ EM.timestamp ev) (EM.recent_events self))
  ∧ EM.events self' = EM.events self
  ∧ EM.event_triggers self' = EM.event_triggers self
  ∧ EM.measurement_history self' = EM.measurement_history self
  ∧ EM.stats self' = EM.stats self
  ∧ EM.core_entities self' = EM.core_entities self.
Proof.
  simpl. split_and!; try done.
  - apply popleft_older_suffix.
  - apply popleft_older_head.
  - apply popleft_older_sorted.
Qed.

(** ** EM: the events of [_detect_anomalies] *)

Lemma stability_bar :
  Config.stability_threshold / Config.max_stability = Num.frac 3 5.
Proof. by apply Qc_is_canon. Qed.

Lemma spike_severity (d sd : Qc) :
  0 < sd → Config.rtt_spike_factor * sd < d →
  Num.frac 3 5 < d / (Num.frac 5 1 * sd).
Proof.
  intros Hsd Hd.
  assert (Hpos : 0 < Num.frac 5 1 * sd).
  { apply Qcmult_pos_pos; [by vm_compute|done]. }
  apply (Qcmult_lt_mono_pos_r _ _ (Num.frac 5 1 * sd) Hpos).
  replace (d / (Num.frac 5 1 * sd) * (Num.frac 5 1 * sd)) with d
    by (field; split; [by apply Qclt_not_eq in Hsd|done]).
  replace (Num.frac 3 5 * (Num.frac 5 1 * sd))
    with (Config.rtt_spike_factor * sd); [done|].
  rewrite Qcmult_assoc. f_equal.
Qed.

Lemma deque_append_length {A : Type} (maxlen : nat) (d : list A) (x : A) :
  length (EM.deque_append maxlen d x) = (S (length d) `min` maxlen)%nat.
Proof.
  unfold EM.deque_append. rewrite length_drop, !length_app.
  change (length [x]) with 1%nat. lia.
Qed.

Lemma detect_anomalies_shape (np_mean np_std : list Qc → Qc)
  (self : EM.t) (e m : string) (state : ESM.EntityState) (now : Qc) :
  let events := (EM._detect_anomalies np_mean np_std self e m state now).2 in
  (length events ≤ 2)%nat
  ∧ NoDup (EM.event_type <$> events)
  ∧ ∀ ev, ev ∈ events →
      EM.entity_id ev = e ∧ EM.metric ev = m ∧ EM.timestamp ev = now
      ∧ Num.frac 1 5 < EM.severity ev
      ∧ ((EM.event_type ev = "liveness_low"
          ∧ m = Config.LIVENESS
          ∧ ESM.confidence (ESM.distribution state)
            < Config.liveness_threshold
          ∧ EM.severity ev = 1 - ESM.confidence (ESM.distribution state))
         ∨ (EM.event_type ev = "high_instability"
            ∧ m ≠ Config.LIVENESS
            ∧ Num.frac 3 5 < ESM.get_stability state
            ∧ Num.frac 3 5 < EM.severity ev ∧ EM.severity ev ≤ 1)
         ∨ (EM.event_type ev = "rtt_spike"
            ∧ m = Config.RTT
            ∧ is_Some (ESM.mu (ESM.distribution state))
            ∧ (9 ≤ length (default [] (EM.measurement_history self
                                         !! (e, m))))%nat
            ∧ Num.frac 3 5 < EM.severity ev ∧ EM.severity ev ≤ 1)).
Proof.
  intros events. pattern events. set (P := λ l : list EM.Event, _).
  subst events. unfold EM._detect_anomalies.
  destruct (decide (m = Config.LIVENESS)) as [Hm|Hm].
  { unfold Num.ltb. case_bool_decide as Hp; subst P; cbn beta; cbn [snd].
    - split_and!; [simpl; lia|repeat constructor; by intros ?%elem_of_nil|].
      intros ev ->%list_elem_of_singleton. simpl.
      split_and!; try done.
      + revert Hp. unfold Config.liveness_threshold. intros Hp. qc_lra.
      + by left.
    - split_and!; [simpl; lia|constructor|]. intros ev Hev.
      by apply elem_of_nil in Hev. }
  rewrite stability_bar.
  set (stability := ESM.get_stability state).
  set (events := if Num.ltb _ _ then _ else _).
  assert (Hunstable : ∀ ev, ev ∈ events →
    EM.entity_id ev = e ∧ EM.metric ev = m ∧ EM.timestamp ev = now
    ∧ Num.frac 1 5 < EM.severity ev
    ∧ EM.event_type ev = "high_instability"
    ∧ Num.frac 3 5 < stability
    ∧ Num.frac 3 5 < EM.severity ev ∧ EM.severity ev ≤ 1).
  { intros ev. subst events. unfold Num.ltb at 1. case_bool_decide as Hs.
    - intros ->%list_elem_of_singleton. simpl.
      split_and!; try done; qc_cases; qc_lra.
    - intros Hev. by apply elem_of_nil in Hev. }
  assert (Hlen : (length events ≤ 1)%nat)
    by (subst events; destruct (Num.ltb _ _); simpl; lia).
  assert (Htypes : NoDup (EM.event_type <$> events)
                   ∧ "rtt_spike" ∉ EM.event_type <$> events).
  { clearbody events. destruct events as [|ev [|ev' evs]]; simpl in *; [| |lia].
    - split; [constructor|by intros ?%elem_of_nil].
    - destruct (Hunstable ev) as (_ & _ & _ & _ & Hty & _); [left|].
      csimpl. rewrite Hty.
      split; [repeat constructor; by intros ?%elem_of_nil|].
      by intros ?%list_elem_of_singleton. }
  destruct Htypes as [Hnd Hno].
  assert (Hplain : P events).
  { subst P. cbn beta. split_and!; [lia|done|]. intros ev Hev.
    destruct (Hunstable ev Hev) as (? & ? & ? & ? & ? & ? & ? & ?).
    split_and!; try done. right. left. by split_and!. }
  clearbody events.
  destruct (ESM.mu (ESM.distribution state)) as [current_value|] eqn:Hmu;
    [|exact Hplain].
  case_bool_decide as Hten; [|exact Hplain].
  unfold Num.ltb at 1. case_bool_decide as Hstd; [|exact Hplain].
  destruct (decide (m = Config.RTT)) as [Hrtt|Hrtt]; [|exact Hplain].
  unfold Num.ltb at 1. case_bool_decide as Hspike; [|exact Hplain].
  rewrite deque_append_length in Hten.
  assert (Hsev := spike_severity _ _ Hstd Hspike).
  destruct Hplain as (_ & _ & Hplain).
  subst P. cbn beta. cbn [snd]. split_and!.
  - rewrite length_app. simpl. lia.
  - rewrite fmap_app. apply NoDup_app. split_and!; [done| |].
    + by intros ty Hty ->%list_elem_of_singleton.
    + repeat constructor. by intros ?%elem_of_nil.
  - intros ev [Hev| ->%list_elem_of_singleton]%elem_of_app.
    + by apply Hplain.
    + simpl. split_and!; try done.
      * qc_cases; qc_lra.
      * right. right. split_and!; try done.
        -- lia.
        -- qc_cases; qc_lra.
        -- qc_cases; qc_lra.
Qed.

(** X18.  What [_detect_anomalies] can return for one state: at most
    two events, of different types, each on the pair it was called
    for, stamped with the clock and with a severity above 0.2.  A
    [liveness_low] event comes only from a liveness state (confidence
    below 0.8, severity one minus the confidence); a
    [high_instability] event only from a state of another metric
    whose [get_stability()] is above 0.6, with a severity in
    (0.6, 1]; an [rtt_spike] event only from an
    rtt state whose pair has nine measurements or more in the history
    already, with a severity in (0.6, 1].  No other type is produced:
    there is no [plr_spike]. *)
Theorem detect_anomalies_events (np_mean np_std : list Qc → Qc)
  (self : EM.t) (e m : string) (state : ESM.EntityState) (now : Qc) :
  let events := (EM._detect_anomalies np_mean np_std self e m state now).2 in
  (length events ≤ 2)%nat
  ∧ NoDup (EM.event_type <$> events)
  ∧ ∀ ev, ev ∈ events →
      EM.entity_id ev = e ∧ EM.metric ev = m ∧ EM.timestamp ev = now
      ∧ Num.frac 1 5 < EM.severity ev
      ∧ ((EM.event_type ev = "liveness_low"
          ∧ m = Config.LIVENESS
          ∧ ESM.confidence (ESM.distribution state)
            < Config.liveness_threshold
          ∧ EM.severity ev = 1 - ESM.confidence (ESM.distribution state))
         ∨ (EM.event_type ev = "high_instability"
            ∧ m ≠ Config.LIVENESS
            ∧ Num.frac 3 5 < ESM.get_stability state
            ∧ Num.frac 3 5 < EM.severity ev ∧ EM.severity ev ≤ 1)
         ∨ (EM.event_type ev = "rtt_spike"
            ∧ m = Config.RTT
            ∧ is_Some (ESM.mu (ESM.distribution state))
            ∧ (9 ≤ length (default [] (EM.measurement_history self
                                         !! (e, m))))%nat
            ∧ Num.frac 3 5 < EM.severity ev ∧ EM.severity ev ≤ 1)).
Proof. apply detect_anomalies_shape. Qed.

(** ** EM: a detection pass, step by step *)

Section Pass.

Variables np_mean np_std : list Qc → Qc.
Variable now : Qc.

Lemma detect_anomalies_keeps self e m state :
  let r := EM._detect_anomalies np_mean np_std self e m state now in
  EM.events r.1 = EM.events self
  ∧ EM.stats r.1 = EM.stats self.
Proof.
  unfold EM._detect_anomalies.
  repeat (destruct (decide _) || case_match); by simpl.
Qed.

Lemma on_event_adds e m self ev :
  EM.events (EM.on_event e m self ev)
  = EM.deque_append EM.events_maxlen (EM.events self) ev
  ∧ EM.stats (EM.on_event e m self ev) = EM.stats (EM._add_event self ev)
  ∧ EM.measurement_history (EM.on_event e m self ev)
    = EM.measurement_history self.
Proof. unfold EM.on_event. by destruct (decide _). Qed.

(** A property of the event manager and of the events fired so far
    that every step of a pass keeps holds when the pass is over. *)
Lemma pass_fold (I : EM.t → list EM.Event → Prop)
  (items : list (string * string * ESM.EntityState)) :
  (∀ self fired e m state,
     ((e, m), state) ∈ items → I self fired →
     I (EM._detect_anomalies np_mean np_std self e m state now).1 fired) →
  (∀ self self0 fired e m state ev,
     ((e, m), state) ∈ items →
     ev ∈ (EM._detect_anomalies np_mean np_std self0 e m state now).2 →
     I self fired → I (EM.on_event e m self ev) (fired ++ [ev])) →
  ∀ self fired,
    I self fired →
    ∃ events,
      I (foldl (EM.on_state np_mean np_std now) self items)
        (fired ++ events)
      ∧ EM.recent_events (foldl (EM.on_state np_mean np_std now) self items)
        = EM.recent_events self ++ events.
Proof.
  intros Hdetect Hevent.
  assert (Hgen : ∀ l, l ⊆ items → ∀ self fired,
    I self fired →
    ∃ events,
      I (foldl (EM.on_state np_mean np_std now) self l) (fired ++ events)
      ∧ EM.recent_events (foldl (EM.on_state np_mean np_std now) self l)
        = EM.recent_events self ++ events); [|by apply Hgen].
  induction l as [|[[e m] state] l IH]; intros Hsub self fired HI.
  - exists []. by rewrite !(right_id_L [] (++)).
  - assert (Hin : ((e, m), state) ∈ items) by (apply Hsub; left).
    simpl.
    assert (Hd := Hdetect self fired e m state Hin HI).
    assert (Hev := λ ev, Hevent ev self).
    destruct (detect_anomalies_frame np_mean np_std self e m state now)
      as (Hrecent & _).
    assert (Hevs : ∀ ev,
      ev ∈ (EM._detect_anomalies np_mean np_std self e m state now).2 →
      ∃ self0,
        ev ∈ (EM._detect_anomalies np_mean np_std self0 e m state now).2)
      by eauto.
    destruct (EM._detect_anomalies np_mean np_std self e m state now)
      as [self1 events].
    simpl in Hd, Hrecent, Hevs. rewrite <- Hrecent. clear Hrecent Hev.
    assert (Hstep : ∀ self2 fired2,
      I self2 fired2 →
      I (foldl (EM.on_event e m) self2 events) (fired2 ++ events)
      ∧ EM.recent_events (foldl (EM.on_event e m) self2 events)
        = EM.recent_events self2 ++ events).
    { clear Hd. induction events as [|ev events IHev]; intros self2 fired2 HI2.
      - simpl. by rewrite !(right_id_L [] (++)).
      - simpl. destruct (Hevs ev) as [self0 Hev0]; [left|].
        destruct (IHev (λ ev' Hin', Hevs ev' (list_elem_of_further _ _ _ Hin'))
                    (EM.on_event e m self2 ev) (fired2 ++ [ev]))
          as [HI3 Hr3]; [by eapply Hevent|].
        rewrite Hr3, on_event_recent, <- !(assoc_L (++)).
        rewrite <- (assoc_L (++)) in HI3. done. }
    destruct (Hstep self1 fired Hd) as [HI1 Hr1].
    destruct (IH (λ x Hx, Hsub x (list_elem_of_further _ _ _ Hx)) _ _ HI1)
      as (events' & HI' & Hr').
    exists (events ++ events').
    by rewrite Hr', Hr1, !(assoc_L (++)).
Qed.

Lemma count_by_snoc f v fired ev :
  Props.count_by f v (fired ++ [ev])
  = (Props.count_by f v fired + if decide (f ev = v) then 1 else 0)%nat.
Proof.
  unfold Props.count_by. rewrite filter_app, length_app.
  rewrite filter_cons, filter_nil. by destruct (decide _).
Qed.

Lemma accounted_pass self esm :
  Props.accounted self
    (EM.check_and_detect_events np_mean np_std self esm now)
    (Spec.fired_in_pass np_mean np_std self esm now).
Proof.
  unfold Spec.fired_in_pass, EM.check_and_detect_events.
  set (start := EM.with_event_triggers (EM._clean_recent_events self now) ∅).
  destruct (pass_fold (Props.accounted self)
              (map_to_list (ESM.state_table esm))) with (self := start)
              (fired := @nil EM.Event) as (events & Hacc & Hrecent).
  - intros s fired e m state _ (Ht & Hty & He & Hm & Hev).
    destruct (detect_anomalies_keeps s e m state) as [Hevents Hstats].
    unfold Props.accounted. by rewrite Hevents, Hstats.
  - intros s _ fired e m state ev _ _ (Ht & Hty & He & Hm & Hev).
    destruct (on_event_adds e m s ev) as (Hevents & Hstats & _).
    unfold Props.accounted. rewrite Hevents, Hstats. simpl.
    rewrite length_app, foldl_app. simpl. split_and!.
    + rewrite Ht. lia.
    + intros v. rewrite incr_lookup, count_by_snoc, Hty.
      destruct (decide _); lia.
    + intros v. rewrite incr_lookup, count_by_snoc, He.
      destruct (decide _); lia.
    + intros v. rewrite incr_lookup, count_by_snoc, Hm.
      destruct (decide _); lia.
    + by rewrite Hev.
  - unfold Props.accounted, Props.count_by. simpl. split_and!; try done; lia.
  - rewrite Hrecent. simpl. by rewrite drop_app_length.
Qed.

End Pass.

Section PassFacts.

Variables np_mean np_std : list Qc → Qc.
Variable now : Qc.

Lemma on_events_recent e m events :
  ∀ self,
    EM.recent_events (foldl (EM.on_event e m) self events)
    = EM.recent_events self ++ events.
Proof.
  induction events as [|ev events IH]; intros self; simpl.
  - by rewrite (right_id_L [] (++)).
  - by rewrite IH, on_event_recent, <- (assoc_L (++)).
Qed.

Lemma on_state_recent self e m state :
  EM.recent_events (EM.on_state np_mean np_std now self ((e, m), state))
  = EM.recent_events self
    ++ (EM._detect_anomalies np_mean np_std self e m state now).2.
Proof.
  unfold EM.on_state.
  destruct (detect_anomalies_frame np_mean np_std self e m state now)
    as (Hrecent & _).
  destruct (EM._detect_anomalies np_mean np_std self e m state now)
    as [self1 events].
  simpl in *. by rewrite on_events_recent, Hrecent.
Qed.

Lemma on_states_recent items :
  ∀ self,
    ∃ events,
      EM.recent_events (foldl (EM.on_state np_mean np_std now) self items)
      = EM.recent_events self ++ events.
Proof.
  intros self.
  destruct (pass_fold np_mean np_std now (λ _ _, True) items)
    with (self := self) (fired := @nil EM.Event) as (events & _ & Hrecent);
    try done.
  by exists events.
Qed.

(** Every event of a pass comes from [_detect_anomalies] on a state of
    the table. *)
Lemma fired_sound self esm ev :
  ev ∈ Spec.fired_in_pass np_mean np_std self esm now →
  ∃ e m state self0,
    ESM.state_table esm !! (e, m) = Some state
    ∧ ev ∈ (EM._detect_anomalies np_mean np_std self0 e m state now).2.
Proof.
  unfold Spec.fired_in_pass, EM.check_and_detect_events.
  set (start := EM.with_event_triggers (EM._clean_recent_events self now) ∅).
  destruct (pass_fold np_mean np_std now
              (λ _ fired, ∀ ev, ev ∈ fired →
                 ∃ e m state self0,
                   ESM.state_table esm !! (e, m) = Some state
                   ∧ ev ∈ (EM._detect_anomalies np_mean np_std self0 e m
                             state now).2)
              (map_to_list (ESM.state_table esm)))
    with (self := start) (fired := @nil EM.Event)
    as (events & Hall & Hrecent).
  - done.
  - intros s s0 fired e m state ev' Hin Hev' Hfired ev''
      [Hold| ->%list_elem_of_singleton]%elem_of_app; [by apply Hfired|].
    exists e, m, state, s0. split; [|done].
    by apply elem_of_map_to_list in Hin.
  - by intros ev' ?%elem_of_nil.
  - rewrite Hrecent. simpl. rewrite drop_app_length. apply Hall.
Qed.

(** An event that [_detect_anomalies] returns for a state of the
    table, whatever the event manager holds, is fired by the pass. *)
Lemma fired_complete self esm e m state ev :
  ESM.state_table esm !! (e, m) = Some state →
  (∀ self0,
     ev ∈ (EM._detect_anomalies np_mean np_std self0 e m state now).2) →
  ev ∈ Spec.fired_in_pass np_mean np_std self esm now.
Proof.
  intros Hstate Hev.
  unfold Spec.fired_in_pass, EM.check_and_detect_events.
  set (start := EM.with_event_triggers (EM._clean_recent_events self now) ∅).
  apply elem_of_map_to_list, list_elem_of_split in Hstate
    as (l1 & l2 & ->).
  rewrite foldl_app. cbn [foldl].
  destruct (on_states_recent l1 start) as (events1 & Hr1).
  set (s1 := foldl _ start l1) in *.
  destruct (on_states_recent l2
              (EM.on_state np_mean np_std now s1 ((e, m), state)))
    as (events2 & ->).
  rewrite on_state_recent, Hr1. simpl.
  rewrite <- !(assoc_L (++)), drop_app_length.
  apply elem_of_app. right. apply elem_of_app. left. apply Hev.
Qed.

Lemma liveness_low_fired self esm e :
  Spec.fired_on (Spec.fired_in_pass np_mean np_std self esm now)
                e Config.LIVENESS
  ↔ ∃ state,
      ESM.state_table esm !! (e, Config.LIVENESS) = Some state
      ∧ ESM.confidence (ESM.distribution state) < Config.liveness_threshold.
Proof.
  split.
  - intros (ev & Hev & He & Hm).
    apply fired_sound in Hev as (e' & m' & state & self0 & Hstate & Hev).
    destruct (detect_anomalies_shape np_mean np_std self0 e' m' state now)
      as (_ & _ & Hshape).
    destruct (Hshape ev Hev) as (He' & Hm' & _ & _ & Hkind).
    rewrite He in He'. rewrite Hm in Hm'. subst e' m'.
    exists state. split; [done|].
    destruct Hkind as [(_ & _ & Hlow & _)|[(_ & Hne & _)|(_ & Hrtt & _)]];
      done.
  - intros (state & Hstate & Hlow).
    exists {| EM.entity_id := e; EM.metric := Config.LIVENESS;
              EM.event_type := "liveness_low";
              EM.severity := 1 - ESM.confidence (ESM.distribution state);
              EM.timestamp := now;
              EM.details :=
                [("p_up", ESM.confidence (ESM.distribution state))] |}.
    split; [|done].
    apply (fired_complete self esm e Config.LIVENESS state); [done|].
    intros self0. unfold EM._detect_anomalies.
    rewrite decide_True by done. unfold Num.ltb.
    rewrite bool_decide_eq_true_2 by done. simpl. left.
Qed.

Lemma high_instability_fired self esm e m state :
  ESM.state_table esm !! (e, m) = Some state →
  m ≠ Config.LIVENESS →
  Config.stability_threshold / Config.max_stability
  < ESM.get_stability state →
  Spec.fired_on (Spec.fired_in_pass np_mean np_std self esm now) e m.
Proof.
  intros Hstate Hm Hunstable.
  exists {| EM.entity_id := e; EM.metric := m;
            EM.event_type := "high_instability";
            EM.severity := Num.py_min (ESM.get_stability state) 1;
            EM.timestamp := now;
            EM.details := [("stability", ESM.get_stability state)] |}.
  split; [|done].
  apply (fired_complete self esm e m state); [done|].
  intros self0. unfold EM._detect_anomalies.
  rewrite decide_False by done. unfold Num.ltb.
  rewrite (bool_decide_eq_true_2 _ Hunstable).
  repeat (case_match; simpl; try (by left));
    apply elem_of_app; left; by left.
Qed.

End PassFacts.

Lemma last_n_app {A : Type} (n : nat) (a b : list A) :
  Py.last_n n (Py.last_n n a ++ b) = Py.last_n n (a ++ b).
Proof.
  unfold Py.last_n.
  rewrite <- (drop_app_le a b (length a - n)) by lia.
  rewrite drop_drop, length_drop, !length_app. f_equal. lia.
Qed.

Lemma deque_append_last_n {A : Type} (n : nat) (d : list A) (x : A) :
  EM.deque_append n d x = Py.last_n n (d ++ [x]).
Proof. done. Qed.

Lemma foldl_deque_append {A : Type} (n : nat) (d l : list A) :
  (length d ≤ n)%nat →
  foldl (EM.deque_append n) d l = Py.last_n n (d ++ l).
Proof.
  intros Hd. induction l as [|x l IH] using rev_ind.
  - simpl. rewrite (right_id_L [] (++)). unfold Py.last_n.
    by replace (length d - n)%nat with 0%nat by lia.
  - rewrite foldl_app. simpl.
    by rewrite IH, deque_append_last_n, last_n_app, (assoc_L (++)).
Qed.

(** X19.  The books of a detection pass balance.  With [fired] the
    events the pass appends to [recent_events]: [total_events] grows
    by their number; the counters by type, by entity and by metric
    grow, for every key, by the number of fired events with that type,
    entity or metric; and the deque [events], when it was within its
    bound of 10000, holds the last 10000 of the old events followed by
    the fired ones. *)
Theorem pass_accounting (np_mean np_std : list Qc → Qc) (self : EM.t)
  (esm : ESM.t) (now : Qc) :
  let self' := EM.check_and_detect_events np_mean np_std self esm now in
  let fired := Spec.fired_in_pass np_mean np_std self esm now in
  EM.recent_events self'
  = EM.recent_events (EM._clean_recent_events self now) ++ fired
  ∧ EM.total_events (EM.stats self')
    = (EM.total_events (EM.stats self) + length fired)%nat
  ∧ (∀ ty, default 0%nat (EM.events_by_type (EM.stats self') !! ty)
           = (default 0%nat (EM.events_by_type (EM.stats self) !! ty)
              + length (filter (λ ev, EM.event_type ev = ty) fired))%nat)
  ∧ (∀ e, default 0%nat (EM.events_by_entity (EM.stats self') !! e)
          = (default 0%nat (EM.events_by_entity (EM.stats self) !! e)
             + length (filter (λ ev, EM.entity_id ev = e) fired))%nat)
  ∧ (∀ m, default 0%nat (EM.events_by_metric (EM.stats self') !! m)
          = (default 0%nat (EM.events_by_metric (EM.stats self) !! m)
             + length (filter (λ ev, EM.metric ev = m) fired))%nat)
  ∧ ((length (EM.events self) ≤ EM.events_maxlen)%nat →
     EM.events self' = Py.last_n EM.events_maxlen (EM.events self ++ fired)).
Proof.
  intros self' fired.
  destruct (accounted_pass np_mean np_std now self esm)
    as (Ht & Hty & He & Hm & Hev).
  destruct (check_and_detect_events_inv np_mean np_std self esm now)
    as (Hrecent & _).
  split_and!; try done.
  intros Hbound. unfold self'. rewrite Hev. by apply foldl_deque_append.
Qed.

(** X20.  Detection and triggering together.  After a pass, the
    liveness trigger of an entity is 1.0 exactly when ESM holds a
    liveness state for it whose confidence is below 0.8, and 0.0
    otherwise: no escalation reaches a liveness pair, and nothing
    survives from earlier passes.  For the other metrics, a state
    whose [get_stability()] is above 0.6 (the threshold 3.0 over the
    maximum 5.0) has its trigger at 1.0; when it is the rtt state of a core
    entity, the plr and bandwidth triggers of the entity are at 1.0
    too, whether ESM holds states for them or not. *)
Theorem triggers_follow_states (np_mean np_std : list Qc → Qc) (self : EM.t)
  (esm : ESM.t) (now : Qc) :
  let self' := EM.check_and_detect_events np_mean np_std self esm now in
  (∀ e,
     EM.get_event_trigger self' e Config.LIVENESS
     = match ESM.state_table esm !! (e, Config.LIVENESS) with
       | Some state =>
         if Num.ltb (ESM.confidence (ESM.distribution state))
                    Config.liveness_threshold
         then 1 else 0
       | None => 0
       end)
  ∧ (∀ e m state,
       ESM.state_table esm !! (e, m) = Some state →
       m ≠ Config.LIVENESS →
       Config.stability_threshold / Config.max_stability
       < ESM.get_stability state →
       EM.get_event_trigger self' e m = 1)
  ∧ ∀ e state,
      e ∈ EM.core_entities self →
      ESM.state_table esm !! (e, Config.RTT) = Some state →
      Config.stability_threshold / Config.max_stability
      < ESM.get_stability state →
      EM.get_event_trigger self' e Config.PLR = 1
      ∧ EM.get_event_trigger self' e Config.BANDWIDTH = 1.
Proof.
  intros self'.
  destruct (check_and_detect_events_inv np_mean np_std self esm now)
    as (_ & _ & Hone & Hraised).
  fold self' in Hone, Hraised.
  assert (Hset : ∀ e m,
    Spec.raised (EM.core_entities self)
      (Spec.fired_in_pass np_mean np_std self esm now) e m →
    EM.get_event_trigger self' e m = 1).
  { intros e m [v Hv]%Hraised. unfold EM.get_event_trigger.
    rewrite Hv. simpl. by eapply Hone. }
  assert (Hunset : ∀ e m,
    ¬ Spec.raised (EM.core_entities self)
        (Spec.fired_in_pass np_mean np_std self esm now) e m →
    EM.get_event_trigger self' e m = 0).
  { intros e m Hno. unfold EM.get_event_trigger.
    destruct (EM.event_triggers self' !! (e, m)) as [v|] eqn:Hv; [|done].
    exfalso. apply Hno, Hraised. by eexists. }
  split_and!.
  - intros e.
    assert (Hlow := liveness_low_fired np_mean np_std now self esm e).
    destruct (ESM.state_table esm !! (e, Config.LIVENESS)) as [state|].
    + unfold Num.ltb. case_bool_decide as Hp.
      * apply Hset. left. apply Hlow. by exists state.
      * apply Hunset. intros [Hfired|(_ & _ & [Hm|Hm])]; [|done..].
        apply Hlow in Hfired as (state' & [= <-] & Hp'). done.
    + apply Hunset. intros [Hfired|(_ & _ & [Hm|Hm])]; [|done..].
      by apply Hlow in Hfired as (state' & [=] & _).
  - intros e m state Hstate Hm Hunstable. apply Hset. left.
    by eapply high_instability_fired.
  - intros e state Hcore Hstate Hunstable.
    assert (Hrtt : Spec.fired_on
                     (Spec.fired_in_pass np_mean np_std self esm now)
                     e Config.RTT)
      by (by eapply high_instability_fired).
    split; apply Hset; right; split_and!; auto.
Qed.

(** ** EM: what every reachable event manager satisfies *)

Lemma sum_counts_insert (k : string) (n : nat) (m : gmap string nat) :
  (Props.sum_counts (<[k := n]> m) + default 0 (m !! k)
   = Props.sum_counts m + n)%nat.
Proof.
  unfold Props.sum_counts.
  assert (Hcomm : ∀ (j1 j2 : string) (z1 z2 y : nat),
    (z1 + (z2 + y) = z2 + (z1 + y))%nat) by (intros; lia).
  destruct (m !! k) as [v|] eqn:Hk; simpl.
  - rewrite <- insert_delete_eq.
    rewrite map_fold_insert_L;
      [|by intros; apply Hcomm|by apply lookup_delete_eq].
    rewrite (map_fold_delete_L _ _ k v m); [|by intros; apply Hcomm|done].
    lia.
  - rewrite map_fold_insert_L; [|by intros; apply Hcomm|done]. lia.
Qed.

Lemma sum_counts_incr (k : string) (m : gmap string nat) :
  Props.sum_counts (EM.incr k m) = S (Props.sum_counts m).
Proof.
  unfold EM.incr.
  assert (H := sum_counts_insert k (S (default 0%nat (m !! k))) m). lia.
Qed.

Lemma last_n_suffix_app {A : Type} (n : nat) (d : list A) (x : A) :
  EM.deque_append n d x `suffix_of` d ++ [x].
Proof. apply suffix_drop. Qed.

Lemma em_consistent_pass (np_mean np_std : list Qc → Qc) (self : EM.t)
  (esm : ESM.t) (now : Qc) :
  Props.em_consistent self →
  Props.em_consistent
    (EM.check_and_detect_events np_mean np_std self esm now).
Proof.
  intros (Hty & He & Hm & Hlen & Hhist & _ & Hall).
  destruct (check_and_detect_events_inv np_mean np_std self esm now)
    as (_ & _ & Hone & _).
  set (I := λ (s : EM.t) (_ : list EM.Event),
    EM.total_events (EM.stats s)
    = Props.sum_counts (EM.events_by_type (EM.stats s))
    ∧ EM.total_events (EM.stats s)
      = Props.sum_counts (EM.events_by_entity (EM.stats s))
    ∧ EM.total_events (EM.stats s)
      = Props.sum_counts (EM.events_by_metric (EM.stats s))
    ∧ length (EM.events s)
      = (EM.total_events (EM.stats s) `min` EM.events_maxlen)%nat
    ∧ (∀ k h, EM.measurement_history s !! k = Some h →
              (1 ≤ length h ≤ EM.history_maxlen)%nat)
    ∧ Forall (λ ev, EM.event_type ev ∈ Props.event_types
                    ∧ Num.frac 1 5 < EM.severity ev)
             (EM.events s ++ EM.recent_events s)).
  unfold EM.check_and_detect_events in *.
  set (start := EM.with_event_triggers (EM._clean_recent_events self now) ∅)
    in *.
  destruct (pass_fold np_mean np_std now I
              (map_to_list (ESM.state_table esm)))
    with (self := start) (fired := @nil EM.Event)
    as (events & (Hty' & He' & Hm' & Hlen' & Hhist' & Hall') & _).
  - intros s fired e m state _ (Hty1 & He1 & Hm1 & Hlen1 & Hhist1 & Hall1).
    destruct (detect_anomalies_keeps np_mean np_std now s e m state)
      as [Hevents Hstats].
    destruct (detect_anomalies_frame np_mean np_std s e m state now)
      as (Hrecent & _).
    unfold I. rewrite Hevents, Hstats, Hrecent.
    split_and!; try done.
    intros k h. unfold EM._detect_anomalies.
    assert (Hnew : ∀ x, 
      <[(e, m) := EM.deque_append EM.history_maxlen
                    (default [] (EM.measurement_history s !! (e, m))) x]>
        (EM.measurement_history s) !! k = Some h →
      (1 ≤ length h ≤ EM.history_maxlen)%nat).
    { intros x [[_ <-]|[_ Hold]]%lookup_insert_Some; [|by eapply Hhist1].
      rewrite deque_append_length. unfold EM.history_maxlen. lia. }
    repeat (destruct (decide _) || case_match); simpl;
      solve [apply Hhist1 | apply Hnew].
  - intros s s0 fired e m state ev _ Hev
      (Hty1 & He1 & Hm1 & Hlen1 & Hhist1 & Hall1).
    destruct (on_event_adds e m s ev)
      as (Hevents & Hstats & Hhistory).
    unfold I. rewrite Hevents, Hstats, Hhistory, on_event_recent.
    unfold EM._add_event.
    cbn [EM.stats EM.total_events EM.events_by_type EM.events_by_entity
         EM.events_by_metric].
    rewrite !sum_counts_incr, <- Hty1, <- He1, <- Hm1, deque_append_length.
    split_and!; try done.
    + rewrite Hlen1. lia.
    + apply Forall_app in Hall1 as [Hevs Hrec].
      assert (Hnew : EM.event_type ev ∈ Props.event_types
                     ∧ Num.frac 1 5 < EM.severity ev).
      { destruct (detect_anomalies_shape np_mean np_std s0 e m state now)
          as (_ & _ & Hshape).
        destruct (Hshape ev Hev) as (_ & _ & _ & Hsev & Hkind).
        split; [|done]. unfold Props.event_types.
        destruct Hkind as [(-> & _)|[(-> & _)|(-> & _)]];
          repeat ((by left) || right). }
      apply Forall_app. split.
      * eapply Forall_forall. intros x Hx.
        eapply elem_of_suffix in Hx; [|apply last_n_suffix_app].
        apply elem_of_app in Hx as [Hx| ->%list_elem_of_singleton]; [|done].
        by apply (proj1 (Forall_forall _ _) Hevs).
      * apply Forall_app. split; [done|by constructor].
  - unfold I. simpl. split_and!; try done.
    apply Forall_app in Hall as [Hevs Hrec].
    apply Forall_app. split; [done|].
    apply Forall_forall. intros x Hx.
    eapply elem_of_suffix in Hx; [|apply popleft_older_suffix].
    by apply (proj1 (Forall_forall _ _) Hrec).
  - by split_and!.
Qed.

Lemma reachable_consistent (np_mean np_std : list Qc → Qc) (self : EM.t) :
  EMView.reachable np_mean np_std self → Props.em_consistent self.
Proof.
  induction 1 as [|self e _ IH|self esm now _ IH].
  - unfold Props.em_consistent. simpl. by split_and!.
  - exact IH.
  - by apply em_consistent_pass.
Qed.

(** X21.  An event manager built by [__init__] and driven by
    [add_core_entity] and [check_and_detect_events], whatever ESM
    holds at each pass, keeps its books: [total_events] is the sum of
    the counters by type, by entity and by metric; the deque [events]
    holds [min(total_events, 10000)] events; every measurement history
    it keeps has between 1 and 100 values; every trigger it holds is
    1.0, so that [get_event_trigger] returns 0.0 or 1.0; and every
    event it remembers has one of the three types and a severity above
    0.2. *)
Theorem reachable_event_manager (np_mean np_std : list Qc → Qc)
  (self : EM.t) :
  EMView.reachable np_mean np_std self →
  EM.total_events (EM.stats self)
  = Props.sum_counts (EM.events_by_type (EM.stats self))
  ∧ EM.total_events (EM.stats self)
    = Props.sum_counts (EM.events_by_entity (EM.stats self))
  ∧ EM.total_events (EM.stats self)
    = Props.sum_counts (EM.events_by_metric (EM.stats self))
  ∧ length (EM.events self)
    = (EM.total_events (EM.stats self) `min` EM.events_maxlen)%nat
  ∧ (∀ k h, EM.measurement_history self !! k = Some h →
            (1 ≤ length h ≤ 100)%nat)
  ∧ (∀ e m, EM.get_event_trigger self e m = 0
            ∨ EM.get_event_trigger self e m = 1)
  ∧ ∀ ev, ev ∈ EM.events self ∨ ev ∈ EM.recent_events self →
          EM.event_type ev ∈ ["liveness_low"; "high_instability"; "rtt_spike"]
          ∧ Num.frac 1 5 < EM.severity ev.
Proof.
  intros (Hty & He & Hm & Hlen & Hhist & Hone & Hall)%reachable_consistent.
  split_and!; try done.
  - intros e m. unfold EM.get_event_trigger.
    destruct (EM.event_triggers self !! (e, m)) as [v|] eqn:Hv; [|by left].
    right. simpl. by eapply Hone.
  - intros ev Hev. apply (proj1 (Forall_forall _ _) Hall).
    by apply elem_of_app.
Qed.

Lemma reachable_event_manager_witness :
  EM.total_events (EM.stats Runs.em_down)
  = Props.sum_counts (EM.events_by_type (EM.stats Runs.em_down))
  ∧ length (EM.events Runs.em_down) = 1%nat.
Proof.
  destruct (reachable_event_manager Scenario.no_statistic
              Scenario.no_statistic Runs.em_down) as (Hty & _ & _ & Hlen & _).
  - apply EMView.reach_pass, EMView.reach_init.
  - split; [exact Hty|]. reflexivity.
Defined.

(** ** Sorting newest first and slicing *)

Section SortedDesc.

Context {A : Type} (key : A → Qc).

Lemma py_insert_desc_perm (x : A) (l : list A) :
  Py.insert_desc key x l ≡ₚ x :: l.
Proof.
  induction l as [|y l IH]; simpl; [done|].
  destruct (Num.ltb _ _); [|done].
  rewrite IH. apply Permutation_swap.
Qed.

Lemma py_sorted_desc_perm (l : list A) : Py.sorted_desc key l ≡ₚ l.
Proof.
  induction l as [|x l IH]; simpl; [done|].
  by rewrite py_insert_desc_perm, IH.
Qed.

Lemma py_insert_desc_sorted (x : A) (l : list A) :
  StronglySorted (λ a b, key b ≤ key a) l →
  StronglySorted (λ a b, key b ≤ key a) (Py.insert_desc key x l).
Proof.
  induction 1 as [|y l Hl IH Hy]; simpl.
  - repeat constructor.
  - unfold Num.ltb. case_bool_decide as Hlt.
    + constructor; [done|].
      rewrite py_insert_desc_perm. constructor; [|done].
      by apply Qclt_le_weak.
    + apply Qcnot_lt_le in Hlt.
      constructor; [by constructor|].
      constructor; [done|].
      eapply Forall_impl; [exact Hy|].
      intros z Hz. simpl in *. by etrans.
Qed.

Lemma py_sorted_desc_sorted (l : list A) :
  StronglySorted (λ a b, key b ≤ key a) (Py.sorted_desc key l).
Proof.
  induction l as [|x l IH]; simpl; [constructor|].
  by apply py_insert_desc_sorted.
Qed.

Lemma slice_to_take (l : list A) (k : Z) :
  PRIO.slice_to l k
  = take (if decide (0 ≤ k)%Z then Z.to_nat k
          else Z.to_nat (Z.of_nat (length l) + k)) l.
Proof.
  unfold PRIO.slice_to. destruct (decide (0 ≤ k)%Z) as [Hk|Hk].
  - by rewrite (proj2 (Z.leb_le 0 k)).
  - by rewrite (proj2 (Z.leb_gt 0 k)) by lia.
Qed.

(** The first [limit] of a list sorted largest key first. *)
Lemma top_slice (l : list A) (limit : Z) :
  let result := PRIO.slice_to (Py.sorted_desc key l) limit in
  (∀ x, x ∈ result → x ∈ l)
  ∧ StronglySorted (λ a b, key b ≤ key a) result
  ∧ length result
    = (if decide (0 ≤ limit)%Z then Z.to_nat limit `min` length l
       else Z.to_nat (Z.of_nat (length l) + limit))
  ∧ (∃ rest, result ++ rest ≡ₚ l
             ∧ ∀ x y, x ∈ result → y ∈ rest → key y ≤ key x).
Proof.
  intros result. unfold result. rewrite slice_to_take.
  assert (Hlen : length (Py.sorted_desc key l) = length l)
    by (by rewrite py_sorted_desc_perm).
  rewrite Hlen.
  set (n := if decide (0 ≤ limit)%Z then _ else _).
  pose proof (py_sorted_desc_sorted l) as Hsorted.
  split_and!.
  - intros x Hx. rewrite <- (py_sorted_desc_perm l).
    eapply elem_of_prefix; [exact Hx|apply prefix_take].
  - rewrite <- (take_drop n (Py.sorted_desc key l)) in Hsorted.
    by apply StronglySorted_app_1_l in Hsorted.
  - rewrite length_take, Hlen. unfold n. destruct (decide _); lia.
  - exists (drop n (Py.sorted_desc key l)). split.
    + by rewrite take_drop, py_sorted_desc_perm.
    + intros x y Hx Hy.
      rewrite <- (take_drop n (Py.sorted_desc key l)) in Hsorted.
      by apply (StronglySorted_app_1_elem_of _ _ _ x y Hsorted).
Qed.

End SortedDesc.

(** ** EM: the read operations *)

(** X22.  [get_recent_events(limit)] returns events of the sliding
    window, newest first (timestamps never increase along the list):
    [min(limit, n)] of the [n] recent events for [limit ≥ 0], all but
    the [|limit|] oldest for a negative [limit]; no event it leaves
    out is newer than one it returns. *)
Theorem get_recent_events_newest (self : EM.t) (limit : Z) :
  let result := EMView.get_recent_events self limit in
  let n := length (EM.recent_events self) in
  (∀ ev, ev ∈ result → ev ∈ EM.recent_events self)
  ∧ StronglySorted (λ a b, EM.timestamp b ≤ EM.timestamp a) result
  ∧ length result
    = (if decide (0 ≤ limit)%Z then Z.to_nat limit `min` n
       else Z.to_nat (Z.of_nat n + limit))
  ∧ ∃ rest, result ++ rest ≡ₚ EM.recent_events self
            ∧ ∀ ev old, ev ∈ result → old ∈ rest →
                        EM.timestamp old ≤ EM.timestamp ev.
Proof.
  unfold EMView.get_recent_events, EMView.to_dict.
  rewrite map_id. apply (top_slice EM.timestamp).
Qed.

(** X23.  [get_events_by_entity(e, limit)] returns stored events of
    the entity [e] and of no other, newest first: [min(limit, n)] of
    its [n] stored events for [limit ≥ 0]; no event of [e] it leaves
    out is newer than one it returns. *)
Theorem get_events_by_entity_newest (self : EM.t) (entity_id : string)
  (limit : Z) :
  let result := EMView.get_events_by_entity self entity_id limit in
  let n := length (filter (λ ev, EM.entity_id ev = entity_id)
                          (EM.events self)) in
  (∀ ev, ev ∈ result → ev ∈ EM.events self ∧ EM.entity_id ev = entity_id)
  ∧ StronglySorted (λ a b, EM.timestamp b ≤ EM.timestamp a) result
  ∧ length result
    = (if decide (0 ≤ limit)%Z then Z.to_nat limit `min` n
       else Z.to_nat (Z.of_nat n + limit))
  ∧ ∀ ev old,
      ev ∈ result → old ∈ EM.events self → EM.entity_id old = entity_id →
      old ∈ result ∨ EM.timestamp old ≤ EM.timestamp ev.
Proof.
  unfold EMView.get_events_by_entity, EMView.to_dict.
  rewrite map_id.
  destruct (top_slice EM.timestamp
              (filter (λ ev, EM.entity_id ev = entity_id) (EM.events self))
              limit) as (Hin & Hsorted & Hlen & rest & Hperm & Hrest).
  split_and!; try done.
  - intros ev Hev%Hin. apply list_elem_of_filter in Hev as [He Hev]. done.
  - intros ev old Hev Hold He.
    assert (Hmem : old ∈ filter (λ ev, EM.entity_id ev = entity_id)
                               (EM.events self))
      by (by apply list_elem_of_filter).
    rewrite <- Hperm in Hmem.
    apply elem_of_app in Hmem as [Hmem|Hmem]; [by left|right].
    by apply Hrest.
Qed.

Lemma Qc_of_nat_nonneg (n : nat) : 0 ≤ Qc_of_Z (Z.of_nat n).
Proof.
  unfold Qcle. simpl. unfold Qle. simpl. lia.
Qed.

(** X24.  [get_num_recent_events_normalized] lies in [[0, 1]]: it is
    the number of recent events over 100 up to a hundred events, and
    1.0 from there on. *)
Theorem recent_events_normalized (self : EM.t) :
  let n := EMView.get_num_recent_events self in
  let x := EMView.get_num_recent_events_normalized self in
  0 ≤ x ∧ x ≤ 1
  ∧ ((n ≤ 100)%nat → x = Qc_of_Z (Z.of_nat n) / Config.max_recent_events)
  ∧ ((100 ≤ n)%nat → x = 1).
Proof.
  intros n x. unfold x, EMView.get_num_recent_events_normalized.
  fold (EMView.get_num_recent_events self). fold n.
  assert (Hn := Qc_of_nat_nonneg n).
  assert (Hdiv : Qc_of_Z (Z.of_nat n) / Config.max_recent_events
                 = Qc_of_Z (Z.of_nat n) * Num.frac 1 100)
    by (unfold Qcdiv; f_equal; by apply Qc_is_canon).
  rewrite Hdiv.
  assert (Hle : (n ≤ 100)%nat ↔ Qc_of_Z (Z.of_nat n) * Num.frac 1 100 ≤ 1).
  { split.
    - intros Hle.
      assert (Qc_of_Z (Z.of_nat n) ≤ Num.frac 100 1)
        by (unfold Qcle, Qle; simpl; lia).
      qc_lra.
    - intros Hle.
      assert (Hq : Qc_of_Z (Z.of_nat n) ≤ Num.frac 100 1) by qc_lra.
      revert Hq. unfold Qcle, Qle. simpl. lia. }
  split_and!.
  - qc_cases; qc_lra.
  - qc_cases; qc_lra.
  - intros H%Hle. qc_cases; [qc_lra|done].
  - intros H. qc_cases; [done|].
    assert (Hq : Num.frac 100 1 ≤ Qc_of_Z (Z.of_nat n))
      by (unfold Qcle, Qle; simpl; lia).
    qc_lra.
Qed.

Lemma summarise_lists (l : list EM.Event) :
  ∀ init,
    EMView.liveness_issues (foldl EMView.summarise init l)
    = EMView.liveness_issues init
      ++ ((λ ev, {| EMView.li_entity := EM.entity_id ev;
                    EMView.li_p_up := Py.get "p_up" (EM.details ev) 0;
                    EMView.li_time := EM.timestamp ev |})
          <$> filter (λ ev, EM.event_type ev = "liveness_low") l)
    ∧ EMView.instability_issues (foldl EMView.summarise init l)
      = EMView.instability_issues init
        ++ ((λ ev, {| EMView.ii_entity := EM.entity_id ev;
                      EMView.ii_metric := EM.metric ev;
                      EMView.ii_stability :=
                        Py.get "stability" (EM.details ev) 0;
                      EMView.ii_time := EM.timestamp ev |})
            <$> filter (λ ev, EM.event_type ev = "high_instability") l)
    ∧ EMView.value_spikes (foldl EMView.summarise init l)
      = EMView.value_spikes init
        ++ ((λ ev, {| EMView.vs_entity := EM.entity_id ev;
                      EMView.vs_metric := EM.metric ev;
                      EMView.vs_current :=
                        Py.get "current" (EM.details ev) 0;
                      EMView.vs_deviation :=
                        Py.get "deviation" (EM.details ev) 0;
                      EMView.vs_time := EM.timestamp ev |})
            <$> filter (λ ev, EM.event_type ev ∈ ["rtt_spike"; "plr_spike"])
                       l).
Proof.
  induction l as [|ev l IH]; intros init.
  - simpl. by rewrite !(right_id_L [] (++)).
  - cbn [foldl]. destruct (IH (EMView.summarise init ev)) as (-> & -> & ->).
    rewrite !filter_cons. unfold EMView.summarise.
    destruct (decide (EM.event_type ev = "liveness_low")) as [Hty|Hl].
    { rewrite Hty. rewrite decide_False by done.
      rewrite decide_False
        by (intros [?|[?|?%elem_of_nil]%elem_of_cons]%elem_of_cons; done).
      simpl. by rewrite <- !(assoc_L (++)). }
    destruct (decide (EM.event_type ev = "high_instability")) as [Hty|Hi].
    { rewrite Hty.
      rewrite decide_False
        by (intros [?|[?|?%elem_of_nil]%elem_of_cons]%elem_of_cons; done).
      simpl. by rewrite <- !(assoc_L (++)). }
    destruct (decide (EM.event_type ev ∈ ["rtt_spike"; "plr_spike"])).
    { simpl. by rewrite <- !(assoc_L (++)). }
    done.
Qed.

(** X25.  [get_anomaly_summary] sorts the recent events by type, in
    their order: the [liveness_low] events into [liveness_issues], the
    [high_instability] events into [instability_issues], the
    [rtt_spike] and [plr_spike] events into [value_spikes]; an event
    of another type is in no list.  On an event manager that only
    [check_and_detect_events] has filled, every recent event is in
    exactly one list, and no [plr_spike] was ever there to list. *)
Theorem anomaly_summary_sorts_by_type (np_mean np_std : list Qc → Qc)
  (self : EM.t) :
  let summary := EMView.get_anomaly_summary self in
  let recent := EM.recent_events self in
  EMView.liveness_issues summary
  = (λ ev, {| EMView.li_entity := EM.entity_id ev;
              EMView.li_p_up := Py.get "p_up" (EM.details ev) 0;
              EMView.li_time := EM.timestamp ev |})
    <$> filter (λ ev, EM.event_type ev = "liveness_low") recent
  ∧ EMView.instability_issues summary
    = (λ ev, {| EMView.ii_entity := EM.entity_id ev;
                EMView.ii_metric := EM.metric ev;
                EMView.ii_stability := Py.get "stability" (EM.details ev) 0;
                EMView.ii_time := EM.timestamp ev |})
      <$> filter (λ ev, EM.event_type ev = "high_instability") recent
  ∧ EMView.value_spikes summary
    = (λ ev, {| EMView.vs_entity := EM.entity_id ev;
                EMView.vs_metric := EM.metric ev;
                EMView.vs_current := Py.get "current" (EM.details ev) 0;
                EMView.vs_deviation := Py.get "deviation" (EM.details ev) 0;
                EMView.vs_time := EM.timestamp ev |})
      <$> filter (λ ev, EM.event_type ev ∈ ["rtt_spike"; "plr_spike"]) recent
  ∧ (EMView.reachable np_mean np_std self →
     (length (EMView.liveness_issues summary)
      + length (EMView.instability_issues summary)
      + length (EMView.value_spikes summary))%nat
     = length recent
     ∧ ∀ ev, ev ∈ recent → EM.event_type ev ≠ "plr_spike").
Proof.
  intros summary recent. subst summary recent.
  unfold EMView.get_anomaly_summary.
  destruct (summarise_lists (EM.recent_events self)
              {| EMView.liveness_issues := [];
                 EMView.instability_issues := [];
                 EMView.value_spikes := [] |}) as (-> & -> & ->).
  simpl. split_and!; try done.
  intros (_ & _ & _ & _ & _ & _ & Hall)%reachable_consistent.
  apply Forall_app in Hall as [_ Hrecent].
  rewrite !length_fmap. split.
  - clear -Hrecent.
    induction Hrecent as [|ev l [Hty _] _ IH]; [done|].
    rewrite !filter_cons. simpl. rewrite <- IH. clear IH.
    unfold Props.event_types in Hty.
    apply elem_of_cons in Hty as [->|Hty].
    { rewrite decide_True by done. rewrite decide_False by done.
      rewrite decide_False
        by (intros [?|[?|?%elem_of_nil]%elem_of_cons]%elem_of_cons; done).
      simpl. lia. }
    apply elem_of_cons in Hty as [->|Hty].
    { rewrite decide_False by done. rewrite decide_True by done.
      rewrite decide_False
        by (intros [?|[?|?%elem_of_nil]%elem_of_cons]%elem_of_cons; done).
      simpl. lia. }
    apply list_elem_of_singleton in Hty as ->.
    rewrite decide_False by done. rewrite decide_False by done.
    rewrite decide_True by left. simpl. lia.
  - intros ev Hev Hplr.
    destruct (proj1 (Forall_forall _ _) Hrecent ev Hev) as [Hty _].
    rewrite Hplr in Hty. unfold Props.event_types in Hty.
    by repeat (apply elem_of_cons in Hty as [?|Hty]; [done|]);
      apply elem_of_nil in Hty.
Qed.

Lemma StronglySorted_weaken {A : Type} (R R' : relation A) (l : list A) :
  (∀ a b, R a b → R' a b) → StronglySorted R l → StronglySorted R' l.
Proof.
  intros HR. induction 1 as [|x l _ IH Hx]; constructor; [done|].
  eapply Forall_impl; [exact Hx|]. intros y. apply HR.
Qed.

Lemma Qc_div_nonneg (a b : Qc) : 0 ≤ a → 0 < b → 0 ≤ a / b.
Proof.
  intros Ha Hb. apply Qcmult_nonneg_nonneg; [done|].
  apply Qclt_le_weak. by apply Qcinv_pos.
Qed.

(** X26.  What [get_statistics] reports of an event manager that only
    [check_and_detect_events] has filled: [active_triggers] is the
    number of pairs whose trigger is raised (the size of the trigger
    dict, every value being 1.0); [total_events] is the sum of
    [events_by_type] and of [events_by_metric];
    [recent_events_count] is the length of the window; [event_rate] is
    not negative; [top_entities] holds at most ten items of the
    counter by entity, largest count first, and no entity it leaves
    out has a larger count than one it lists. *)
Theorem statistics_of_reachable (np_mean np_std : list Qc → Qc)
  (self : EM.t) (now : Qc) :
  EMView.reachable np_mean np_std self →
  let stats := EMView.get_statistics self now in
  EMView.active_triggers stats = size (EM.event_triggers self)
  ∧ (∀ e m, EM.get_event_trigger self e m = 1
            ↔ is_Some (EM.event_triggers self !! (e, m)))
  ∧ EMView.total_events stats
    = Props.sum_counts (EMView.events_by_type stats)
  ∧ EMView.total_events stats
    = Props.sum_counts (EMView.events_by_metric stats)
  ∧ EMView.recent_events_count stats = EMView.get_num_recent_events self
  ∧ 0 ≤ EMView.event_rate stats
  ∧ (length (EMView.top_entities stats) ≤ 10)%nat
  ∧ StronglySorted (λ a b, (b.2 ≤ a.2)%nat) (EMView.top_entities stats)
  ∧ (∀ e n, (e, n) ∈ EMView.top_entities stats →
            EM.events_by_entity (EM.stats self) !! e = Some n)
  ∧ ∀ e n e' n',
      (e, n) ∈ EMView.top_entities stats →
      EM.events_by_entity (EM.stats self) !! e' = Some n' →
      (e', n') ∈ EMView.top_entities stats ∨ (n' ≤ n)%nat.
Proof.
  intros (Hty & He & Hm & _ & _ & Hone & _)%reachable_consistent stats.
  unfold stats, EMView.get_statistics.
  cbn [EMView.active_triggers EMView.total_events EMView.events_by_type
       EMView.events_by_metric EMView.recent_events_count EMView.event_rate
       EMView.top_entities].
  destruct (top_slice (λ x : string * nat, Qc_of_Z (Z.of_nat x.2))
              (map_to_list (EM.events_by_entity (EM.stats self))) 10)
    as (Hin & Hsorted & Hlen & rest & Hperm & Hrest).
  assert (Hmono : ∀ a b : nat,
    Qc_of_Z (Z.of_nat a) ≤ Qc_of_Z (Z.of_nat b) → (a ≤ b)%nat).
  { intros a b. unfold Qcle, Qle. simpl. lia. }
  split_and!; try done.
  - rewrite <- length_map_to_list.
    rewrite <- (length_fmap snd (map_to_list (EM.event_triggers self))).
    f_equal. apply filter_all, Forall_forall.
    intros v [[k v'] [-> Hkv]]%list_elem_of_fmap. simpl.
    apply elem_of_map_to_list in Hkv. by rewrite (Hone k v').
  - intros e m. unfold EM.get_event_trigger. split.
    + destruct (EM.event_triggers self !! (e, m)); [by eexists|done].
    + intros [v Hv]. rewrite Hv. simpl. by eapply Hone.
  - destruct (EM.recent_events self) as [|first rest']; [done|].
    unfold Num.ltb. case_bool_decide as Hspan; [|done].
    apply Qc_div_nonneg; [apply Qc_of_nat_nonneg|done].
  - rewrite Hlen. destruct (decide _); lia.
  - eapply StronglySorted_weaken; [|exact Hsorted].
    intros a b. apply Hmono.
  - intros e n Hen%Hin. by apply elem_of_map_to_list in Hen.
  - intros e n e' n' Hen Hen'. apply elem_of_map_to_list in Hen'.
    rewrite <- Hperm in Hen'.
    apply elem_of_app in Hen' as [Hen'|Hen']; [by left|right].
    apply Hmono. by apply (Hrest (e, n) (e', n')).
Qed.

Lemma statistics_of_reachable_witness :
  EMView.active_triggers (EMView.get_statistics Runs.em_down (Num.frac 6 1))
  = size (EM.event_triggers Runs.em_down)
  ∧ EM.get_event_trigger Runs.em_down "L2" Config.LIVENESS = 1.
Proof.
  destruct (statistics_of_reachable Scenario.no_statistic
              Scenario.no_statistic Runs.em_down (Num.frac 6 1))
    as (Hactive & _).
  - apply EMView.reach_pass, EMView.reach_init.
  - split; [exact Hactive|]. by apply Qc_is_canon.
Defined.
